(** * epan/to_str.c: bounded text encoders of a packet analyser

    A shallow embedding of the fixed-capacity text encoders of
    [epan/to_str.c] (hex writers, backward decimal writers, the
    capacity-checked number formatters, the hex dump, the GUID and
    IPv6 formatters, the bit-field visualiser and the duration
    formatter), together with the properties its specification
    states about them.

    Conventions of the embedding:
    - a [gchar]/[guint8] is a [Z] in [0, 256); wider unsigned integers
      are [Z] with the wrap-around written out where the C code
      converts;
    - a [char *] into a caller buffer is the buffer (a [list gchar])
      and an offset ([nat]); a store outside the buffer is undefined
      behaviour;
    - a C function that can fail fatally or leave the defined part of
      C returns an [outcome]. *)

From Stdlib Require Import ZArith String Ascii List Lia ZifyNat.
From Stdlib Require Import Decimal DecimalFacts DecimalPos DecimalN DecimalString.
From stdpp Require Import base list.

Local Open Scope Z_scope.

(** ** Outcomes of a C call *)

Inductive outcome (A : Type) : Type :=
| Ok (a : A)                    (* normal return *)
| DissectorBug (msg : string)   (* REPORT_DISSECTOR_BUG: fatal report *)
| Undefined                     (* undefined behaviour of C *)
| OutOfFuel.                    (* a loop of the model ran out of fuel *)

Arguments Ok {A} a.
Arguments DissectorBug {A} msg.
Arguments Undefined {A}.
Arguments OutOfFuel {A}.

#[global] Instance outcome_ret : MRet outcome := fun A a => Ok a.

#[global] Instance outcome_bind : MBind outcome := fun A B k m =>
  match m with
  | Ok a => k a
  | DissectorBug msg => DissectorBug msg
  | Undefined => Undefined
  | OutOfFuel => OutOfFuel
  end.

(** [for (i = start; i < start + n; i++) body] *)
Fixpoint for_loop {S : Type} (n : nat) (i : nat)
    (body : nat -> S -> outcome S) (s : S) : outcome S :=
  match n with
  | O => Ok s
  | S n' => s' ← body i s; for_loop n' (Datatypes.S i) body s'
  end.

(** ** Characters, strings and buffers *)

(** A [gchar] is a byte, kept as an integer. *)
Abbreviation gchar := Z (only parsing).

Definition NUL : gchar := 0.

(** The bytes of a string literal, without its terminator. *)
Definition str (s : string) : list gchar :=
  map (fun a => Z.of_N (N_of_ascii a)) (list_ascii_of_string s).

(** Conversion of an integer to [guint8], [guint16], [guint32], [guint64]. *)
Definition to_guint8 (z : Z) : Z := z mod 256.
Definition to_guint16 (z : Z) : Z := z mod 65536.
Definition to_guint32 (z : Z) : Z := z mod 4294967296.
Definition to_guint64 (z : Z) : Z := z mod 18446744073709551616.
(** [gsize] is the 64-bit [size_t]. *)
Definition to_gsize (z : Z) : Z := z mod 18446744073709551616.

(** [buf[i] = c] *)
Definition store (buf : list gchar) (i : nat) (c : gchar) : outcome (list gchar) :=
  if (i <? length buf)%nat then Ok (<[i := c]> buf) else Undefined.

(** [a[i]] *)
Definition load {A} (a : list A) (i : nat) : outcome A :=
  match a !! i with
  | Some x => Ok x
  | None => Undefined
  end.

(** [*out++ = c] *)
Definition put (c : gchar) (st : list gchar * nat) : outcome (list gchar * nat) :=
  let '(buf, out) := st in
  buf' ← store buf out c; Ok (buf', S out).

(** [*(--ptr) = c] *)
Definition put_back (c : gchar) (st : list gchar * nat) : outcome (list gchar * nat) :=
  let '(buf, ptr) := st in
  match ptr with
  | O => Undefined
  | S p => buf' ← store buf p c; Ok (buf', p)
  end.

(** The C string that starts at [buf]: the bytes before the first
    terminator; reading past the end of a buffer that holds none is
    not a string. *)
Fixpoint c_str (buf : list gchar) : option (list gchar) :=
  match buf with
  | [] => None
  | c :: rest =>
      if c =? NUL then Some []
      else match c_str rest with
           | Some s => Some (c :: s)
           | None => None
           end
  end.

(** A block of [data] written at offset [off] of [buf] (as [memcpy] or
    a bounded string copy does). *)
Definition write_at (buf : list gchar) (off : nat) (data : list gchar)
    : outcome (list gchar) :=
  if (off + length data <=? length buf)%nat
  then Ok (take off buf ++ data ++ drop (off + length data) buf)
  else Undefined.

(** GLib's [g_strlcpy (dest, src, dest_size)], from its documentation:
    copies at most [dest_size - 1] characters of [src], terminates the
    copy unless [dest_size] is 0, and returns the length of [src]. *)
Definition g_strlcpy (dest : list gchar) (src : list gchar) (dest_size : Z)
    : outcome (list gchar * Z) :=
  if dest_size =? 0 then Ok (dest, Z.of_nat (length src))
  else
    let n := Z.to_nat (Z.min (Z.of_nat (length src)) (dest_size - 1)) in
    dest' ← write_at dest 0 (take n src ++ [NUL]);
    Ok (dest', Z.of_nat (length src)).

(** GLib's [g_stpcpy (dest, src)]: copies [src] with its terminator and
    returns a pointer to the terminator written. *)
Definition g_stpcpy (st : list gchar * nat) (src : list gchar)
    : outcome (list gchar * nat) :=
  let '(buf, out) := st in
  buf' ← write_at buf out (src ++ [NUL]);
  Ok (buf', (out + length src)%nat).

(** [#define BUF_TOO_SMALL_ERR] *)
Definition BUF_TOO_SMALL_ERR : list gchar := str "[Buffer too small]".

(** ** Hex encoder *)

Definition hex_digits : list gchar := str "0123456789abcdef".

Definition low_nibble_of_octet_to_hex (oct : Z) : gchar :=
  nth (Z.to_nat (Z.land (to_guint8 oct) 15)) hex_digits NUL.

Definition byte_to_hex (st : list gchar * nat) (dword : Z) : outcome (list gchar * nat) :=
  st ← put (low_nibble_of_octet_to_hex (Z.shiftr dword 4)) st;
  put (low_nibble_of_octet_to_hex dword) st.

Definition guint8_to_hex (st : list gchar * nat) (val : Z) : outcome (list gchar * nat) :=
  byte_to_hex st val.

Definition word_to_hex (st : list gchar * nat) (word : Z) : outcome (list gchar * nat) :=
  st ← byte_to_hex st (Z.shiftr word 8);
  byte_to_hex st word.

Definition dword_to_hex (st : list gchar * nat) (dword : Z) : outcome (list gchar * nat) :=
  st ← word_to_hex st (to_guint16 (Z.shiftr dword 16));
  word_to_hex st (to_guint16 dword).

(** [ad] is [None] for a null pointer. *)
Definition bytes_to_hexstr (st : list gchar * nat) (ad : option (list Z)) (len : nat)
    : outcome (list gchar * nat) :=
  match ad with
  | None => DissectorBug "Null pointer passed to bytes_to_hexstr()"
  | Some ad =>
      for_loop len 0
        (fun i st => b ← load ad i; byte_to_hex st b) st
  end.

Definition bytes_to_hexstr_punct (st : list gchar * nat) (ad : option (list Z))
    (len : nat) (punct : gchar) : outcome (list gchar * nat) :=
  match ad with
  | None => DissectorBug "Null pointer passed to bytes_to_hexstr_punct()"
  | Some ad =>
      b0 ← load ad 0;
      st ← byte_to_hex st b0;
      for_loop (len - 1) 1
        (fun i st => st ← put punct st; b ← load ad i; byte_to_hex st b) st
  end.

(** ** Bounded buffer formatter: digit counts *)

Definition guint32_to_str_buf_len (u : Z) : Z :=
  if 1000000000 <=? u then 10 else
  if 100000000 <=? u then 9 else
  if 10000000 <=? u then 8 else
  if 1000000 <=? u then 7 else
  if 100000 <=? u then 6 else
  if 10000 <=? u then 5 else
  if 1000 <=? u then 4 else
  if 100 <=? u then 3 else
  if 10 <=? u then 2 else
  1.

Definition guint64_to_str_buf_len (u : Z) : Z :=
  if 10000000000000000000 <=? u then 20 else
  if 1000000000000000000 <=? u then 19 else
  if 100000000000000000 <=? u then 18 else
  if 10000000000000000 <=? u then 17 else
  if 1000000000000000 <=? u then 16 else
  if 100000000000000 <=? u then 15 else
  if 10000000000000 <=? u then 14 else
  if 1000000000000 <=? u then 13 else
  if 100000000000 <=? u then 12 else
  if 10000000000 <=? u then 11 else
  if 1000000000 <=? u then 10 else
  if 100000000 <=? u then 9 else
  if 10000000 <=? u then 8 else
  if 1000000 <=? u then 7 else
  if 100000 <=? u then 6 else
  if 10000 <=? u then 5 else
  if 1000 <=? u then 4 else
  if 100 <=? u then 3 else
  if 10 <=? u then 2 else
  1.

(** An initialiser of a [char[4]]: the literal, then terminators. *)
Definition char4 (s : string) : list gchar := take 4 (str s ++ replicate 4 NUL).

(** [static const char fast_strings[][4]] *)
Definition fast_strings : list (list gchar) := map char4 [
    "0"; "1"; "2"; "3"; "4"; "5"; "6"; "7";
    "8"; "9"; "10"; "11"; "12"; "13"; "14"; "15";
    "16"; "17"; "18"; "19"; "20"; "21"; "22"; "23";
    "24"; "25"; "26"; "27"; "28"; "29"; "30"; "31";
    "32"; "33"; "34"; "35"; "36"; "37"; "38"; "39";
    "40"; "41"; "42"; "43"; "44"; "45"; "46"; "47";
    "48"; "49"; "50"; "51"; "52"; "53"; "54"; "55";
    "56"; "57"; "58"; "59"; "60"; "61"; "62"; "63";
    "64"; "65"; "66"; "67"; "68"; "69"; "70"; "71";
    "72"; "73"; "74"; "75"; "76"; "77"; "78"; "79";
    "80"; "81"; "82"; "83"; "84"; "85"; "86"; "87";
    "88"; "89"; "90"; "91"; "92"; "93"; "94"; "95";
    "96"; "97"; "98"; "99"; "100"; "101"; "102"; "103";
    "104"; "105"; "106"; "107"; "108"; "109"; "110"; "111";
    "112"; "113"; "114"; "115"; "116"; "117"; "118"; "119";
    "120"; "121"; "122"; "123"; "124"; "125"; "126"; "127";
    "128"; "129"; "130"; "131"; "132"; "133"; "134"; "135";
    "136"; "137"; "138"; "139"; "140"; "141"; "142"; "143";
    "144"; "145"; "146"; "147"; "148"; "149"; "150"; "151";
    "152"; "153"; "154"; "155"; "156"; "157"; "158"; "159";
    "160"; "161"; "162"; "163"; "164"; "165"; "166"; "167";
    "168"; "169"; "170"; "171"; "172"; "173"; "174"; "175";
    "176"; "177"; "178"; "179"; "180"; "181"; "182"; "183";
    "184"; "185"; "186"; "187"; "188"; "189"; "190"; "191";
    "192"; "193"; "194"; "195"; "196"; "197"; "198"; "199";
    "200"; "201"; "202"; "203"; "204"; "205"; "206"; "207";
    "208"; "209"; "210"; "211"; "212"; "213"; "214"; "215";
    "216"; "217"; "218"; "219"; "220"; "221"; "222"; "223";
    "224"; "225"; "226"; "227"; "228"; "229"; "230"; "231";
    "232"; "233"; "234"; "235"; "236"; "237"; "238"; "239";
    "240"; "241"; "242"; "243"; "244"; "245"; "246"; "247";
    "248"; "249"; "250"; "251"; "252"; "253"; "254"; "255"
  ]%string.

(** ** Backward numeric writer *)

(** The loop [while (value >= 10)] of [uint_to_str_back] and
    [uint64_to_str_back]; it returns the cursor and what is left of
    [value]. *)
Fixpoint uint_to_str_back_loop (fuel : nat) (st : list gchar * nat) (value : Z)
    : outcome (list gchar * nat * Z) :=
  if 10 <=? value then
    match fuel with
    | O => OutOfFuel
    | S fuel' =>
        p ← load fast_strings (Z.to_nat (100 + value mod 100));
        let value := value / 100 in
        c2 ← load p 2;
        st ← put_back c2 st;
        c1 ← load p 1;
        st ← put_back c1 st;
        uint_to_str_back_loop fuel' st value
    end
  else Ok (st, value).

(** More iterations than a 64-bit value can take. *)
Definition loop_fuel : nat := 32.

Definition uint_to_str_back (st : list gchar * nat) (value : Z)
    : outcome (list gchar * nat) :=
  st ← (if value =? 0 then put_back 48 st else Ok st);
  '(st, value) ← uint_to_str_back_loop loop_fuel st value;
  if value =? 0 then Ok st else put_back (Z.lor value 48) st.

Definition uint64_to_str_back (st : list gchar * nat) (value : Z)
    : outcome (list gchar * nat) :=
  st ← (if value =? 0 then put_back 48 st else Ok st);
  '(st, value) ← uint_to_str_back_loop loop_fuel st value;
  if value =? 0 then Ok st else put_back (Z.lor (Z.land value 15) 48) st.

(** ** Bounded buffer formatter *)

Definition guint32_to_str_buf (u : Z) (buf : list gchar) (buf_len : Z)
    : outcome (list gchar) :=
  let str_len := guint32_to_str_buf_len u + 1 in
  let bp := Z.to_nat str_len in
  if buf_len <? str_len then
    '(buf, _) ← g_strlcpy buf BUF_TOO_SMALL_ERR (to_gsize buf_len);
    Ok buf
  else
    st ← put_back NUL (buf, bp);
    '(buf, _) ← uint_to_str_back st u;
    Ok buf.

Definition guint64_to_str_buf (u : Z) (buf : list gchar) (buf_len : Z)
    : outcome (list gchar) :=
  let str_len := guint64_to_str_buf_len u + 1 in
  let bp := Z.to_nat str_len in
  if buf_len <? str_len then
    '(buf, _) ← g_strlcpy buf BUF_TOO_SMALL_ERR (to_gsize buf_len);
    Ok buf
  else
    st ← put_back NUL (buf, bp);
    '(buf, _) ← uint64_to_str_back st u;
    Ok buf.

(** ** External collaborators *)

(** The scope-bound arena allocator [wmem]: [wmem_alloc scope n] is a
    fresh block of [n] bytes whose content is unspecified. *)
Class Wmem := {
  wmem_allocator_t : Type;
  wmem_alloc : wmem_allocator_t -> nat -> list gchar;
  wmem_alloc_length : forall scope n, length (wmem_alloc scope n) = n
}.

(** [wmem_strdup (scope, s)]: a fresh copy of the string [s]. *)
Definition wmem_strdup `{Wmem} (scope : wmem_allocator_t) (s : list gchar)
    : list gchar := s ++ [NUL].

(** [wmem_alloc0]: a zeroed block. *)
Definition wmem_alloc0 (n : nat) : list gchar := replicate n NUL.

(** The system converter of an IPv6 address (16 bytes) to its canonical
    text, [ws_inet_ntop6]. *)
Class InetNtop := {
  ws_inet_ntop6 : list Z -> list gchar
}.

(** GLib's [g_snprintf (string, n, format, ...)], given the text that the
    format expands to: at most [n - 1] of its characters are stored,
    then a terminator, and the result is, as for C99 [snprintf], the
    number of characters the full text has, its terminator left out. *)
Definition g_snprintf (buf : list gchar) (n : Z) (text : list gchar)
    : outcome (list gchar * Z) :=
  if n =? 0 then Ok (buf, Z.of_nat (length text))
  else
    let k := Z.to_nat (Z.min (Z.of_nat (length text)) (n - 1)) in
    buf' ← write_at buf 0 (take k text ++ [NUL]);
    Ok (buf', Z.of_nat (length text)).

(** [UTF8_HORIZONTAL_ELLIPSIS] of [wsutil/utf8_entities.h]: U+2026 in UTF-8. *)
Definition UTF8_HORIZONTAL_ELLIPSIS : list gchar := [226; 128; 166].

(** ** Hex dump formatter *)

Definition MAX_BYTE_STR_LEN : nat := 72.

Section HexDump.
Context `{Wmem}.

Definition bytes_to_str (scope : wmem_allocator_t) (bd : option (list Z))
    (bd_len : nat) : outcome (list gchar) :=
  match bd with
  | None => DissectorBug "Null pointer passed to bytes_to_str()"
  | Some _ =>
      let cur := wmem_alloc scope (MAX_BYTE_STR_LEN + 3 + 1) in
      if (bd_len =? 0)%nat then store cur 0 NUL
      else
        let '(truncated, bd_len) :=
          if (MAX_BYTE_STR_LEN / 2 <? bd_len)%nat
          then (true, (MAX_BYTE_STR_LEN / 2)%nat) else (false, bd_len) in
        st ← bytes_to_hexstr (cur, O) bd bd_len;
        '(cur, cur_ptr) ←
          (if truncated : bool then g_stpcpy st UTF8_HORIZONTAL_ELLIPSIS else Ok st);
        store cur cur_ptr NUL
  end.

Definition bytestring_to_str (scope : wmem_allocator_t) (ad : option (list Z))
    (len : nat) (punct : gchar) : outcome (list gchar) :=
  let buflen := len in
  if (len =? 0)%nat then Ok (wmem_strdup scope (str ""))
  else
    match ad with
    | None => DissectorBug "Null pointer passed to bytestring_to_str()"
    | Some _ =>
        if punct =? NUL then bytes_to_str scope ad len
        else
          let buf := wmem_alloc scope (MAX_BYTE_STR_LEN + 3 + 1) in
          let '(truncated, buflen) :=
            if (MAX_BYTE_STR_LEN / 3 <? buflen)%nat
            then (true, (MAX_BYTE_STR_LEN / 3)%nat) else (false, buflen) in
          st ← bytes_to_hexstr_punct (buf, O) ad buflen punct;
          '(buf, buf_ptr) ←
            (if truncated : bool
             then st ← put punct st; g_stpcpy st UTF8_HORIZONTAL_ELLIPSIS
             else Ok st);
          store buf buf_ptr NUL
    end.
End HexDump.

(** ** Address formatter *)

(** [e_guid_t] of [epan/guid-utils.h]: a [guint32], two [guint16] and
    eight [guint8]. *)
Record e_guid_t := {
  data1 : Z;
  data2 : Z;
  data3 : Z;
  data4 : list Z
}.

(** [GUID_STR_LEN] of [epan/guid-utils.h]. *)
Definition GUID_STR_LEN : Z := 37.

Definition guid_to_str_buf (guid : e_guid_t) (buf : list gchar) (buf_len : Z)
    : outcome (list gchar) :=
  if buf_len <? GUID_STR_LEN then
    '(buf, _) ← g_strlcpy buf BUF_TOO_SMALL_ERR (to_gsize buf_len);
    Ok buf
  else
    st ← dword_to_hex (buf, O) (data1 guid);
    st ← put 45 st;
    st ← word_to_hex st (data2 guid);
    st ← put 45 st;
    st ← word_to_hex st (data3 guid);
    st ← put 45 st;
    st ← bytes_to_hexstr st (Some (data4 guid)) 2;
    st ← put 45 st;
    '(buf, tempptr) ← bytes_to_hexstr st (Some (drop 2 (data4 guid))) 6;
    store buf tempptr NUL.

Section Ip6.
Context `{InetNtop}.

(** [prefix] is [None] for a null pointer; the result is the buffer
    and the returned [int]. *)
Definition ip6_to_str_buf_with_pfx (addr : list Z) (buf : list gchar)
    (buf_size : Z) (prefix : option (list gchar)) : outcome (list gchar * Z) :=
  let prefix := match prefix with None => str "" | Some p => p end in
  '(buf, bytes) ← g_snprintf buf (to_gsize buf_size) (prefix ++ ws_inet_ntop6 addr);
  let len := bytes - 1 in
  if buf_size - 1 <? len then
    g_strlcpy buf BUF_TOO_SMALL_ERR (to_gsize buf_size)
  else Ok (buf, len).

Definition ip6_to_str_buf (addr : list Z) (buf : list gchar) (buf_size : Z)
    : outcome (list gchar * Z) :=
  '(buf, len) ← g_strlcpy buf (ws_inet_ntop6 addr) (to_gsize buf_size);
  if buf_size - 1 <? len then
    g_strlcpy buf BUF_TOO_SMALL_ERR (to_gsize buf_size)
  else Ok (buf, len).
End Ip6.

(** ** Bit-field visualiser *)

(** [x << n] on a [guint64]: defined for [0 <= n < 64] only. *)
Definition shl64 (x n : Z) : outcome Z :=
  if (0 <=? n) && (n <? 64) then Ok (to_guint64 (Z.shiftl x n)) else Undefined.

(** [if (bit && !(bit % m)) { str[str_p] = ' '; str_p++; }] *)
Definition space_every (m : Z) (bit : Z) (st : list gchar * nat)
    : outcome (list gchar * nat) :=
  if negb (bit =? 0) && (Z.rem bit m =? 0) then put 32 st else Ok st.

(** The loop [for (; bit % 8; bit++)]. *)
Fixpoint decode_bits_pad (fuel : nat) (st : list gchar * nat) (bit : Z)
    : outcome (list gchar * nat) :=
  if Z.rem bit 8 =? 0 then Ok st
  else
    match fuel with
    | O => OutOfFuel
    | S fuel' =>
        st ← space_every 4 bit st;
        st ← put 46 st;
        decode_bits_pad fuel' st (bit + 1)
    end.

Definition decode_bits_in_field (bit_offset : Z) (no_of_bits : Z) (value : Z)
    : outcome (list gchar) :=
  let max_bits := if 64 <? no_of_bits then 64 else no_of_bits in
  mask ← shl64 1 (max_bits - 1);
  let str := wmem_alloc0 (256 + 64) in
  let skipped := Z.land bit_offset 7 in
  st ← for_loop (Z.to_nat skipped) O
         (fun bit st => st ← space_every 4 (Z.of_nat bit) st; put 46 st)
         (str, O);
  let bit := skipped in
  '(st, bit, mask) ←
    for_loop (Z.to_nat max_bits) O
      (fun _ '(st, bit, mask) =>
         st ← space_every 4 bit st;
         st ← space_every 8 bit st;
         let bit := bit + 1 in
         st ← put (if negb (Z.land value mask =? 0) then 49 else 48) st;
         Ok (st, bit, Z.shiftr mask 1))
      (st, bit, mask);
  '(str, _) ← decode_bits_pad loop_fuel st bit;
  Ok str.

(** ** Reference renderings

    What the specification calls the canonical text of a value, stated
    independently of the writers above. *)

(** The string whose bytes are [s]. *)
Definition unstr (s : list gchar) : string :=
  string_of_list_ascii (map (fun c => ascii_of_N (Z.to_N c)) s).

(** The canonical decimal text of [v]: the standard library's printer
    of decimal numerals. *)
Definition decimal_text (v : Z) : list gchar :=
  str (NilZero.string_of_uint (N.to_uint (Z.to_N v))).

(** Parsing a decimal text back: the standard library's reader. *)
Definition parse_decimal (s : list gchar) : option Z :=
  match NilZero.uint_of_string (unstr s) with
  | Some d => Some (Z.of_N (N.of_uint d))
  | None => None
  end.

(** One lowercase hex digit. *)
Definition hex_char (d : Z) : gchar := if d <? 10 then 48 + d else 87 + d.

(** The [n] low-order hex digits of [v], most significant first. *)
Fixpoint hex_text (n : nat) (v : Z) : list gchar :=
  match n with
  | O => []
  | S n' => hex_text n' (v / 16) ++ [hex_char (v mod 16)]
  end.

(** Two hex digits per byte, nothing between the bytes. *)
Definition hex_dump (bytes : list Z) : list gchar :=
  concat (map (hex_text 2) bytes).

(** The canonical text of a GUID: 8-4-4-4-12 hex digits. *)
Definition guid_text (guid : e_guid_t) : list gchar :=
  hex_text 8 (data1 guid) ++ str "-" ++
  hex_text 4 (data2 guid) ++ str "-" ++
  hex_text 4 (data3 guid) ++ str "-" ++
  hex_dump (take 2 (data4 guid)) ++ str "-" ++
  hex_dump (drop 2 (data4 guid)).

(** What a bounded copy of [src] leaves in the first [cap] bytes of a
    buffer: [src] cut to [cap - 1] characters and a terminator, and
    nothing at all when [cap] is 0. *)
Definition truncated_to (cap : nat) (src : list gchar) : list gchar :=
  match cap with
  | O => []
  | S k => take k src ++ [NUL]
  end.

(** The symbols of a bit field of [n] bits of [value] that starts
    [off] bits into a byte: a placeholder per skipped bit, the bits
    from the most significant one, placeholders to the byte boundary. *)
Definition field_bits (n : nat) (value : Z) : list gchar :=
  map (fun j => if Z.testbit value (Z.of_nat (n - 1 - j)) then 49 else 48)
      (seq 0 n).

Definition bit_symbols (off n : nat) (value : Z) : list gchar :=
  replicate off 46 ++ field_bits n value ++
  replicate ((8 - (off + n) mod 8) mod 8)%nat 46.

(** The spacing rule: before the symbol of bit [k > 0], one space when
    [k] is a multiple of 4 and one more when it is a multiple of 8. *)
Fixpoint grouped (k : nat) (syms : list gchar) : list gchar :=
  match syms with
  | [] => []
  | c :: rest =>
      (if negb (k =? 0)%nat && (k mod 4 =? 0)%nat then [32] else []) ++
      (if negb (k =? 0)%nat && (k mod 8 =? 0)%nat then [32] else []) ++
      c :: grouped (S k) rest
  end.

(** ** Duration formatter *)

(** [printf]'s [%u] and [%0<w>u]. *)
Definition printf_u (v : Z) : list gchar := decimal_text v.

Definition printf_0u (w : nat) (v : Z) : list gchar :=
  replicate (w - length (decimal_text v)) 48 ++ decimal_text v.

Definition PLURALIZE (n : Z) : list gchar := if 1 <? n then str "s" else str "".
Definition COMMA (do_it : bool) : list gchar := if do_it then str ", " else str "".

(** [G_MININT32] and [G_MAXUINT32] of GLib. *)
Definition G_MININT32 : Z := -2147483648.
Definition G_MAXUINT32 : Z := 4294967295.

(** A [wmem_strbuf_t] is modelled by its content; [buf] is the content
    before the call and the result the content after it. *)
Definition unsigned_time_secs_to_str_buf (time_val : Z) (frac : Z)
    (is_nsecs : bool) (buf : list gchar) : list gchar :=
  let do_comma := false in
  let secs := Z.rem time_val 60 in
  let time_val := Z.quot time_val 60 in
  let mins := Z.rem time_val 60 in
  let time_val := Z.quot time_val 60 in
  let hours := Z.rem time_val 24 in
  let time_val := Z.quot time_val 24 in
  let '(buf, do_comma) :=
    if negb (time_val =? 0)
    then (buf ++ printf_u time_val ++ str " day" ++ PLURALIZE time_val, true)
    else (buf, do_comma) in
  let '(buf, do_comma) :=
    if negb (hours =? 0)
    then (buf ++ COMMA do_comma ++ printf_u hours ++ str " hour" ++ PLURALIZE hours, true)
    else (buf, do_comma) in
  let '(buf, do_comma) :=
    if negb (mins =? 0)
    then (buf ++ COMMA do_comma ++ printf_u mins ++ str " minute" ++ PLURALIZE mins, true)
    else (buf, do_comma) in
  if negb (secs =? 0) || negb (frac =? 0) then
    if negb (frac =? 0) then
      if is_nsecs
      then buf ++ COMMA do_comma ++ printf_u secs ++ str "." ++ printf_0u 9 frac ++ str " seconds"
      else buf ++ COMMA do_comma ++ printf_u secs ++ str "." ++ printf_0u 3 frac ++ str " seconds"
    else buf ++ COMMA do_comma ++ printf_u secs ++ str " second" ++ PLURALIZE secs
  else buf.

Definition signed_time_secs_to_str_buf (time_val : Z) (frac : Z)
    (is_nsecs : bool) (buf : list gchar) : list gchar :=
  if time_val <? 0 then
    let buf := buf ++ str "-" in
    if time_val =? G_MININT32
    then unsigned_time_secs_to_str_buf G_MAXUINT32 frac is_nsecs buf
    else unsigned_time_secs_to_str_buf (to_guint32 (- time_val)) frac is_nsecs buf
  else unsigned_time_secs_to_str_buf (to_guint32 time_val) frac is_nsecs buf.

(** ** Hex encoder: the other widths *)

Definition word_to_hex_punct (st : list gchar * nat) (word : Z) (punct : gchar)
    : outcome (list gchar * nat) :=
  st ← byte_to_hex st (Z.shiftr word 8);
  st ← put punct st;
  byte_to_hex st word.

Definition word_to_hex_npad (st : list gchar * nat) (word : Z)
    : outcome (list gchar * nat) :=
  st ← (if 0x1000 <=? word
        then put (low_nibble_of_octet_to_hex (Z.shiftr word 12)) st else Ok st);
  st ← (if 0x0100 <=? word
        then put (low_nibble_of_octet_to_hex (Z.shiftr word 8)) st else Ok st);
  st ← (if 0x0010 <=? word
        then put (low_nibble_of_octet_to_hex (Z.shiftr word 4)) st else Ok st);
  put (low_nibble_of_octet_to_hex (Z.shiftr word 0)) st.

Definition dword_to_hex_punct (st : list gchar * nat) (dword : Z) (punct : gchar)
    : outcome (list gchar * nat) :=
  st ← word_to_hex_punct st (to_guint16 (Z.shiftr dword 16)) punct;
  st ← put punct st;
  word_to_hex_punct st (to_guint16 dword) punct.

Definition qword_to_hex (st : list gchar * nat) (qword : Z)
    : outcome (list gchar * nat) :=
  st ← dword_to_hex st (to_guint32 (Z.shiftr qword 32));
  dword_to_hex st (to_guint32 (Z.land qword 0xffffffff)).

Definition qword_to_hex_punct (st : list gchar * nat) (qword : Z) (punct : gchar)
    : outcome (list gchar * nat) :=
  st ← dword_to_hex_punct st (to_guint32 (Z.shiftr qword 32)) punct;
  st ← put punct st;
  dword_to_hex_punct st (to_guint32 (Z.land qword 0xffffffff)) punct.

(** ** Backward numeric writer: octal, hex, fixed length, signed *)

(** The loop [while (value)] of [oct_to_str_back] and [oct64_to_str_back]. *)
Fixpoint oct_to_str_back_loop (fuel : nat) (st : list gchar * nat) (value : Z)
    : outcome (list gchar * nat) :=
  if value =? 0 then Ok st
  else
    match fuel with
    | O => OutOfFuel
    | S fuel' =>
        st ← put_back (48 + Z.land value 7) st;
        oct_to_str_back_loop fuel' st (Z.shiftr value 3)
    end.

Definition oct_to_str_back (st : list gchar * nat) (value : Z)
    : outcome (list gchar * nat) :=
  st ← oct_to_str_back_loop loop_fuel st value;
  put_back 48 st.

Definition oct64_to_str_back (st : list gchar * nat) (value : Z)
    : outcome (list gchar * nat) :=
  st ← oct_to_str_back_loop loop_fuel st value;
  put_back 48 st.


(** The loop [while (len > 0) { *(--ptr) = '0'; len--; }]. *)
Definition pad_zeros_back (st : list gchar * nat) (len : Z)
    : outcome (list gchar * nat) :=
  for_loop (Z.to_nat len) O (fun _ st => put_back 48 st) st.



(** [a - b] on an [int]: a result outside the type overflows, which C
    leaves undefined. *)
Definition sub_int (a b : Z) : outcome Z :=
  let r := a - b in
  if (G_MININT32 <=? r) && (r <=? 2147483647) then Ok r else Undefined.

(** [len -= (int)(ptr - new_ptr)] is a subtraction on [int]. *)
Definition uint_to_str_back_len (st : list gchar * nat) (value : Z) (len : Z)
    : outcome (list gchar * nat) :=
  let '(_, ptr) := st in
  '(buf, new_ptr) ← uint_to_str_back st value;
  len ← sub_int len (Z.of_nat ptr - Z.of_nat new_ptr);
  pad_zeros_back (buf, new_ptr) len.

Definition uint64_to_str_back_len (st : list gchar * nat) (value : Z) (len : Z)
    : outcome (list gchar * nat) :=
  let '(_, ptr) := st in
  '(buf, new_ptr) ← uint64_to_str_back st value;
  len ← sub_int len (Z.of_nat ptr - Z.of_nat new_ptr);
  pad_zeros_back (buf, new_ptr) len.

(** [G_MININT64] of GLib. *)
Definition G_MININT64 : Z := -9223372036854775808.

(** [-value] on a signed integer whose least value is [min]: the
    negation of [min] overflows, which C leaves undefined. *)
Definition negate_signed (min : Z) (value : Z) : outcome Z :=
  if value =? min then Undefined else Ok (- value).

Definition int_to_str_back (st : list gchar * nat) (value : Z)
    : outcome (list gchar * nat) :=
  if value <? 0 then
    magnitude ← negate_signed G_MININT32 value;
    st ← uint_to_str_back st (to_guint32 magnitude);
    put_back 45 st
  else uint_to_str_back st (to_guint32 value).

Definition int64_to_str_back (st : list gchar * nat) (value : Z)
    : outcome (list gchar * nat) :=
  if value <? 0 then
    magnitude ← negate_signed G_MININT64 value;
    st ← uint64_to_str_back st (to_guint64 magnitude);
    put_back 45 st
  else uint64_to_str_back st (to_guint64 value).

(** ** Address formatter: IPv4 and the allocating GUID variant *)

(** [WS_INET_ADDRSTRLEN] of [wsutil/inet_addr.h]. *)
Definition WS_INET_ADDRSTRLEN : Z := 16.

(** The copying loop of [ip_to_str_buf], a do-while that stores the
    character under [p], advances [p] and goes on while the character
    then under [p] is not the terminator; [p] is an entry of
    [fast_strings] and [k] the position in it. *)
Fixpoint copy_fast_string (fuel : nat) (p : list gchar) (k : nat)
    (st : list gchar * nat) : outcome (list gchar * nat) :=
  match fuel with
  | O => OutOfFuel
  | S fuel' =>
      c ← load p k;
      st ← put c st;
      c' ← load p (S k);
      if c' =? NUL then Ok st else copy_fast_string fuel' p (S k) st
  end.

Definition ip_to_str_buf (ad : list Z) (buf : list gchar) (buf_len : Z)
    : outcome (list gchar) :=
  if buf_len <? WS_INET_ADDRSTRLEN then
    '(buf, _) ← g_strlcpy buf BUF_TOO_SMALL_ERR (to_gsize buf_len);
    Ok buf
  else
    let st := (buf, O) in
    a0 ← load ad 0;
    p ← load fast_strings (Z.to_nat a0);
    st ← copy_fast_string loop_fuel p 0 st;
    st ← put 46 st;
    a1 ← load ad 1;
    p ← load fast_strings (Z.to_nat a1);
    st ← copy_fast_string loop_fuel p 0 st;
    st ← put 46 st;
    a2 ← load ad 2;
    p ← load fast_strings (Z.to_nat a2);
    st ← copy_fast_string loop_fuel p 0 st;
    st ← put 46 st;
    a3 ← load ad 3;
    p ← load fast_strings (Z.to_nat a3);
    '(buf, b) ← copy_fast_string loop_fuel p 0 st;
    store buf b NUL.

Definition guid_to_str `{Wmem} (scope : wmem_allocator_t) (guid : e_guid_t)
    : outcome (list gchar) :=
  let buf := wmem_alloc scope (Z.to_nat GUID_STR_LEN) in
  guid_to_str_buf guid buf GUID_STR_LEN.

(** ** Relative time in seconds *)

(** The resolutions that [display_signed_time] switches on. *)
Inductive to_str_time_res_t : Set :=
  | TO_STR_TIME_RES_T_SECS
  | TO_STR_TIME_RES_T_DSECS
  | TO_STR_TIME_RES_T_CSECS
  | TO_STR_TIME_RES_T_MSECS
  | TO_STR_TIME_RES_T_USECS
  | TO_STR_TIME_RES_T_NSECS.

(** [#define CHARS_64_BIT_SIGNED 20] and [#define CHARS_NANOSECONDS 10] *)
Definition CHARS_64_BIT_SIGNED : nat := 20.
Definition CHARS_NANOSECONDS : nat := 10.

(** [memcpy (dst + d, src + s, n)] *)
Definition memcpy (dst : list gchar) (d : nat) (src : list gchar) (s : nat) (n : nat)
    : outcome (list gchar) :=
  if (s + n <=? length src)%nat then write_at dst d (take n (drop s src))
  else Undefined.

(** [num_buf] is the local array of [CHARS_64_BIT_SIGNED] bytes, which
    the function does not initialise; [b] is the offset of the moving
    pointer [buf] in the destination. *)
Definition display_signed_time (num_buf : list gchar) (buf : list gchar)
    (buflen : Z) (sec : Z) (frac : Z) (units : to_str_time_res_t)
    : outcome (list gchar) :=
  let num_end := CHARS_64_BIT_SIGNED in
  if buflen <? 1 then Ok buf
  else
    '(frac, buf, b, buflen) ←
      (if frac <? 0 then
         frac ← negate_signed G_MININT32 frac;
         if 0 <=? sec then
           buf ← store buf 0 45;
           Ok (frac, buf, 1%nat, buflen - 1)
         else Ok (frac, buf, 0%nat, buflen)
       else Ok (frac, buf, 0%nat, buflen));
    '(num_buf, num_ptr) ← int64_to_str_back (num_buf, num_end) sec;
    let num_len := Z.min (Z.of_nat (num_end - num_ptr)) buflen in
    buf ← memcpy buf b num_buf num_ptr (Z.to_nat num_len);
    let b := (b + Z.to_nat num_len)%nat in
    let buflen := buflen - num_len in
    num ← match units with
          | TO_STR_TIME_RES_T_SECS => Ok None
          | TO_STR_TIME_RES_T_DSECS =>
              st ← uint_to_str_back_len (num_buf, num_end) (to_guint32 frac) 1;
              Ok (Some st)
          | TO_STR_TIME_RES_T_CSECS =>
              st ← uint_to_str_back_len (num_buf, num_end) (to_guint32 frac) 2;
              Ok (Some st)
          | TO_STR_TIME_RES_T_MSECS =>
              st ← uint_to_str_back_len (num_buf, num_end) (to_guint32 frac) 3;
              Ok (Some st)
          | TO_STR_TIME_RES_T_USECS =>
              st ← uint_to_str_back_len (num_buf, num_end) (to_guint32 frac) 6;
              Ok (Some st)
          | TO_STR_TIME_RES_T_NSECS =>
              st ← uint_to_str_back_len (num_buf, num_end) (to_guint32 frac) 9;
              Ok (Some st)
          end;
    '(buf, b, buflen) ←
      match num with
      | None => Ok (buf, b, buflen)
      | Some st =>
          '(num_buf, num_ptr) ← put_back 46 st;
          let num_len := Z.min (Z.of_nat (num_end - num_ptr)) buflen in
          buf ← memcpy buf b num_buf num_ptr (Z.to_nat num_len);
          Ok (buf, (b + Z.to_nat num_len)%nat, buflen - num_len)
      end;
    b ← (if buflen =? 0
         then match b with O => Undefined | S b' => Ok b' end
         else Ok b);
    store buf b NUL.

(** The fields of [nstime_t] that the formatter reads. *)
Record nstime_t : Set := { secs : Z; nsecs : Z }.

(** [#define REL_TIME_SECS_LEN (CHARS_64_BIT_SIGNED+CHARS_NANOSECONDS+1)] *)
Definition REL_TIME_SECS_LEN : nat := CHARS_64_BIT_SIGNED + CHARS_NANOSECONDS + 1.

Definition rel_time_to_secs_str `{Wmem} (num_buf : list gchar)
    (scope : wmem_allocator_t) (rel_time : nstime_t) : outcome (list gchar) :=
  let buf := wmem_alloc scope REL_TIME_SECS_LEN in
  display_signed_time num_buf buf (Z.of_nat REL_TIME_SECS_LEN)
    (secs rel_time) (nsecs rel_time) TO_STR_TIME_RES_T_NSECS.

(** ** EUI-64 *)

(** The byte order of the host. *)
Inductive byte_order : Set := LittleEndian | BigEndian.

(** The [n] low-order bytes of [v], least significant first. *)
Fixpoint le_bytes (n : nat) (v : Z) : list Z :=
  match n with
  | O => []
  | S n' => v mod 256 :: le_bytes n' (v / 256)
  end.

(** The 8 bytes of a [guint64] object, lowest address first. *)
Definition guint64_object (host : byte_order) (v : Z) : list Z :=
  match host with
  | LittleEndian => le_bytes 8 v
  | BigEndian => rev (le_bytes 8 v)
  end.

(** Modelled from the spec: [pntoh64] of [wsutil/pint.h] reads the 8
    bytes at [p] as a number in network byte order, the most
    significant byte first. *)
Definition pntoh64 (p : list Z) : Z :=
  fold_left (fun acc b => acc * 256 + b) (take 8 p) 0.

(** Modelled from the spec: [EUI64_STR_LEN] of [to_str.h] is the exact
    length of 8 hex pairs with their 7 separators and a terminator. *)
Definition EUI64_STR_LEN : nat := 24.

(** [p_eui64] is the 8-byte block that receives the [guint64] store;
    [host] is the byte order in which objects are laid out. *)
Definition eui64_to_str `{Wmem} (host : byte_order) (scope : wmem_allocator_t)
    (ad : Z) : outcome (list gchar) :=
  let buf := wmem_alloc scope EUI64_STR_LEN in
  let p_eui64 := guint64_object host (pntoh64 (guint64_object host ad)) in
  '(buf, tmp) ← bytes_to_hexstr_punct (buf, O) (Some p_eui64) 8 58;
  store buf tmp NUL.

(** [#define TIME_SECS_LEN (10+1+4+2+2+5+2+2+7+2+2+7+4)] *)
Definition TIME_SECS_LEN : Z := 10+1+4+2+2+5+2+2+7+2+2+7+4.

(** ** Notions used by the proofs *)

(** A forward writer [f] stores exactly [data] at its cursor, whatever
    was there, and leaves the cursor after it. *)
Definition writes (f : list gchar * nat -> outcome (list gchar * nat))
    (data : list gchar) : Prop :=
  forall pre junk suf, length junk = length data ->
    f (pre ++ junk ++ suf, length pre)
    = Ok (pre ++ data ++ suf, (length pre + length data)%nat).

(** A backward writer [f] stores exactly [data] just before its cursor
    and leaves the cursor on the first character of it. *)
Definition writes_back (f : list gchar * nat -> outcome (list gchar * nat))
    (data : list gchar) : Prop :=
  forall pre junk suf, length junk = length data ->
    f (pre ++ junk ++ suf, (length pre + length junk)%nat)
    = Ok (pre ++ data ++ suf, length pre).

(** The [n] low-order decimal digits of [v], most significant first. *)
Fixpoint dec_digit_list (n : nat) (v : Z) : list Z :=
  match n with
  | O => []
  | S n' => dec_digit_list n' (v / 10) ++ [v mod 10]
  end.

Definition dec_digits (n : nat) (v : Z) : list gchar :=
  map (fun d => 48 + d) (dec_digit_list n v).

(** [v] has [n] decimal digits; 0 has none here, which is what the
    loop of the backward writer sees. *)
Definition ndigits (n : nat) (v : Z) : Prop :=
  (v = 0 /\ n = O) \/ (10 ^ (Z.of_nat n - 1) <= v < 10 ^ Z.of_nat n /\ (1 <= n)%nat).

(** [n] is the number of digits of the canonical text of [v]. *)
Definition digit_count_of (n : nat) (v : Z) : Prop :=
  (v = 0 /\ n = 1%nat) \/ (ndigits n v /\ (1 <= n)%nat).

(** A buffer holds a terminator within its first [cap] bytes. *)
Definition null_terminated_within (buf : list gchar) (cap : Z) : Prop :=
  exists i : nat, Z.of_nat i < cap /\ buf !! i = Some NUL.

(** A lowercase hex digit character. *)
Definition hex_digit_char (c : gchar) : Prop := 48 <= c <= 57 \/ 97 <= c <= 102.

(** A call does not end in the fatal report. *)
Definition no_bug {A} (m : outcome A) : Prop :=
  forall msg, m <> DissectorBug msg.

(** The bits of [value] from bit [k] downward, [n] of them. *)
Definition bits_from (value : Z) (k n : nat) : list gchar :=
  map (fun j => if Z.testbit value (Z.of_nat (k - j)) then 49 else 48) (seq 0 n).

(** What the field loop of [decode_bits_in_field] does to the buffer,
    apart from the counters it threads. *)
Fixpoint field_writer (value : Z) (n : nat) (bit mask : Z) (st : list gchar * nat)
    : outcome (list gchar * nat) :=
  match n with
  | O => Ok st
  | S n' =>
      st ← space_every 4 bit st;
      st ← space_every 8 bit st;
      st ← put (if negb (Z.land value mask =? 0) then 49 else 48) st;
      field_writer value n' (bit + 1) (Z.shiftr mask 1) st
  end.

(** The spaces before the symbol of bit [k], for a group size [m]. *)
Definition spaces_before (m k : nat) : list gchar :=
  if negb (k =? 0)%nat && (k mod m =? 0)%nat then [32] else [].

(** A decimal numeral from its digits. *)
Definition digit_cons (d : Z) (u : Decimal.uint) : Decimal.uint :=
  match d with
  | 0 => D0 u | 1 => D1 u | 2 => D2 u | 3 => D3 u | 4 => D4 u
  | 5 => D5 u | 6 => D6 u | 7 => D7 u | 8 => D8 u | _ => D9 u
  end.

Fixpoint lu_digits (n : nat) (v : Z) : Decimal.uint :=
  match n with
  | O => Decimal.Nil
  | S n' => digit_cons (v mod 10) (lu_digits n' (v / 10))
  end.

(** The test instance of the allocator: blocks filled with ['X']. *)
Definition test_wmem : Wmem :=
  {| wmem_allocator_t := unit;
     wmem_alloc := fun _ n => replicate n 88;
     wmem_alloc_length := fun _ n => length_replicate n 88 |}.

(** A stand-in for the system converter on the loopback address. *)
Definition test_ntop : InetNtop :=
  {| ws_inet_ntop6 := fun _ => str "::1" |}.

(** The check of one entry of [fast_strings] that the backward writers
    read: entry [100 + k] holds the two digits of [k]. *)
Definition fast_pair_ok (k : nat) : bool :=
  match fast_strings !! (100 + k)%nat with
  | Some p =>
      match p !! 2%nat, p !! 1%nat with
      | Some c2, Some c1 =>
          (c2 =? 48 + Z.of_nat k mod 10) && (c1 =? 48 + Z.of_nat k / 10)
      | _, _ => false
      end
  | None => false
  end.

(** ** Further reference renderings *)

(** The [n] low-order octal digits of [v], most significant first. *)
Fixpoint oct_text (n : nat) (v : Z) : list gchar :=
  match n with
  | O => []
  | S n' => oct_text n' (v / 8) ++ [48 + v mod 8]
  end.

(** The value of a digit character, decimal or lowercase hex. *)
Definition digit_value (c : gchar) : option Z :=
  if (48 <=? c) && (c <=? 57) then Some (c - 48)
  else if (97 <=? c) && (c <=? 102) then Some (c - 87)
  else None.

(** Reading a numeral in base [b], most significant digit first. *)
Fixpoint parse_radix (b : Z) (acc : Z) (s : list gchar) : option Z :=
  match s with
  | [] => Some acc
  | c :: rest =>
      match digit_value c with
      | Some d => if d <? b then parse_radix b (b * acc + d) rest else None
      | None => None
      end
  end.

Definition parse_hex (s : list gchar) : option Z := parse_radix 16 0 s.
Definition parse_oct (s : list gchar) : option Z := parse_radix 8 0 s.

(** Reading an unpunctuated hex dump back into bytes. *)
Fixpoint hex_undump (s : list gchar) : option (list Z) :=
  match s with
  | [] => Some []
  | hi :: lo :: rest =>
      match parse_hex [hi; lo], hex_undump rest with
      | Some b, Some bs => Some (b :: bs)
      | _, _ => None
      end
  | _ => None
  end.

(** Two hex digits per byte, [punct] between the bytes. *)
Definition hex_dump_punct (punct : gchar) (bytes : list Z) : list gchar :=
  match bytes with
  | [] => []
  | b :: rest => hex_text 2 b ++ concat (map (fun b => punct :: hex_text 2 b) rest)
  end.

(** The [n] low-order bytes of [v], most significant first. *)
Fixpoint be_bytes (n : nat) (v : Z) : list Z :=
  match n with
  | O => []
  | S n' => be_bytes n' (v / 256) ++ [v mod 256]
  end.

(** [v] has [n] digits in base [b]; 0 has none. *)
Definition radix_count (b : Z) (n : nat) (v : Z) : Prop :=
  (v = 0 /\ n = O) \/ (b ^ (Z.of_nat n - 1) <= v < b ^ Z.of_nat n /\ (1 <= n)%nat).

(** The canonical text of a signed integer: the standard library's
    printer of signed decimal numerals. *)
Definition signed_decimal_text (v : Z) : list gchar :=
  str (NilZero.string_of_int (Z.to_int v)).

(** The dotted-decimal text of four address bytes. *)
Definition ipv4_text (a0 a1 a2 a3 : Z) : list gchar :=
  decimal_text a0 ++ str "." ++ decimal_text a1 ++ str "." ++
  decimal_text a2 ++ str "." ++ decimal_text a3.

(** The check of one entry of [fast_strings]: four bytes that hold the
    canonical decimal text of the index and a terminator. *)
Definition fast_entry_ok (i : nat) : bool :=
  match fast_strings !! i with
  | Some p =>
      (length p =? 4)%nat
      && bool_decide (c_str p = Some (decimal_text (Z.of_nat i)))
  | None => false
  end.

(** The number of fraction digits of a resolution, none for seconds. *)
Definition frac_digits (units : to_str_time_res_t) : option nat :=
  match units with
  | TO_STR_TIME_RES_T_SECS => None
  | TO_STR_TIME_RES_T_DSECS => Some 1%nat
  | TO_STR_TIME_RES_T_CSECS => Some 2%nat
  | TO_STR_TIME_RES_T_MSECS => Some 3%nat
  | TO_STR_TIME_RES_T_USECS => Some 6%nat
  | TO_STR_TIME_RES_T_NSECS => Some 9%nat
  end.

(** The text of a relative time in seconds: the sign of a negative
    fraction when the seconds carry none, the seconds, and the
    magnitude of the fraction at the width of the resolution. *)
Definition signed_time_text (sec frac : Z) (units : to_str_time_res_t)
    : list gchar :=
  (if (frac <? 0) && (0 <=? sec) then str "-" else [])
  ++ signed_decimal_text sec
  ++ match frac_digits units with
     | None => []
     | Some w => str "." ++ printf_0u w (Z.abs frac)
     end.

(** A character of the text of a GUID. *)
Definition hex_digit_char_or_hyphen (c : gchar) : Prop :=
  hex_digit_char c \/ c = 45.

(** * Properties *)

(** [lia] also decides goals with division and remainder by constants. *)
Ltac Zify.zify_post_hook ::= Z.div_mod_to_equations.

(** ** Outcomes, buffers and cursors *)

Lemma bind_Ok {A B} (a : A) (k : A -> outcome B) : (Ok a ≫= k) = k a.
Proof. reflexivity. Qed.

Lemma load_Some {A} (a : list A) i x : a !! i = Some x -> load a i = Ok x.
Proof. intros E. unfold load. now rewrite E. Qed.

Lemma store_middle pre x suf c :
  store (pre ++ x :: suf) (length pre) c = Ok (pre ++ c :: suf).
Proof.
  unfold store.
  assert (Hlt : (length pre <? length (pre ++ x :: suf))%nat = true).
  { apply Nat.ltb_lt. rewrite length_app. simpl. lia. }
  rewrite Hlt. f_equal.
  rewrite insert_app_r_alt by lia.
  now rewrite Nat.sub_diag.
Qed.

Lemma writes_put c : writes (put c) [c].
Proof.
  intros pre junk suf Hlen.
  destruct junk as [|x [|y junk]]; simpl in Hlen; try discriminate.
  unfold put. simpl. rewrite store_middle. simpl.
  f_equal. f_equal. lia.
Qed.

Lemma writes_nil : writes (fun st => Ok st) [].
Proof.
  intros pre junk suf Hlen.
  destruct junk; simpl in Hlen; try discriminate.
  simpl. f_equal. f_equal. lia.
Qed.

Lemma writes_seq f g d1 d2 :
  writes f d1 -> writes g d2 ->
  writes (fun st => st' ← f st; g st') (d1 ++ d2).
Proof.
  intros Hf Hg pre junk suf Hlen.
  rewrite length_app in Hlen.
  rewrite <- (take_drop (length d1) junk).
  rewrite <- (app_assoc (take _ junk)).
  rewrite Hf by (rewrite length_take; lia).
  rewrite bind_Ok.
  replace (pre ++ d1 ++ drop (length d1) junk ++ suf)
    with ((pre ++ d1) ++ drop (length d1) junk ++ suf)
    by now rewrite <- app_assoc.
  replace (length pre + length d1)%nat with (length (pre ++ d1))
    by now rewrite length_app.
  rewrite Hg by (rewrite length_drop; lia).
  rewrite !length_app, <- !app_assoc.
  f_equal. f_equal. lia.
Qed.

Lemma writes_ext f g d : (forall st, f st = g st) -> writes f d -> writes g d.
Proof. intros E Hf pre junk suf Hlen. rewrite <- E. now apply Hf. Qed.

Lemma writes_back_put c : writes_back (put_back c) [c].
Proof.
  intros pre junk suf Hlen.
  destruct junk as [|x [|y junk]]; simpl in Hlen; try discriminate.
  unfold put_back. simpl. rewrite Nat.add_1_r.
  now rewrite store_middle.
Qed.

Lemma writes_back_nil : writes_back (fun st => Ok st) [].
Proof.
  intros pre junk suf Hlen.
  destruct junk; simpl in Hlen; try discriminate.
  simpl. f_equal. f_equal. lia.
Qed.

Lemma writes_back_seq f g d1 d2 :
  writes_back f d1 -> writes_back g d2 ->
  writes_back (fun st => st' ← f st; g st') (d2 ++ d1).
Proof.
  intros Hf Hg pre junk suf Hlen.
  rewrite length_app in Hlen.
  rewrite <- (take_drop (length d2) junk).
  pose proof (length_take junk (length d2)) as Ht.
  pose proof (length_drop junk (length d2)) as Hd.
  replace (pre ++ (take (length d2) junk ++ drop (length d2) junk) ++ suf)
    with ((pre ++ take (length d2) junk) ++ drop (length d2) junk ++ suf)
    by now rewrite <- !app_assoc.
  replace (length pre + length (take (length d2) junk ++ drop (length d2) junk))%nat
    with (length (pre ++ take (length d2) junk) + length (drop (length d2) junk))%nat
    by (rewrite !length_app; lia).
  rewrite Hf by lia.
  rewrite bind_Ok, <- app_assoc, length_app.
  rewrite Hg by lia.
  now rewrite <- app_assoc.
Qed.

Lemma writes_back_ext f g d :
  (forall st, f st = g st) -> writes_back f d -> writes_back g d.
Proof. intros E Hf pre junk suf Hlen. rewrite <- E. now apply Hf. Qed.

(** A backward writer on an arbitrary buffer with enough room before
    the cursor. *)
Lemma writes_back_at f data buf p :
  writes_back f data ->
  (length data <= p)%nat -> (p <= length buf)%nat ->
  f (buf, p) = Ok (take (p - length data) buf ++ data ++ drop p buf,
                   (p - length data)%nat).
Proof.
  intros Hf Hp Hb.
  set (n := length data) in *.
  set (pre := take (p - n) buf).
  set (junk := take n (drop (p - n) buf)).
  assert (L1 : length pre = (p - n)%nat) by (unfold pre; rewrite length_take; lia).
  assert (L2 : length junk = n)
    by (unfold junk; rewrite length_take, length_drop; lia).
  assert (E1 : buf = pre ++ junk ++ drop p buf).
  { unfold pre, junk. rewrite app_assoc, take_take_drop.
    replace (p - n + n)%nat with p by lia.
    now rewrite take_drop. }
  transitivity (f (pre ++ junk ++ drop p buf, (length pre + length junk)%nat)).
  { f_equal. f_equal; [exact E1 | lia]. }
  rewrite Hf by exact L2.
  now rewrite L1.
Qed.

(** A forward writer on an arbitrary buffer with enough room after the
    cursor. *)
Lemma writes_at f data buf p :
  writes f data ->
  (p + length data <= length buf)%nat ->
  f (buf, p) = Ok (take p buf ++ data ++ drop (p + length data) buf,
                   (p + length data)%nat).
Proof.
  intros Hf Hb.
  set (n := length data) in *.
  set (pre := take p buf).
  set (junk := take n (drop p buf)).
  assert (L1 : length pre = p) by (unfold pre; rewrite length_take; lia).
  assert (L2 : length junk = n)
    by (unfold junk; rewrite length_take, length_drop; lia).
  assert (E1 : buf = pre ++ junk ++ drop (p + n) buf).
  { unfold pre, junk. rewrite app_assoc, take_take_drop.
    now rewrite take_drop. }
  transitivity (f (pre ++ junk ++ drop (p + n) buf, length pre)).
  { f_equal. f_equal; [exact E1 | lia]. }
  rewrite Hf by exact L2.
  now rewrite L1.
Qed.

Lemma bind_assoc {A B C} (m : outcome A) (f : A -> outcome B) (g : B -> outcome C) :
  ((m ≫= f) ≫= g) = (m ≫= fun a => f a ≫= g).
Proof. now destruct m. Qed.

(** ** The backward decimal writer *)

Lemma fast_strings_pair k :
  0 <= k < 100 ->
  exists p, fast_strings !! Z.to_nat (100 + k) = Some p
            /\ p !! 2%nat = Some (48 + k mod 10)
            /\ p !! 1%nat = Some (48 + k / 10).
Proof.
  intros Hk.
  assert (Hall : forallb fast_pair_ok (seq 0 100) = true) by (vm_compute; reflexivity).
  rewrite forallb_forall in Hall.
  specialize (Hall (Z.to_nat k)).
  assert (Hin : In (Z.to_nat k) (seq 0 100)) by (apply in_seq; lia).
  specialize (Hall Hin).
  unfold fast_pair_ok in Hall.
  replace (Z.to_nat (100 + k)) with (100 + Z.to_nat k)%nat by lia.
  destruct (fast_strings !! (100 + Z.to_nat k)%nat) as [p|]; [|discriminate].
  exists p. split; [reflexivity|].
  destruct (p !! 2%nat) as [c2|]; [|discriminate].
  destruct (p !! 1%nat) as [c1|]; [|discriminate].
  rewrite Z2Nat.id in Hall by lia.
  apply andb_prop in Hall as [H2 H1].
  apply Z.eqb_eq in H2, H1. now subst.
Qed.

Lemma uint_to_str_back_loop_done fuel st v :
  v < 10 -> uint_to_str_back_loop fuel st v = Ok (st, v).
Proof.
  intros Hv. assert (E : (10 <=? v) = false) by (apply Z.leb_gt; lia).
  destruct fuel; simpl; now rewrite E.
Qed.

Lemma uint_to_str_back_loop_step fuel st v :
  0 <= v -> 10 <= v ->
  uint_to_str_back_loop (S fuel) st v
  = (st ← put_back (48 + v mod 10) st;
     st ← put_back (48 + (v / 10) mod 10) st;
     uint_to_str_back_loop fuel st (v / 100)).
Proof.
  intros H0 Hv. assert (E : (10 <=? v) = true) by (apply Z.leb_le; lia).
  simpl. rewrite E.
  destruct (fast_strings_pair (v mod 100)) as (p & Hp & H2 & H1); [lia|].
  rewrite (load_Some _ _ _ Hp), bind_Ok.
  rewrite (load_Some _ _ _ H2), bind_Ok.
  replace (48 + (v mod 100) mod 10) with (48 + v mod 10) by lia.
  destruct (put_back _ st) as [st1| | |]; try reflexivity.
  rewrite !bind_Ok.
  rewrite (load_Some _ _ _ H1), bind_Ok.
  replace (48 + (v mod 100) / 10) with (48 + (v / 10) mod 10) by lia.
  reflexivity.
Qed.

Lemma ndigits_nonneg n v : ndigits n v -> 0 <= v.
Proof.
  intros [[-> _]|[[H _] _]]; [lia|].
  pose proof (Z.pow_nonneg 10 (Z.of_nat n - 1)). lia.
Qed.

Lemma ndigits_small n v : ndigits n v -> v < 10 -> (n <= 1)%nat.
Proof.
  intros [[_ ->]|[[H _] Hn]] Hv; [lia|].
  destruct n as [|[|n]]; [lia|lia|].
  exfalso.
  assert (10 ^ 1 <= 10 ^ (Z.of_nat (S (S n)) - 1)) by (apply Z.pow_le_mono_r; lia).
  change (10 ^ 1) with 10 in *. lia.
Qed.

Lemma ndigits_div100 n v :
  ndigits n v -> 10 <= v ->
  exists m, n = S (S m) /\ ndigits m (v / 100).
Proof.
  intros [[-> _]|[[Hlo Hhi] Hn]] Hv; [lia|].
  destruct n as [|[|m]]; [lia| |].
  { change (10 ^ Z.of_nat 1) with 10 in Hhi. lia. }
  exists m. split; [reflexivity|].
  replace (Z.of_nat (S (S m)) - 1) with (Z.of_nat m + 1) in Hlo by lia.
  replace (Z.of_nat (S (S m))) with (Z.of_nat m + 2) in Hhi by lia.
  rewrite Z.pow_add_r in Hlo, Hhi by lia.
  change (10 ^ 1) with 10 in Hlo. change (10 ^ 2) with 100 in Hhi.
  destruct m as [|m'].
  - left. simpl in Hhi. split; [|reflexivity].
    apply Z.div_small. lia.
  - right. split; [|lia].
    replace (Z.of_nat (S m') - 1) with (Z.of_nat m') by lia.
    replace (Z.of_nat (S m')) with (Z.of_nat m' + 1) in * by lia.
    rewrite Z.pow_add_r in * by lia. change (10 ^ 1) with 10 in *.
    pose proof (Z.pow_pos_nonneg 10 (Z.of_nat m') ltac:(lia) ltac:(lia)) as Hpos.
    split.
    + apply Z.div_le_lower_bound; lia.
    + apply Z.div_lt_upper_bound; lia.
Qed.

Lemma dec_digits_SS m v :
  dec_digits (S (S m)) v
  = dec_digits m (v / 100) ++ [48 + (v / 10) mod 10] ++ [48 + v mod 10].
Proof.
  unfold dec_digits. simpl.
  rewrite !map_app. simpl.
  rewrite Z.div_div by lia. change (10 * 10) with 100.
  now rewrite <- app_assoc.
Qed.

Lemma length_dec_digits n v : length (dec_digits n v) = n.
Proof.
  unfold dec_digits. rewrite length_map. revert v.
  induction n as [|n IH]; intros v; [reflexivity|].
  simpl. rewrite length_app, IH. simpl. lia.
Qed.

(** The loop and the last digit, for either width; [fin] is how the
    last digit is turned into a character. *)
Lemma uint_to_str_back_tail_writes (fin : Z -> gchar) fuel :
  (forall d, 1 <= d <= 9 -> fin d = 48 + d) ->
  forall n v, ndigits n v -> (n <= 2 * fuel + 1)%nat ->
  writes_back
    (fun st => '(st, value) ← uint_to_str_back_loop fuel st v;
               if value =? 0 then Ok st else put_back (fin value) st)
    (dec_digits n v).
Proof.
  intros Hfin. induction fuel as [|fuel IH]; intros n v Hn Hfuel.
  - assert (Hv : v < 10).
    { destruct Hn as [[-> _]|[[_ Hhi] Hn1]]; [lia|].
      replace n with 1%nat in Hhi by lia. exact Hhi. }
    pose proof (ndigits_nonneg _ _ Hn) as H0.
    eapply writes_back_ext.
    { intros st. rewrite uint_to_str_back_loop_done by exact Hv. reflexivity. }
    simpl. destruct Hn as [[-> ->]|[[Hlo _] Hn1]].
    + apply writes_back_nil.
    + replace n with 1%nat in * by lia. change (10 ^ (Z.of_nat 1 - 1)) with 1 in Hlo.
      assert (E : (v =? 0) = false) by (apply Z.eqb_neq; lia). rewrite E.
      rewrite Hfin by lia. unfold dec_digits. simpl.
      replace (v mod 10) with v by (symmetry; apply Z.mod_small; lia).
      apply writes_back_put.
  - pose proof (ndigits_nonneg _ _ Hn) as H0.
    destruct (Z_lt_le_dec v 10) as [Hv|Hv].
    + assert (Hn1 : (n <= 2 * fuel + 1)%nat).
      { pose proof (ndigits_small _ _ Hn Hv). lia. }
      eapply writes_back_ext; [|exact (IH n v Hn Hn1)].
      intros st. now rewrite !uint_to_str_back_loop_done by exact Hv.
    + destruct (ndigits_div100 _ _ Hn Hv) as (m & -> & Hm).
      rewrite dec_digits_SS.
      pose (K := fun x : list Z * nat * Z =>
                   let '(st0, value) := x in
                   if value =? 0 then Ok st0 else put_back (fin value) st0).
      apply (writes_back_ext
               (fun st => st0 ← put_back (48 + v mod 10) st;
                  (fun st0 => (st1 ← put_back (48 + (v / 10) mod 10) st0;
                               uint_to_str_back_loop fuel st1 (v / 100)) ≫= K) st0)).
      { intros st. rewrite uint_to_str_back_loop_step by lia.
        rewrite bind_assoc. reflexivity. }
      rewrite app_assoc.
      apply writes_back_seq; [apply writes_back_put|].
      apply (writes_back_ext
               (fun st0 => st1 ← put_back (48 + (v / 10) mod 10) st0;
                  (fun st1 => uint_to_str_back_loop fuel st1 (v / 100) ≫= K) st1)).
      { intros st. rewrite bind_assoc. reflexivity. }
      apply writes_back_seq; [apply writes_back_put|].
      apply (IH m (v / 100) Hm). lia.
Qed.

Lemma lor_digit d : 1 <= d <= 9 -> Z.lor d 48 = 48 + d.
Proof.
  intros H.
  assert (E : d = 1 \/ d = 2 \/ d = 3 \/ d = 4 \/ d = 5 \/ d = 6 \/ d = 7
              \/ d = 8 \/ d = 9) by lia.
  intuition subst; reflexivity.
Qed.

Lemma lor_land_digit d : 1 <= d <= 9 -> Z.lor (Z.land d 15) 48 = 48 + d.
Proof.
  intros H.
  assert (E : d = 1 \/ d = 2 \/ d = 3 \/ d = 4 \/ d = 5 \/ d = 6 \/ d = 7
              \/ d = 8 \/ d = 9) by lia.
  intuition subst; reflexivity.
Qed.

Lemma uint_back_writes_gen (fin : Z -> gchar) n v :
  (forall d, 1 <= d <= 9 -> fin d = 48 + d) ->
  digit_count_of n v -> (n <= 2 * loop_fuel + 1)%nat ->
  writes_back
    (fun st => st ← (if v =? 0 then put_back 48 st else Ok st);
               '(st, value) ← uint_to_str_back_loop loop_fuel st v;
               if value =? 0 then Ok st else put_back (fin value) st)
    (dec_digits n v).
Proof.
  intros Hfin [[-> ->]|[Hn Hn1]] Hfuel.
  - apply (writes_back_ext (put_back 48)); [|apply writes_back_put].
    intros st. simpl. destruct (put_back 48 st); reflexivity.
  - assert (E : (v =? 0) = false).
    { apply Z.eqb_neq. intros ->. destruct Hn as [[_ ->]|[[Hlo _] _]]; [lia|].
      pose proof (Z.pow_pos_nonneg 10 (Z.of_nat n - 1)). lia. }
    rewrite E.
    eapply writes_back_ext; [|exact (uint_to_str_back_tail_writes fin loop_fuel Hfin n v Hn Hfuel)].
    intros st. reflexivity.
Qed.

Lemma uint_to_str_back_writes n v :
  digit_count_of n v -> (n <= 2 * loop_fuel + 1)%nat ->
  writes_back (fun st => uint_to_str_back st v) (dec_digits n v).
Proof.
  intros.
  apply (uint_back_writes_gen (fun d => Z.lor d 48)); [apply lor_digit | assumption..].
Qed.

Lemma uint64_to_str_back_writes n v :
  digit_count_of n v -> (n <= 2 * loop_fuel + 1)%nat ->
  writes_back (fun st => uint64_to_str_back st v) (dec_digits n v).
Proof.
  intros.
  apply (uint_back_writes_gen (fun d => Z.lor (Z.land d 15) 48));
    [apply lor_land_digit | assumption..].
Qed.

(** ** The digit counts *)

(** One branch of a threshold cascade: the count and the powers of ten
    are evaluated, the rest is linear arithmetic. *)
Ltac count_case :=
  unfold digit_count_of, ndigits;
  repeat match goal with
         | |- context [Z.to_nat ?k] =>
             let r := eval vm_compute in (Z.to_nat k) in
             change (Z.to_nat k) with r
         end;
  repeat match goal with
         | |- context [10 ^ ?e] =>
             let r := eval vm_compute in (10 ^ e) in
             change (10 ^ e) with r
         end;
  lia.

Lemma guint32_to_str_buf_len_count u :
  0 <= u < 4294967296 ->
  digit_count_of (Z.to_nat (guint32_to_str_buf_len u)) u.
Proof.
  intros Hu. unfold guint32_to_str_buf_len.
  repeat (match goal with
          | |- context [?a <=? ?b] => destruct (Z.leb_spec a b)
          end);
  count_case.
Qed.

Lemma guint64_to_str_buf_len_count u :
  0 <= u < 18446744073709551616 ->
  digit_count_of (Z.to_nat (guint64_to_str_buf_len u)) u.
Proof.
  intros Hu. unfold guint64_to_str_buf_len.
  repeat (match goal with
          | |- context [?a <=? ?b] => destruct (Z.leb_spec a b)
          end);
  count_case.
Qed.

Lemma guint32_to_str_buf_len_range u : 1 <= guint32_to_str_buf_len u <= 10.
Proof.
  unfold guint32_to_str_buf_len.
  repeat (match goal with
          | |- context [?a <=? ?b] => destruct (a <=? b)
          end); lia.
Qed.

Lemma guint64_to_str_buf_len_range u : 1 <= guint64_to_str_buf_len u <= 20.
Proof.
  unfold guint64_to_str_buf_len.
  repeat (match goal with
          | |- context [?a <=? ?b] => destruct (a <=? b)
          end); lia.
Qed.

(** ** The written digits are the canonical decimal text *)

Ltac digit_cases d :=
  let E := fresh "E" in
  assert (E : d = 0 \/ d = 1 \/ d = 2 \/ d = 3 \/ d = 4 \/ d = 5 \/ d = 6
              \/ d = 7 \/ d = 8 \/ d = 9) by lia;
  destruct E as [E|[E|[E|[E|[E|[E|[E|[E|[E|E]]]]]]]]]; subst d.

Lemma of_lu_digit_cons d u :
  0 <= d <= 9 ->
  Z.of_N (DecimalPos.Unsigned.of_lu (digit_cons d u))
  = d + 10 * Z.of_N (DecimalPos.Unsigned.of_lu u).
Proof.
  intros Hd. digit_cases d; cbn [digit_cons DecimalPos.Unsigned.of_lu]; lia.
Qed.

Lemma of_lu_lu_digits n v :
  0 <= v ->
  Z.of_N (DecimalPos.Unsigned.of_lu (lu_digits n v)) = v mod 10 ^ Z.of_nat n.
Proof.
  revert v. induction n as [|n IH]; intros v Hv.
  - simpl. now rewrite Z.mod_1_r.
  - cbn [lu_digits]. rewrite of_lu_digit_cons by lia.
    rewrite IH by lia.
    replace (Z.of_nat (S n)) with (1 + Z.of_nat n) by lia.
    rewrite Z.pow_add_r by lia. change (10 ^ 1) with 10.
    pose proof (Z.pow_pos_nonneg 10 (Z.of_nat n) ltac:(lia) ltac:(lia)).
    rewrite Z.rem_mul_r by lia. reflexivity.
Qed.

Lemma revapp_digit_cons d u acc :
  0 <= d <= 9 ->
  Decimal.revapp (digit_cons d u) acc = Decimal.revapp u (digit_cons d acc).
Proof. intros Hd. digit_cases d; reflexivity. Qed.

Lemma dec_digit_list_range n v : Forall (fun d => 0 <= d <= 9) (dec_digit_list n v).
Proof.
  revert v. induction n as [|n IH]; intros v; simpl.
  - constructor.
  - apply Forall_app. split; [apply IH|]. repeat constructor; lia.
Qed.

Lemma revapp_lu_digits n v acc :
  Decimal.revapp (lu_digits n v) acc
  = fold_right digit_cons acc (dec_digit_list n v).
Proof.
  revert v acc. induction n as [|n IH]; intros v acc; [reflexivity|].
  cbn [lu_digits dec_digit_list].
  rewrite revapp_digit_cons by lia.
  rewrite IH, fold_right_app. reflexivity.
Qed.

Lemma unorm_leading d ds :
  1 <= d <= 9 ->
  Decimal.unorm (fold_right digit_cons Decimal.Nil (d :: ds))
  = fold_right digit_cons Decimal.Nil (d :: ds).
Proof. intros Hd. digit_cases d; try lia; reflexivity. Qed.

Lemma dec_digit_list_leading n v :
  ndigits n v -> (1 <= n)%nat ->
  exists d ds, dec_digit_list n v = d :: ds /\ 1 <= d <= 9.
Proof.
  revert v. induction n as [|[|m] IH]; intros v Hn Hn1; [lia| |].
  - destruct Hn as [[_ ?]|[[Hlo Hhi] _]]; [lia|].
    change (10 ^ (Z.of_nat 1 - 1)) with 1 in Hlo.
    change (10 ^ Z.of_nat 1) with 10 in Hhi.
    exists (v mod 10), []. split; [reflexivity|lia].
  - destruct Hn as [[_ ?]|[[Hlo Hhi] _]]; [lia|].
    replace (Z.of_nat (S (S m)) - 1) with (1 + Z.of_nat m) in Hlo by lia.
    replace (Z.of_nat (S (S m))) with (1 + Z.of_nat (S m)) in Hhi by lia.
    rewrite Z.pow_add_r in Hlo, Hhi by lia.
    change (10 ^ 1) with 10 in *.
    destruct (IH (v / 10)) as (d & ds & E & Hd); [|lia|].
    { right. split; [|lia].
      replace (Z.of_nat (S m) - 1) with (Z.of_nat m) by lia.
      split.
      - apply Z.div_le_lower_bound; lia.
      - apply Z.div_lt_upper_bound; lia. }
    exists d, (ds ++ [v mod 10]). split; [|exact Hd].
    change (dec_digit_list (S (S m)) v)
      with (dec_digit_list (S m) (v / 10) ++ [v mod 10]).
    now rewrite E.
Qed.

Lemma string_of_digits ds :
  Forall (fun d => 0 <= d <= 9) ds ->
  str (NilEmpty.string_of_uint (fold_right digit_cons Decimal.Nil ds))
  = map (fun d => 48 + d) ds.
Proof.
  induction 1 as [|d ds Hd _ IH]; [reflexivity|].
  cbn [fold_right map]. rewrite <- IH.
  digit_cases d; reflexivity.
Qed.

Lemma dec_digits_canonical n v :
  digit_count_of n v -> dec_digits n v = decimal_text v.
Proof.
  intros [[-> ->]|[Hn Hn1]]; [reflexivity|].
  pose proof (ndigits_nonneg _ _ Hn) as H0.
  destruct (dec_digit_list_leading n v Hn Hn1) as (d & ds & E & Hd).
  set (D := fold_right digit_cons Decimal.Nil (dec_digit_list n v)).
  assert (HD : N.to_uint (Z.to_N v) = D).
  { assert (Eof : N.of_uint D = Z.to_N v).
    { unfold D. rewrite <- revapp_lu_digits.
      change (Decimal.revapp (lu_digits n v) Decimal.Nil)
        with (Decimal.rev (lu_digits n v)).
      unfold N.of_uint. rewrite DecimalPos.Unsigned.of_lu_rev.
      apply N2Z.inj. rewrite of_lu_lu_digits by exact H0.
      rewrite Z2N.id by exact H0.
      destruct Hn as [[? ?]|[[_ Hhi] _]]; [lia|].
      apply Z.mod_small. lia. }
    rewrite <- Eof, DecimalN.Unsigned.to_of.
    unfold D. rewrite E. now apply unorm_leading. }
  unfold decimal_text, dec_digits. rewrite HD.
  rewrite <- string_of_digits by apply dec_digit_list_range.
  fold D. unfold D. rewrite E.
  digit_cases d; try lia; reflexivity.
Qed.

Lemma length_decimal_text n v :
  digit_count_of n v -> length (decimal_text v) = n.
Proof. intros H. rewrite <- (dec_digits_canonical n v H). apply length_dec_digits. Qed.

Lemma unstr_str s : unstr (str s) = s.
Proof.
  unfold unstr, str. rewrite map_map.
  rewrite <- (string_of_list_ascii_of_string s) at 2.
  f_equal. rewrite <- (map_id (list_ascii_of_string s)) at 2.
  apply map_ext. intros a. now rewrite N2Z.id, ascii_N_embedding.
Qed.

(** Reading the canonical text of a natural number gives it back. *)
Lemma parse_decimal_text v : 0 <= v -> parse_decimal (decimal_text v) = Some v.
Proof.
  intros Hv. unfold parse_decimal, decimal_text.
  rewrite unstr_str, NilZero.usu.
  - now rewrite DecimalN.Unsigned.of_to, Z2N.id.
  - destruct (Z.to_N v); [discriminate|].
    apply DecimalPos.Unsigned.to_uint_nonnil.
Qed.

(** ** Bounded copies *)

Lemma write_at_0 buf data :
  (length data <= length buf)%nat ->
  write_at buf 0 data = Ok (data ++ drop (length data) buf).
Proof.
  intros H. unfold write_at. simpl.
  assert (E : (length data <=? length buf)%nat = true) by now apply Nat.leb_le.
  now rewrite E.
Qed.

Lemma length_truncated_to cap src :
  length (truncated_to cap src) = Nat.min cap (S (length src)).
Proof.
  destruct cap as [|k]; [reflexivity|].
  simpl. rewrite length_app, length_take. simpl. lia.
Qed.

(** A bounded copy into a buffer that has the declared capacity. *)
Lemma g_strlcpy_truncates buf src cap :
  0 <= cap < 18446744073709551616 ->
  cap <= Z.of_nat (length buf) ->
  g_strlcpy buf src (to_gsize cap)
  = Ok (truncated_to (Z.to_nat cap) src
          ++ drop (length (truncated_to (Z.to_nat cap) src)) buf,
        Z.of_nat (length src)).
Proof.
  intros Hc Hb. unfold g_strlcpy, to_gsize.
  rewrite Z.mod_small by lia.
  destruct (Z.eqb_spec cap 0) as [->|Hne]; [reflexivity|].
  destruct (Z.to_nat cap) as [|k] eqn:Ek; [lia|].
  replace (Z.to_nat (Z.min (Z.of_nat (length src)) (cap - 1)))
    with (Nat.min (length src) k) by lia.
  cbn [truncated_to].
  assert (Et : take (length src `min` k) src = take k src).
  { destruct (Nat.le_gt_cases (length src) k).
    - rewrite Nat.min_l by lia. now rewrite !take_ge by lia.
    - now rewrite Nat.min_r by lia. }
  rewrite Et, write_at_0.
  - rewrite <- app_assoc. reflexivity.
  - rewrite length_app, length_take. simpl. lia.
Qed.

Lemma truncated_to_terminated cap src rest :
  1 <= cap ->
  null_terminated_within (truncated_to (Z.to_nat cap) src ++ rest) cap.
Proof.
  intros Hc. destruct (Z.to_nat cap) as [|k] eqn:Ek; [lia|].
  exists (length (take k src)). split.
  - rewrite length_take. lia.
  - cbn [truncated_to]. rewrite <- app_assoc. now apply list_lookup_middle.
Qed.

(** ** The bounded decimal formatters *)

(** The path taken when the capacity suffices, for either width. *)
Lemma str_buf_fits (f : list gchar * nat -> outcome (list gchar * nat)) digits buf :
  writes_back f digits ->
  (length digits + 1 <= length buf)%nat ->
  (st ← put_back NUL (buf, (length digits + 1)%nat);
   '(buf, _) ← f st; Ok buf)
  = Ok (digits ++ [NUL] ++ drop (length digits + 1) buf).
Proof.
  intros Hf Hb.
  rewrite (writes_back_at (put_back NUL) [NUL]) by (try apply writes_back_put; simpl; lia).
  rewrite bind_Ok. simpl length.
  replace (length digits + 1 - 1)%nat with (length digits) by lia.
  rewrite (writes_back_at f digits); [|exact Hf|lia|].
  2:{ rewrite length_app, length_take. simpl. lia. }
  rewrite bind_Ok, Nat.sub_diag, take_0. simpl.
  f_equal. f_equal.
  rewrite drop_app_length'; [reflexivity|].
  rewrite length_take. lia.
Qed.

Lemma guint32_to_str_buf_fits u buf buf_len :
  0 <= u < 4294967296 ->
  guint32_to_str_buf_len u + 1 <= buf_len <= Z.of_nat (length buf) ->
  guint32_to_str_buf u buf buf_len
  = Ok (decimal_text u ++ [NUL]
          ++ drop (Z.to_nat (guint32_to_str_buf_len u + 1)) buf).
Proof.
  intros Hu Hb. unfold guint32_to_str_buf.
  pose proof (guint32_to_str_buf_len_range u) as Hr.
  pose proof (guint32_to_str_buf_len_count u Hu) as Hc.
  pose proof (length_decimal_text _ _ Hc) as Hl.
  assert (E : (buf_len <? guint32_to_str_buf_len u + 1) = false)
    by (apply Z.ltb_ge; lia).
  rewrite E.
  replace (Z.to_nat (guint32_to_str_buf_len u + 1))
    with (length (decimal_text u) + 1)%nat by lia.
  apply (str_buf_fits (fun st => uint_to_str_back st u)); [|lia].
  rewrite <- (dec_digits_canonical _ _ Hc).
  apply uint_to_str_back_writes; [exact Hc|]. unfold loop_fuel. lia.
Qed.

Lemma guint64_to_str_buf_fits u buf buf_len :
  0 <= u < 18446744073709551616 ->
  guint64_to_str_buf_len u + 1 <= buf_len <= Z.of_nat (length buf) ->
  guint64_to_str_buf u buf buf_len
  = Ok (decimal_text u ++ [NUL]
          ++ drop (Z.to_nat (guint64_to_str_buf_len u + 1)) buf).
Proof.
  intros Hu Hb. unfold guint64_to_str_buf.
  pose proof (guint64_to_str_buf_len_range u) as Hr.
  pose proof (guint64_to_str_buf_len_count u Hu) as Hc.
  pose proof (length_decimal_text _ _ Hc) as Hl.
  assert (E : (buf_len <? guint64_to_str_buf_len u + 1) = false)
    by (apply Z.ltb_ge; lia).
  rewrite E.
  replace (Z.to_nat (guint64_to_str_buf_len u + 1))
    with (length (decimal_text u) + 1)%nat by lia.
  apply (str_buf_fits (fun st => uint64_to_str_back st u)); [|lia].
  rewrite <- (dec_digits_canonical _ _ Hc).
  apply uint64_to_str_back_writes; [exact Hc|]. unfold loop_fuel. lia.
Qed.

Lemma guint32_to_str_buf_small u buf buf_len :
  0 <= buf_len < guint32_to_str_buf_len u + 1 ->
  buf_len <= Z.of_nat (length buf) ->
  guint32_to_str_buf u buf buf_len
  = Ok (truncated_to (Z.to_nat buf_len) BUF_TOO_SMALL_ERR
          ++ drop (Z.to_nat buf_len) buf).
Proof.
  intros Hs Hb. unfold guint32_to_str_buf.
  pose proof (guint32_to_str_buf_len_range u) as Hr.
  assert (E : (buf_len <? guint32_to_str_buf_len u + 1) = true)
    by (apply Z.ltb_lt; lia).
  rewrite E, g_strlcpy_truncates by lia.
  rewrite bind_Ok, length_truncated_to.
  change (length BUF_TOO_SMALL_ERR) with 18%nat.
  now replace (Z.to_nat buf_len `min` 19)%nat with (Z.to_nat buf_len) by lia.
Qed.

Lemma guint64_to_str_buf_small u buf buf_len :
  0 <= buf_len < guint64_to_str_buf_len u + 1 ->
  buf_len <= Z.of_nat (length buf) ->
  guint64_to_str_buf u buf buf_len
  = Ok (truncated_to (Z.to_nat buf_len) BUF_TOO_SMALL_ERR
          ++ drop (length (truncated_to (Z.to_nat buf_len) BUF_TOO_SMALL_ERR)) buf).
Proof.
  intros Hs Hb. unfold guint64_to_str_buf.
  pose proof (guint64_to_str_buf_len_range u) as Hr.
  assert (E : (buf_len <? guint64_to_str_buf_len u + 1) = true)
    by (apply Z.ltb_lt; lia).
  now rewrite E, g_strlcpy_truncates by lia.
Qed.

Lemma c_str_app s rest :
  Forall (fun c => c <> NUL) s -> c_str (s ++ NUL :: rest) = Some s.
Proof.
  induction 1 as [|c s Hc _ IH]; [reflexivity|].
  simpl. destruct (Z.eqb_spec c NUL) as [E|_]; [contradiction|].
  now rewrite IH.
Qed.

Lemma BUF_TOO_SMALL_ERR_chars : Forall (fun c => c <> NUL) BUF_TOO_SMALL_ERR.
Proof. repeat constructor; discriminate. Qed.

Lemma c_str_truncated_to cap src rest :
  1 <= cap -> Forall (fun c => c <> NUL) src ->
  c_str (truncated_to (Z.to_nat cap) src ++ rest)
  = Some (take (Z.to_nat (cap - 1)) src).
Proof.
  intros Hc Hs. destruct (Z.to_nat cap) as [|k] eqn:Ek; [lia|].
  replace (Z.to_nat (cap - 1)) with k by lia.
  cbn [truncated_to]. rewrite <- app_assoc.
  apply c_str_app. now apply Forall_take.
Qed.

(** C7: for every unsigned 32-bit (resp. 64-bit) value [v], writing [v]
    backward with [uint_to_str_back] (resp. [uint64_to_str_back]) from an
    end position [p] stores the canonical decimal text of [v] in the
    bytes from the returned cursor up to [p] and touches nothing else;
    reading those bytes forward gives that text, which parses back to
    [v]; and the text of 0 is the single character ['0']. *)
Theorem backward_write_reads_canonical (v : Z) (buf : list gchar) (p : nat) :
  0 <= v < 18446744073709551616 ->
  (length (decimal_text v) <= p <= length buf)%nat ->
  let text := decimal_text v in
  let p' := (p - length text)%nat in
  let buf' := take p' buf ++ text ++ drop p buf in
  (v < 4294967296 -> uint_to_str_back (buf, p) v = Ok (buf', p'))
  /\ uint64_to_str_back (buf, p) v = Ok (buf', p')
  /\ take (p - p') (drop p' buf') = text
  /\ parse_decimal (take (p - p') (drop p' buf')) = Some v
  /\ decimal_text 0 = str "0".
Proof.
  intros Hv Hp. cbv zeta.
  pose proof (guint64_to_str_buf_len_count v Hv) as Hc.
  pose proof (guint64_to_str_buf_len_range v) as Hr.
  pose proof (dec_digits_canonical _ _ Hc) as Hd.
  set (text := decimal_text v) in *.
  set (p' := (p - length text)%nat).
  assert (Hread : take (p - p') (drop p' (take p' buf ++ text ++ drop p buf)) = text).
  { rewrite drop_app_length' by (rewrite length_take; lia).
    apply take_app_length'. lia. }
  split; [|split; [|split; [|split]]].
  - intros _. apply (writes_back_at (fun st => uint_to_str_back st v)); [|lia|lia].
    rewrite <- Hd.
    apply uint_to_str_back_writes; [exact Hc|]. unfold loop_fuel. lia.
  - apply (writes_back_at (fun st => uint64_to_str_back st v)); [|lia|lia].
    rewrite <- Hd.
    apply uint64_to_str_back_writes; [exact Hc|]. unfold loop_fuel. lia.
  - exact Hread.
  - rewrite Hread. apply parse_decimal_text. lia.
  - reflexivity.
Qed.

Lemma backward_write_reads_canonical_witness :
  uint_to_str_back (replicate 12 88, 11%nat) 4294967295
  = Ok (88 :: str "4294967295" ++ [88], 1%nat)
  /\ uint64_to_str_back (replicate 12 88, 11%nat) 4294967295
     = Ok (88 :: str "4294967295" ++ [88], 1%nat)
  /\ parse_decimal (str "4294967295") = Some 4294967295.
Proof.
  destruct (backward_write_reads_canonical 4294967295 (replicate 12 88) 11%nat)
    as (H32 & H64 & _ & Hparse & _).
  - lia.
  - vm_compute. lia.
  - split; [|split].
    + apply H32. lia.
    + exact H64.
    + exact Hparse.
Defined.

(** C1: for every unsigned 32-bit [u] and declared capacity [buf_len],
    the threshold cascade [guint32_to_str_buf_len] gives the length of
    the canonical decimal text of [u] (1 for [u <= 9], 2 for
    [10 <= u <= 99], ..., 10 from 1000000000 on); when [buf_len] is at
    least that count plus one, [guint32_to_str_buf] stores the text and
    a terminator; when it is smaller, the buffer receives the sentinel
    cut to the capacity and nothing else is written.  For 4294967295 a
    capacity of 11 gives "4294967295" and a capacity of 10 the sentinel
    text, cut to nine characters. *)
Theorem guint32_to_str_buf_bounded (u : Z) (buf : list gchar) (buf_len : Z) :
  0 <= u < 4294967296 ->
  0 <= buf_len <= Z.of_nat (length buf) ->
  let n := guint32_to_str_buf_len u in
  Z.of_nat (length (decimal_text u)) = n
  /\ ((u <= 9 <-> n = 1) /\ (10 <= u <= 99 <-> n = 2)
      /\ (100 <= u <= 999 <-> n = 3) /\ (1000000000 <= u <-> n = 10))
  /\ (n + 1 <= buf_len ->
      guint32_to_str_buf u buf buf_len
      = Ok (decimal_text u ++ [NUL] ++ drop (Z.to_nat (n + 1)) buf))
  /\ (buf_len < n + 1 ->
      guint32_to_str_buf u buf buf_len
      = Ok (truncated_to (Z.to_nat buf_len) BUF_TOO_SMALL_ERR
              ++ drop (Z.to_nat buf_len) buf))
  /\ (forall b, length b = 11%nat ->
      guint32_to_str_buf 4294967295 b 11 = Ok (str "4294967295" ++ [NUL]))
  /\ (forall b, length b = 10%nat ->
      guint32_to_str_buf 4294967295 b 10 = Ok (str "[Buffer t" ++ [NUL])).
Proof.
  intros Hu Hb n.
  pose proof (guint32_to_str_buf_len_count u Hu) as Hc.
  pose proof (guint32_to_str_buf_len_range u) as Hr.
  split; [|split; [|split; [|split; [|split]]]].
  - rewrite (length_decimal_text _ _ Hc). unfold n. lia.
  - unfold n, guint32_to_str_buf_len.
    repeat (match goal with
            | |- context [?a <=? ?b] => destruct (Z.leb_spec a b)
            end); lia.
  - intros Hfit. apply guint32_to_str_buf_fits; [exact Hu|]. unfold n in Hfit. lia.
  - intros Hsmall. apply guint32_to_str_buf_small; unfold n in Hsmall; lia.
  - intros b Hlen. rewrite guint32_to_str_buf_fits by (rewrite ?Hlen; vm_compute; intuition discriminate).
    rewrite drop_ge by (rewrite Hlen; vm_compute; lia). reflexivity.
  - intros b Hlen. rewrite guint32_to_str_buf_small by (rewrite ?Hlen; vm_compute; intuition discriminate).
    rewrite drop_ge by (rewrite Hlen; vm_compute; lia). reflexivity.
Qed.

Lemma guint32_to_str_buf_bounded_witness :
  guint32_to_str_buf 4294967295 (replicate 11 88) 11 = Ok (str "4294967295" ++ [NUL])
  /\ guint32_to_str_buf 4294967295 (replicate 11 88) 10
     = Ok (str "[Buffer t" ++ [NUL; 88]).
Proof.
  split.
  - destruct (guint32_to_str_buf_bounded 4294967295 (replicate 11 88) 11)
      as (_ & _ & Hfit & _); [lia | vm_compute; intuition discriminate |].
    apply Hfit. vm_compute. discriminate.
  - destruct (guint32_to_str_buf_bounded 4294967295 (replicate 11 88) 10)
      as (_ & _ & _ & Hsmall & _); [lia | vm_compute; intuition discriminate |].
    apply Hsmall. reflexivity.
Defined.

(** C5 (as the code has it): for every value and every declared
    capacity [buf_len >= 1], [guint32_to_str_buf] and
    [guint64_to_str_buf] leave a terminator within the first [buf_len]
    bytes of the buffer, and on every capacity failure the string left
    in the buffer is exactly the literal "[Buffer too small]" cut to
    [buf_len - 1] characters. *)
Theorem str_buf_terminated (u : Z) (buf : list gchar) (buf_len : Z) :
  0 <= u < 18446744073709551616 ->
  1 <= buf_len <= Z.of_nat (length buf) ->
  (u < 4294967296 ->
   exists buf',
     guint32_to_str_buf u buf buf_len = Ok buf'
     /\ null_terminated_within buf' buf_len
     /\ (buf_len < guint32_to_str_buf_len u + 1 ->
         c_str buf' = Some (take (Z.to_nat (buf_len - 1)) BUF_TOO_SMALL_ERR)))
  /\ (exists buf',
        guint64_to_str_buf u buf buf_len = Ok buf'
        /\ null_terminated_within buf' buf_len
        /\ (buf_len < guint64_to_str_buf_len u + 1 ->
            c_str buf' = Some (take (Z.to_nat (buf_len - 1)) BUF_TOO_SMALL_ERR))).
Proof.
  intros Hu Hb. split.
  - intros Hu32.
    pose proof (guint32_to_str_buf_len_range u) as Hr.
    pose proof (guint32_to_str_buf_len_count u ltac:(lia)) as Hc.
    pose proof (length_decimal_text _ _ Hc) as Hl.
    destruct (Z_lt_le_dec buf_len (guint32_to_str_buf_len u + 1)) as [Hs|Hf].
    + eexists. split; [apply guint32_to_str_buf_small; lia|].
      split; [apply truncated_to_terminated; lia|].
      intros _. apply c_str_truncated_to; [lia|apply BUF_TOO_SMALL_ERR_chars].
    + eexists. split; [apply guint32_to_str_buf_fits; lia|].
      split; [|lia].
      exists (length (decimal_text u)). split; [lia|].
      now apply list_lookup_middle.
  - pose proof (guint64_to_str_buf_len_range u) as Hr.
    pose proof (guint64_to_str_buf_len_count u Hu) as Hc.
    pose proof (length_decimal_text _ _ Hc) as Hl.
    destruct (Z_lt_le_dec buf_len (guint64_to_str_buf_len u + 1)) as [Hs|Hf].
    + eexists. split; [apply guint64_to_str_buf_small; lia|].
      split; [apply truncated_to_terminated; lia|].
      intros _. apply c_str_truncated_to; [lia|apply BUF_TOO_SMALL_ERR_chars].
    + eexists. split; [apply guint64_to_str_buf_fits; lia|].
      split; [|lia].
      exists (length (decimal_text u)). split; [lia|].
      now apply list_lookup_middle.
Qed.

Lemma str_buf_terminated_witness :
  (exists buf',
     guint32_to_str_buf 4294967295 (replicate 4 88) 4 = Ok buf'
     /\ null_terminated_within buf' 4
     /\ c_str buf' = Some (str "[Bu"))
  /\ (exists buf',
        guint64_to_str_buf 4294967295 (replicate 4 88) 4 = Ok buf'
        /\ null_terminated_within buf' 4
        /\ c_str buf' = Some (str "[Bu")).
Proof.
  destruct (str_buf_terminated 4294967295 (replicate 4 88) 4)
    as [H32 (b64 & E64 & T64 & S64)]; [lia | vm_compute; intuition discriminate |].
  destruct (H32 ltac:(lia)) as (b32 & E32 & T32 & S32).
  split.
  - exists b32. repeat split; [exact E32 | exact T32 | apply S32; reflexivity].
  - exists b64. repeat split; [exact E64 | exact T64 | apply S64; reflexivity].
Defined.

(** C5 as stated fails at capacity 0: nothing is stored, so no
    terminator lies within the declared capacity and the buffer keeps
    what it held. *)
Lemma str_buf_capacity_0_unterminated :
  guint32_to_str_buf 7 [88] 0 = Ok [88]
  /\ guint64_to_str_buf 7 [88] 0 = Ok [88]
  /\ ~ (exists buf', guint32_to_str_buf 7 [88] 0 = Ok buf'
                     /\ null_terminated_within buf' 0)
  /\ ~ (exists buf', guint64_to_str_buf 7 [88] 0 = Ok buf'
                     /\ null_terminated_within buf' 0).
Proof.
  split; [reflexivity|]. split; [reflexivity|].
  split; intros (buf' & _ & i & Hi & _); lia.
Qed.

(** ** The hex encoder *)

Lemma hex_digits_nth d :
  0 <= d < 16 -> nth (Z.to_nat d) hex_digits NUL = hex_char d.
Proof.
  intros Hd.
  assert (E : d = 0 \/ d = 1 \/ d = 2 \/ d = 3 \/ d = 4 \/ d = 5 \/ d = 6
              \/ d = 7 \/ d = 8 \/ d = 9 \/ d = 10 \/ d = 11 \/ d = 12
              \/ d = 13 \/ d = 14 \/ d = 15) by lia.
  repeat (destruct E as [->|E]; [reflexivity|]). now subst.
Qed.

Lemma low_nibble_hex x : low_nibble_of_octet_to_hex x = hex_char (x mod 16).
Proof.
  unfold low_nibble_of_octet_to_hex, to_guint8.
  change 15 with (Z.ones 4). rewrite Z.land_ones by lia.
  change (2 ^ 4) with 16.
  replace ((x mod 256) mod 16) with (x mod 16) by lia.
  apply hex_digits_nth. lia.
Qed.

Lemma hex_text_add n m v :
  hex_text (n + m) v = hex_text n (v / 16 ^ Z.of_nat m) ++ hex_text m v.
Proof.
  revert v. induction m as [|m IH]; intros v.
  - simpl. now rewrite Nat.add_0_r, Z.div_1_r, app_nil_r.
  - replace (n + S m)%nat with (S (n + m)) by lia.
    cbn [hex_text]. rewrite IH, <- app_assoc. do 2 f_equal.
    rewrite Z.div_div by (try apply Z.pow_pos_nonneg; lia).
    f_equal. rewrite Nat2Z.inj_succ, Z.pow_succ_r by lia. reflexivity.
Qed.

Lemma hex_text_mod n m v :
  (n <= m)%nat -> hex_text n (v mod 16 ^ Z.of_nat m) = hex_text n v.
Proof.
  revert m v. induction n as [|n IH]; intros m v Hnm; [reflexivity|].
  destruct m as [|m]; [lia|].
  cbn [hex_text].
  rewrite Nat2Z.inj_succ, Z.pow_succ_r by lia.
  pose proof (Z.pow_pos_nonneg 16 (Z.of_nat m) ltac:(lia) ltac:(lia)) as Hpos.
  rewrite Z.rem_mul_r by lia.
  rewrite <- (IH m (v / 16)) by lia.
  generalize ((v / 16) mod 16 ^ Z.of_nat m). intros q.
  replace ((v mod 16 + 16 * q) / 16) with q by lia.
  replace ((v mod 16 + 16 * q) mod 16) with (v mod 16) by lia.
  reflexivity.
Qed.

Lemma length_hex_text n v : length (hex_text n v) = n.
Proof.
  revert v. induction n as [|n IH]; intros v; [reflexivity|].
  cbn [hex_text]. rewrite length_app, IH. simpl. lia.
Qed.

Lemma byte_to_hex_writes b : writes (fun st => byte_to_hex st b) (hex_text 2 b).
Proof.
  unfold byte_to_hex. cbn [hex_text app].
  rewrite !low_nibble_hex, Z.shiftr_div_pow2 by lia. change (2 ^ 4) with 16.
  apply (writes_seq (put _) (put _) [_] [_]); apply writes_put.
Qed.

Lemma word_to_hex_writes w : writes (fun st => word_to_hex st w) (hex_text 4 w).
Proof.
  unfold word_to_hex.
  change (hex_text 4 w) with (hex_text (2 + 2) w).
  rewrite (hex_text_add 2 2 w). change (16 ^ Z.of_nat 2) with 256.
  rewrite Z.shiftr_div_pow2 by lia. change (2 ^ 8) with 256.
  apply (writes_seq (fun st => byte_to_hex st (w / 256))
                    (fun st => byte_to_hex st w)); apply byte_to_hex_writes.
Qed.

Lemma dword_to_hex_writes d : writes (fun st => dword_to_hex st d) (hex_text 8 d).
Proof.
  unfold dword_to_hex, to_guint16.
  change (hex_text 8 d) with (hex_text (4 + 4) d).
  rewrite (hex_text_add 4 4 d). change (16 ^ Z.of_nat 4) with 65536.
  rewrite Z.shiftr_div_pow2 by lia. change (2 ^ 16) with 65536.
  rewrite <- (hex_text_mod 4 4 (d / 65536)), <- (hex_text_mod 4 4 d) by lia.
  change (16 ^ Z.of_nat 4) with 65536.
  apply (writes_seq (fun st => word_to_hex st ((d / 65536) mod 65536))
                    (fun st => word_to_hex st (d mod 65536)));
    apply word_to_hex_writes.
Qed.

(** The loop of [bytes_to_hexstr] over the bytes [bs] that follow the
    [done] ones. *)
Lemma bytes_loop_writes bs : forall done rest,
  writes (for_loop (length bs) (length done)
            (fun i st => b ← load (done ++ bs ++ rest) i; byte_to_hex st b))
         (hex_dump bs).
Proof.
  induction bs as [|b bs IH]; intros done rest.
  - apply writes_nil.
  - change (hex_dump (b :: bs)) with (hex_text 2 b ++ hex_dump bs).
    set (body := fun (i : nat) st => b0 ← load (done ++ (b :: bs) ++ rest) i;
                                     byte_to_hex st b0).
    apply (writes_ext (fun st => st' ← (fun st => byte_to_hex st b) st;
                         for_loop (length bs) (S (length done)) body st')).
    { intros st. cbn [length for_loop]. unfold body.
      rewrite (load_Some (done ++ (b :: bs) ++ rest) (length done) b)
        by (now apply list_lookup_middle).
      reflexivity. }
    apply writes_seq; [apply byte_to_hex_writes|].
    specialize (IH (done ++ [b]) rest).
    rewrite length_app, Nat.add_1_r in IH.
    eapply writes_ext; [|exact IH].
    intros st. unfold body. now rewrite <- app_assoc.
Qed.

Lemma bytes_to_hexstr_writes ad len :
  (len <= length ad)%nat ->
  writes (fun st => bytes_to_hexstr st (Some ad) len) (hex_dump (take len ad)).
Proof.
  intros Hlen. unfold bytes_to_hexstr.
  pose proof (bytes_loop_writes (take len ad) [] (drop len ad)) as Hw.
  rewrite length_take, Nat.min_l in Hw by lia.
  simpl in Hw. rewrite take_drop in Hw. exact Hw.
Qed.

Lemma length_hex_dump bs : length (hex_dump bs) = (2 * length bs)%nat.
Proof.
  induction bs as [|b bs IH]; [reflexivity|].
  change (hex_dump (b :: bs)) with (hex_text 2 b ++ hex_dump bs).
  rewrite length_app, length_hex_text, IH. simpl. lia.
Qed.

Lemma hex_text_chars n v : Forall hex_digit_char (hex_text n v).
Proof.
  revert v. induction n as [|n IH]; intros v; [constructor|].
  cbn [hex_text]. apply Forall_app. split; [apply IH|].
  apply Forall_singleton. unfold hex_digit_char, hex_char.
  destruct (Z.ltb_spec (v mod 16) 10); lia.
Qed.

Lemma hex_dump_chars bs : Forall hex_digit_char (hex_dump bs).
Proof.
  induction bs as [|b bs IH]; [constructor|].
  change (hex_dump (b :: bs)) with (hex_text 2 b ++ hex_dump bs).
  apply Forall_app. split; [apply hex_text_chars|exact IH].
Qed.

Lemma hex_digit_char_nonzero s :
  Forall hex_digit_char s -> Forall (fun c => c <> NUL) s.
Proof.
  intros H. eapply Forall_impl; [exact H|].
  unfold hex_digit_char, NUL. intros c Hc. lia.
Qed.

(** ** Writers run over a buffer

    [w] is what has been written so far over [buf]. *)

Lemma writes_over {B} f data (K : list gchar * nat -> outcome B) buf w :
  writes f data ->
  (length w + length data <= length buf)%nat ->
  (f (w ++ drop (length w) buf, length w) ≫= K)
  = K ((w ++ data) ++ drop (length (w ++ data)) buf, length (w ++ data)).
Proof.
  intros Hf Hlen.
  rewrite <- (take_drop (length data) (drop (length w) buf)) at 1.
  rewrite Hf by (rewrite length_take, length_drop; lia).
  rewrite bind_Ok, drop_drop, length_app, <- app_assoc. reflexivity.
Qed.

Lemma store_over buf w c :
  (length w < length buf)%nat ->
  store (w ++ drop (length w) buf) (length w) c
  = Ok (w ++ c :: drop (S (length w)) buf).
Proof.
  intros Hlen.
  destruct (lookup_lt_is_Some_2 buf (length w) Hlen) as [x Hx].
  rewrite (drop_S _ _ _ Hx). apply store_middle.
Qed.

(** ** The GUID formatter *)

(** The room left in the buffer after the segments written so far. *)
Ltac room H4 :=
  rewrite ?length_app, ?length_hex_text, ?length_hex_dump, ?length_take,
    ?length_drop, ?H4; simpl; lia.

Lemma guid_to_str_buf_fits guid buf buf_len :
  length (data4 guid) = 8%nat ->
  GUID_STR_LEN <= buf_len -> (37 <= length buf)%nat ->
  guid_to_str_buf guid buf buf_len = Ok (guid_text guid ++ [NUL] ++ drop 37 buf).
Proof.
  intros H4 Hcap Hbuf. unfold guid_to_str_buf.
  assert (E : (buf_len <? GUID_STR_LEN) = false) by (apply Z.ltb_ge; lia).
  rewrite E.
  assert (H42 : (2 <= length (data4 guid))%nat) by lia.
  assert (H46 : (6 <= length (drop 2 (data4 guid)))%nat)
    by (rewrite length_drop; lia).
  change (buf, 0%nat) with ([] ++ drop (length (@nil Z)) buf, length (@nil Z)).
  rewrite (writes_over _ _ _ buf _ (dword_to_hex_writes (data1 guid))) by room H4.
  rewrite (writes_over _ _ _ buf _ (writes_put 45)) by room H4.
  rewrite (writes_over _ _ _ buf _ (word_to_hex_writes (data2 guid))) by room H4.
  rewrite (writes_over _ _ _ buf _ (writes_put 45)) by room H4.
  rewrite (writes_over _ _ _ buf _ (word_to_hex_writes (data3 guid))) by room H4.
  rewrite (writes_over _ _ _ buf _ (writes_put 45)) by room H4.
  rewrite (writes_over _ _ _ buf _ (bytes_to_hexstr_writes (data4 guid) 2 H42))
    by room H4.
  rewrite (writes_over _ _ _ buf _ (writes_put 45)) by room H4.
  rewrite (writes_over _ _ _ buf _
             (bytes_to_hexstr_writes (drop 2 (data4 guid)) 6 H46)) by room H4.
  rewrite (take_ge (drop 2 (data4 guid)) 6) by (rewrite length_drop; lia).
  match goal with
  | |- store (?w ++ _) _ _ = _ =>
      assert (Hw : w = guid_text guid)
        by (unfold guid_text; simpl; rewrite <- !app_assoc; reflexivity);
      assert (Hl : length w = 36%nat) by room H4
  end.
  rewrite store_over by lia.
  rewrite Hl, Hw. reflexivity.
Qed.

Lemma guid_to_str_buf_small guid buf buf_len :
  0 <= buf_len < GUID_STR_LEN -> buf_len <= Z.of_nat (length buf) ->
  guid_to_str_buf guid buf buf_len
  = Ok (truncated_to (Z.to_nat buf_len) BUF_TOO_SMALL_ERR
          ++ drop (length (truncated_to (Z.to_nat buf_len) BUF_TOO_SMALL_ERR)) buf).
Proof.
  intros Hc Hb. unfold guid_to_str_buf, GUID_STR_LEN in *.
  assert (E : (buf_len <? 37) = true) by (apply Z.ltb_lt; lia).
  now rewrite E, g_strlcpy_truncates by lia.
Qed.

(** C8: for every GUID and destination buffer, [guid_to_str_buf] with
    a capacity of at least 37 stores the 36 characters of the canonical
    form (8-4-4-4-12 lowercase hex digits with hyphens between the
    groups) and a terminator, and with a smaller capacity stores the
    sentinel, cut to the capacity, instead; the GUID
    01020304-0506-0708-090a-0b0c0d0e0f10 is rendered as that text. *)
Theorem guid_to_str_buf_canonical (guid : e_guid_t) (buf : list gchar) (buf_len : Z) :
  length (data4 guid) = 8%nat ->
  0 <= buf_len <= Z.of_nat (length buf) ->
  (37 <= buf_len ->
   guid_to_str_buf guid buf buf_len = Ok (guid_text guid ++ [NUL] ++ drop 37 buf)
   /\ c_str (guid_text guid ++ [NUL] ++ drop 37 buf) = Some (guid_text guid))
  /\ (buf_len < 37 ->
      guid_to_str_buf guid buf buf_len
      = Ok (truncated_to (Z.to_nat buf_len) BUF_TOO_SMALL_ERR
              ++ drop (length (truncated_to (Z.to_nat buf_len) BUF_TOO_SMALL_ERR)) buf))
  /\ length (guid_text guid) = 36%nat
  /\ (exists a b c d e,
        guid_text guid
        = a ++ str "-" ++ b ++ str "-" ++ c ++ str "-" ++ d ++ str "-" ++ e
        /\ length a = 8%nat /\ length b = 4%nat /\ length c = 4%nat
        /\ length d = 4%nat /\ length e = 12%nat
        /\ Forall hex_digit_char (a ++ b ++ c ++ d ++ e))
  /\ guid_text {| data1 := 0x01020304; data2 := 0x0506; data3 := 0x0708;
                  data4 := [0x09; 0x0A; 0x0B; 0x0C; 0x0D; 0x0E; 0x0F; 0x10] |}
     = str "01020304-0506-0708-090a-0b0c0d0e0f10".
Proof.
  intros H4 Hb.
  assert (Hshape : exists a b c d e,
        guid_text guid
        = a ++ str "-" ++ b ++ str "-" ++ c ++ str "-" ++ d ++ str "-" ++ e
        /\ length a = 8%nat /\ length b = 4%nat /\ length c = 4%nat
        /\ length d = 4%nat /\ length e = 12%nat
        /\ Forall hex_digit_char (a ++ b ++ c ++ d ++ e)).
  { exists (hex_text 8 (data1 guid)), (hex_text 4 (data2 guid)),
      (hex_text 4 (data3 guid)), (hex_dump (take 2 (data4 guid))),
      (hex_dump (drop 2 (data4 guid))).
    split; [reflexivity|].
    rewrite !length_hex_text, !length_hex_dump, length_take, length_drop.
    repeat (split; [lia|]).
    rewrite !Forall_app.
    repeat split; (apply hex_text_chars || apply hex_dump_chars). }
  assert (Hlen : length (guid_text guid) = 36%nat).
  { destruct Hshape as (a & b & c & d & e & -> & ? & ? & ? & ? & ? & _).
    rewrite !length_app. simpl. lia. }
  split; [|split; [|split; [|split]]].
  - intros Hcap. split.
    + apply guid_to_str_buf_fits; [exact H4 | unfold GUID_STR_LEN; lia | lia].
    + apply c_str_app.
      destruct Hshape as (a & b & c & d & e & -> & _ & _ & _ & _ & _ & Hx).
      apply Forall_app in Hx as [Ha Hx]. apply Forall_app in Hx as [Hb' Hx].
      apply Forall_app in Hx as [Hc' Hx]. apply Forall_app in Hx as [Hd' He'].
      rewrite !Forall_app.
      repeat split; try (now apply hex_digit_char_nonzero);
        apply Forall_singleton; discriminate.
  - intros Hcap. apply guid_to_str_buf_small; unfold GUID_STR_LEN; lia.
  - exact Hlen.
  - exact Hshape.
  - reflexivity.
Qed.

Lemma guid_to_str_buf_canonical_witness :
  let guid := {| data1 := 0x01020304; data2 := 0x0506; data3 := 0x0708;
                 data4 := [0x09; 0x0A; 0x0B; 0x0C; 0x0D; 0x0E; 0x0F; 0x10] |} in
  guid_to_str_buf guid (replicate 37 88) 37
  = Ok (str "01020304-0506-0708-090a-0b0c0d0e0f10" ++ [NUL])
  /\ guid_to_str_buf guid (replicate 37 88) 36
     = Ok (str "[Buffer too small]" ++ [NUL] ++ replicate 18 88).
Proof.
  intros guid. split.
  - destruct (guid_to_str_buf_canonical guid (replicate 37 88) 37)
      as ((Hfit & _) & _); [reflexivity | vm_compute; intuition discriminate | lia |].
    exact Hfit.
  - destruct (guid_to_str_buf_canonical guid (replicate 37 88) 36)
      as (_ & Hsmall & _); [reflexivity | vm_compute; intuition discriminate |].
    apply Hsmall. lia.
Defined.

(** ** The hex dump *)

Lemma write_at_over buf w data :
  (length w + length data <= length buf)%nat ->
  write_at (w ++ drop (length w) buf) (length w) data
  = Ok (w ++ data ++ drop (length w + length data) buf).
Proof.
  intros Hlen. unfold write_at.
  assert (E : (length w + length data <=? length (w ++ drop (length w) buf))%nat = true).
  { apply Nat.leb_le. rewrite length_app, length_drop. lia. }
  rewrite E, take_app_length.
  rewrite drop_app_ge, drop_drop by lia.
  do 4 f_equal. lia.
Qed.

(** The room left in the 76-byte block of the dump. *)
Ltac dump_room :=
  rewrite ?length_app, ?length_hex_dump, ?length_take;
  unfold UTF8_HORIZONTAL_ELLIPSIS; cbn [length]; lia.

Section HexDumpProperties.
Context `{Wmem}.

Lemma bytes_to_str_some scope bytes len :
  (len <= length bytes)%nat ->
  let text := hex_dump (take (Nat.min 36 len) bytes)
              ++ (if (36 <? len)%nat then UTF8_HORIZONTAL_ELLIPSIS else []) in
  bytes_to_str scope (Some bytes) len
  = Ok (text ++ NUL :: drop (S (length text)) (wmem_alloc scope 76)).
Proof.
  intros Hlen. cbv zeta. unfold bytes_to_str.
  change (MAX_BYTE_STR_LEN + 3 + 1)%nat with 76%nat.
  change (MAX_BYTE_STR_LEN / 2)%nat with 36%nat.
  set (cur := wmem_alloc scope 76).
  assert (Hcur : length cur = 76%nat) by apply wmem_alloc_length.
  destruct (Nat.eqb_spec len 0) as [->|Hne].
  - simpl. change (store cur 0 NUL) with (store ([] ++ drop (length (@nil Z)) cur) (length (@nil Z)) NUL).
    rewrite store_over by (simpl; lia). reflexivity.
  - change (cur, 0%nat) with ([] ++ drop (length (@nil Z)) cur, length (@nil Z)).
    destruct (Nat.ltb_spec 36 len) as [Hlt|Hge].
    + rewrite Nat.min_l by lia.
      rewrite (writes_over _ _ _ cur _ (bytes_to_hexstr_writes bytes 36 ltac:(lia)))
        by dump_room.
      unfold g_stpcpy.
      rewrite write_at_over
        by dump_room.
      rewrite !bind_Ok.
      set (w := [] ++ hex_dump (take 36 bytes)).
      replace (w ++ (UTF8_HORIZONTAL_ELLIPSIS ++ [NUL])
                 ++ drop (length w + length (UTF8_HORIZONTAL_ELLIPSIS ++ [NUL])) cur)
        with ((w ++ UTF8_HORIZONTAL_ELLIPSIS)
                ++ NUL :: drop (length w + length (UTF8_HORIZONTAL_ELLIPSIS ++ [NUL])) cur)
        by (rewrite <- !app_assoc; reflexivity).
      replace (length w + length UTF8_HORIZONTAL_ELLIPSIS)%nat
        with (length (w ++ UTF8_HORIZONTAL_ELLIPSIS)) by now rewrite length_app.
      rewrite store_middle. do 3 f_equal.
      unfold w. rewrite !length_app. unfold UTF8_HORIZONTAL_ELLIPSIS.
      cbn [length]. f_equal. lia.
    + rewrite Nat.min_r by lia.
      rewrite (writes_over _ _ _ cur _ (bytes_to_hexstr_writes bytes len Hlen))
        by dump_room.
      rewrite bind_Ok. cbv beta iota.
      rewrite store_over by dump_room.
      rewrite app_nil_r. reflexivity.
Qed.

Lemma no_bug_bind {A B} (m : outcome A) (f : A -> outcome B) :
  no_bug m -> (forall a, no_bug (f a)) -> no_bug (m ≫= f).
Proof.
  intros Hm Hf msg. destruct m as [a| msg'| |]; simpl.
  - apply Hf.
  - now destruct (Hm msg').
  - discriminate.
  - discriminate.
Qed.

Lemma no_bug_Ok {A} (a : A) : no_bug (Ok a).
Proof. intros msg. discriminate. Qed.

Lemma no_bug_store buf i c : no_bug (store buf i c).
Proof. unfold store. destruct (_ <? _)%nat; intros msg; discriminate. Qed.

Lemma no_bug_load {A} (a : list A) i : no_bug (load a i).
Proof. unfold load. destruct (a !! i); intros msg; discriminate. Qed.

Lemma no_bug_put c st : no_bug (put c st).
Proof.
  destruct st as [buf p]. unfold put.
  apply no_bug_bind; [apply no_bug_store | intros; apply no_bug_Ok].
Qed.

Lemma no_bug_byte_to_hex st b : no_bug (byte_to_hex st b).
Proof. unfold byte_to_hex. apply no_bug_bind; intros; apply no_bug_put. Qed.

Lemma no_bug_for_loop {S} n i (body : nat -> S -> outcome S) s :
  (forall k s', no_bug (body k s')) -> no_bug (for_loop n i body s).
Proof.
  intros Hbody. revert i s. induction n as [|n IH]; intros i s.
  - apply no_bug_Ok.
  - simpl. apply no_bug_bind; [apply Hbody | intros; apply IH].
Qed.

Lemma no_bug_write_at buf off data : no_bug (write_at buf off data).
Proof. unfold write_at. destruct (_ <=? _)%nat; intros msg; discriminate. Qed.

Lemma no_bug_g_stpcpy st src : no_bug (g_stpcpy st src).
Proof.
  destruct st as [buf p]. unfold g_stpcpy.
  apply no_bug_bind; [apply no_bug_write_at | intros; apply no_bug_Ok].
Qed.

Lemma no_bug_bytes_to_str scope bytes len :
  no_bug (bytes_to_str scope (Some bytes) len).
Proof.
  unfold bytes_to_str. destruct (len =? 0)%nat; [apply no_bug_store|].
  destruct (_ <? len)%nat.
  - apply no_bug_bind.
    + apply no_bug_for_loop. intros k s'.
      apply no_bug_bind; [apply no_bug_load | intros; apply no_bug_byte_to_hex].
    + intros st. apply no_bug_bind; [apply no_bug_g_stpcpy|].
      intros [cur p]. apply no_bug_store.
  - apply no_bug_bind.
    + apply no_bug_for_loop. intros k s'.
      apply no_bug_bind; [apply no_bug_load | intros; apply no_bug_byte_to_hex].
    + intros st. apply no_bug_bind; [apply no_bug_Ok|].
      intros [cur p]. apply no_bug_store.
Qed.

Lemma no_bug_bytes_to_hexstr_punct st bytes len punct :
  no_bug (bytes_to_hexstr_punct st (Some bytes) len punct).
Proof.
  unfold bytes_to_hexstr_punct.
  apply no_bug_bind; [apply no_bug_load|]. intros b0.
  apply no_bug_bind; [apply no_bug_byte_to_hex|]. intros st'.
  apply no_bug_for_loop. intros k s'.
  apply no_bug_bind; [apply no_bug_put|]. intros st''.
  apply no_bug_bind; [apply no_bug_load | intros; apply no_bug_byte_to_hex].
Qed.

Lemma no_bug_bytestring_to_str scope bytes len punct :
  no_bug (bytestring_to_str scope (Some bytes) len punct).
Proof.
  unfold bytestring_to_str. destruct (len =? 0)%nat; [apply no_bug_Ok|].
  destruct (punct =? NUL); [apply no_bug_bytes_to_str|].
  destruct (_ <? len)%nat.
  - apply no_bug_bind; [apply no_bug_bytes_to_hexstr_punct|]. intros st.
    apply no_bug_bind.
    + apply no_bug_bind; [apply no_bug_put | intros; apply no_bug_g_stpcpy].
    + intros [buf p]. apply no_bug_store.
  - apply no_bug_bind; [apply no_bug_bytes_to_hexstr_punct|]. intros st.
    apply no_bug_bind; [apply no_bug_Ok|].
    intros [buf p]. apply no_bug_store.
Qed.

(** C2 (the code, where its own comment at the guard says
    [bd_len > 24]): the ceiling of the unpunctuated dump is
    [MAX_BYTE_STR_LEN / 2 = 36] bytes.  [bytes_to_str] encodes a
    sequence of at most 36 bytes in full with no ellipsis, and of a
    longer one only the first 36 bytes, as 72 hex characters, followed
    by a single ellipsis; a 25-byte input gives its 50 hex characters
    and no ellipsis, a 37-byte input 72 hex characters and the
    ellipsis. *)
Theorem bytes_to_str_ceiling (scope : wmem_allocator_t) (bytes : list Z) :
  (exists buf,
     bytes_to_str scope (Some bytes) (length bytes) = Ok buf
     /\ c_str buf
        = Some (hex_dump (take 36 bytes)
                ++ (if (36 <? length bytes)%nat
                    then UTF8_HORIZONTAL_ELLIPSIS else []))
     /\ length (hex_dump (take 36 bytes)) = (2 * Nat.min 36 (length bytes))%nat)
  /\ (exists buf,
        bytes_to_str scope (Some (map Z.of_nat (seq 1 25))) 25 = Ok buf
        /\ c_str buf
           = Some (str "0102030405060708090a0b0c0d0e0f10111213141516171819"))
  /\ (exists buf,
        bytes_to_str scope (Some (map Z.of_nat (seq 1 37))) 37 = Ok buf
        /\ c_str buf
           = Some (str "0102030405060708090a0b0c0d0e0f101112131415161718191a1b1c1d1e1f2021222324"
                   ++ UTF8_HORIZONTAL_ELLIPSIS)).
Proof.
  assert (Hgen : forall bs : list Z,
            exists buf,
              bytes_to_str scope (Some bs) (length bs) = Ok buf
              /\ c_str buf
                 = Some (hex_dump (take 36 bs)
                         ++ (if (36 <? length bs)%nat
                             then UTF8_HORIZONTAL_ELLIPSIS else []))).
  { intros bs. eexists. split.
    - apply bytes_to_str_some. lia.
    - cbv zeta.
      replace (take (Nat.min 36 (length bs)) bs) with (take 36 bs).
      2:{ destruct (Nat.le_gt_cases 36 (length bs)).
          - now rewrite Nat.min_l by lia.
          - rewrite Nat.min_r by lia. now rewrite !take_ge by lia. }
      apply c_str_app. apply Forall_app. split.
      + apply hex_digit_char_nonzero, hex_dump_chars.
      + destruct (_ <? _)%nat; repeat constructor; discriminate. }
  split; [|split].
  - destruct (Hgen bytes) as (buf & E & Hs). exists buf.
    split; [exact E|]. split; [exact Hs|].
    rewrite length_hex_dump, length_take. reflexivity.
  - destruct (Hgen (map Z.of_nat (seq 1 25))) as (buf & E & Hs).
    exists buf. split; [exact E|]. rewrite Hs. reflexivity.
  - destruct (Hgen (map Z.of_nat (seq 1 37))) as (buf & E & Hs).
    exists buf. split; [exact E|]. rewrite Hs. reflexivity.
Qed.

(** C6 (as the code has it): for every allocator scope and punctuation
    policy, [bytestring_to_str] with a declared length of 0 returns
    the empty string, and ends in the fatal report exactly when the
    pointer is null and the declared length is not 0; [bytes_to_str]
    returns the empty string for a non-null pointer and a declared
    length of 0, and ends in the fatal report exactly when the pointer
    is null, whatever the declared length. *)
Theorem hex_dump_null_contract (scope : wmem_allocator_t) (punct : gchar)
    (ad : option (list Z)) (len : nat) :
  (exists buf, bytestring_to_str scope ad 0 punct = Ok buf /\ c_str buf = Some [])
  /\ ((exists msg, bytestring_to_str scope ad len punct = DissectorBug msg)
      <-> ad = None /\ len <> 0%nat)
  /\ (forall bytes, exists buf,
        bytes_to_str scope (Some bytes) 0 = Ok buf /\ c_str buf = Some [])
  /\ ((exists msg, bytes_to_str scope ad len = DissectorBug msg) <-> ad = None).
Proof.
  split; [|split; [|split]].
  - eexists. split; reflexivity.
  - split.
    + intros [msg E]. destruct ad as [bytes|].
      * now destruct (no_bug_bytestring_to_str scope bytes len punct msg).
      * split; [reflexivity|]. intros ->. discriminate.
    + intros [-> Hne]. unfold bytestring_to_str.
      destruct (Nat.eqb_spec len 0) as [->|_]; [contradiction|].
      eexists. reflexivity.
  - intros bytes. eexists. split.
    + apply (bytes_to_str_some scope bytes 0). lia.
    + reflexivity.
  - split.
    + intros [msg E]. destruct ad as [bytes|]; [|reflexivity].
      now destruct (no_bug_bytes_to_str scope bytes len msg).
    + intros ->. eexists. reflexivity.
Qed.

End HexDumpProperties.

(** The code against C2 on a 25-byte input: all 25 bytes are encoded,
    as 50 hex characters, and no ellipsis follows. *)
Lemma bytes_to_str_25_in_full :
  exists buf,
    @bytes_to_str test_wmem tt (Some (map Z.of_nat (seq 1 25))) 25 = Ok buf
    /\ c_str buf = Some (hex_dump (map Z.of_nat (seq 1 25)))
    /\ c_str buf <> Some (hex_dump (take 24 (map Z.of_nat (seq 1 25)))
                          ++ UTF8_HORIZONTAL_ELLIPSIS).
Proof.
  eexists. split; [vm_compute; reflexivity|].
  split; [vm_compute; reflexivity|].
  vm_compute. discriminate.
Qed.

(** C6 as stated fails for [bytes_to_str] on a null pointer with a
    declared length of 0: the call ends in the fatal report instead of
    returning the empty string. *)
Lemma bytes_to_str_null_0_reports :
  @bytes_to_str test_wmem tt None 0
  = DissectorBug "Null pointer passed to bytes_to_str()".
Proof. reflexivity. Qed.

(** ** The bit-field visualiser *)

Lemma grouped_cons k c rest :
  grouped k (c :: rest)
  = spaces_before 4 k ++ spaces_before 8 k ++ c :: grouped (S k) rest.
Proof. reflexivity. Qed.

Lemma grouped_app k l1 l2 :
  grouped k (l1 ++ l2) = grouped k l1 ++ grouped (k + length l1) l2.
Proof.
  revert k. induction l1 as [|c l1 IH]; intros k.
  - simpl. now rewrite Nat.add_0_r.
  - cbn [app length]. rewrite !grouped_cons, IH, <- !app_assoc.
    cbn [app]. replace (k + S (length l1))%nat with (S k + length l1)%nat by lia.
    reflexivity.
Qed.

Lemma length_grouped k l : (length (grouped k l) <= 3 * length l)%nat.
Proof.
  revert k. induction l as [|c l IH]; intros k; [simpl; lia|].
  rewrite grouped_cons, !length_app. cbn [length].
  specialize (IH (S k)).
  unfold spaces_before.
  destruct (negb (k =? 0)%nat && (k mod 4 =? 0)%nat);
    destruct (negb (k =? 0)%nat && (k mod 8 =? 0)%nat); cbn [length]; lia.
Qed.

Lemma grouped_chars k l :
  Forall (fun c => c <> NUL) l -> Forall (fun c => c <> NUL) (grouped k l).
Proof.
  intros Hl. revert k. induction Hl as [|c l Hc _ IH]; intros k; [constructor|].
  rewrite grouped_cons, !Forall_app. unfold spaces_before.
  split; [|split].
  - destruct (_ && _); [apply Forall_singleton; discriminate | constructor].
  - destruct (_ && _); [apply Forall_singleton; discriminate | constructor].
  - constructor; [exact Hc | apply IH].
Qed.

Lemma space_every_writes (m k : nat) :
  (0 < m)%nat ->
  writes (space_every (Z.of_nat m) (Z.of_nat k)) (spaces_before m k).
Proof.
  intros Hm. unfold space_every, spaces_before.
  rewrite Z.rem_mod_nonneg, <- Nat2Z.inj_mod by lia.
  replace (Z.of_nat k =? 0) with (k =? 0)%nat.
  2:{ destruct (Nat.eqb_spec k 0), (Z.eqb_spec (Z.of_nat k) 0); lia. }
  replace (Z.of_nat (k mod m) =? 0) with (k mod m =? 0)%nat.
  2:{ destruct (Nat.eqb_spec (k mod m) 0), (Z.eqb_spec (Z.of_nat (k mod m)) 0); lia. }
  destruct (negb (k =? 0)%nat && (k mod m =? 0)%nat).
  - apply writes_put.
  - apply writes_nil.
Qed.

Lemma spaces_before_8_none k : (k mod 8 <> 0)%nat -> spaces_before 8 k = [].
Proof.
  intros Hk. unfold spaces_before.
  destruct (Nat.eqb_spec (k mod 8) 0); [contradiction|].
  now rewrite andb_false_r.
Qed.

(** The placeholders before the field. *)
Lemma skipped_loop_writes n : forall i,
  (i + n <= 8)%nat ->
  writes (for_loop n i
            (fun bit st => st ← space_every 4 (Z.of_nat bit) st; put 46 st))
         (grouped i (replicate n 46)).
Proof.
  induction n as [|n IH]; intros i Hi.
  - apply writes_nil.
  - cbn [replicate]. rewrite grouped_cons.
    assert (E8 : spaces_before 8 i = []).
    { destruct i; [reflexivity|]. apply spaces_before_8_none.
      rewrite Nat.mod_small; lia. }
    rewrite E8. cbn [app].
    set (body := fun (bit : nat) st => st ← space_every 4 (Z.of_nat bit) st; put 46 st).
    apply (writes_ext (fun st => st' ← body i st; for_loop n (S i) body st'));
      [reflexivity|].
    rewrite (cons_middle 46), app_assoc.
    apply writes_seq; [|apply IH; lia].
    apply (writes_seq (space_every 4 (Z.of_nat i)) (put 46) _ [46]).
    + apply (space_every_writes 4 i). lia.
    + apply writes_put.
Qed.

(** The placeholders after the field. *)
Lemma decode_bits_pad_writes fuel : forall b,
  ((8 - b mod 8) mod 8 <= fuel)%nat ->
  writes (fun st => decode_bits_pad fuel st (Z.of_nat b))
         (grouped b (replicate ((8 - b mod 8) mod 8) 46)).
Proof.
  induction fuel as [|fuel IH]; intros b Hb.
  - assert (E : (b mod 8 = 0)%nat) by lia.
    rewrite E. change ((8 - 0) mod 8)%nat with 0%nat. cbn [replicate grouped].
    apply (writes_ext (fun st => Ok st)); [|apply writes_nil].
    intros st. cbn [decode_bits_pad].
    change 8 with (Z.of_nat 8).
    rewrite Z.rem_mod_nonneg, <- Nat2Z.inj_mod, E by lia. reflexivity.
  - destruct (Nat.eq_dec (b mod 8)%nat 0%nat) as [E|Hne].
    + rewrite E. change ((8 - 0) mod 8)%nat with 0%nat. cbn [replicate grouped].
      apply (writes_ext (fun st => Ok st)); [|apply writes_nil].
      intros st. cbn [decode_bits_pad].
      change 8 with (Z.of_nat 8).
      rewrite Z.rem_mod_nonneg, <- Nat2Z.inj_mod, E by lia. reflexivity.
    + assert (Hpad : ((8 - b mod 8) mod 8 = S ((8 - S b mod 8) mod 8))%nat) by lia.
      rewrite Hpad. cbn [replicate]. rewrite grouped_cons.
      rewrite spaces_before_8_none by exact Hne. cbn [app].
      apply (writes_ext
               (fun st => st' ← (fun st => st ← space_every 4 (Z.of_nat b) st; put 46 st) st;
                          decode_bits_pad fuel st' (Z.of_nat (S b)))).
      { intros st. cbn [decode_bits_pad].
        assert (E0 : (Z.rem (Z.of_nat b) 8 =? 0) = false).
        { rewrite Z.rem_mod_nonneg by lia. apply Z.eqb_neq.
          change 8 with (Z.of_nat 8). rewrite <- Nat2Z.inj_mod. lia. }
        rewrite E0, Nat2Z.inj_succ, <- Z.add_1_r.
        now rewrite bind_assoc. }
      rewrite (cons_middle 46), app_assoc.
      apply writes_seq; [|apply IH; lia].
      apply (writes_seq (space_every 4 (Z.of_nat b)) (put 46) _ [46]).
      * apply (space_every_writes 4 b). lia.
      * apply writes_put.
Qed.

Lemma land_pow2_testbit value k :
  (Z.land value (2 ^ Z.of_nat k) =? 0) = negb (Z.testbit value (Z.of_nat k)).
Proof.
  destruct (Z.testbit value (Z.of_nat k)) eqn:Hb; simpl.
  - apply Z.eqb_neq. intros E.
    assert (Ht : Z.testbit (Z.land value (2 ^ Z.of_nat k)) (Z.of_nat k) = true).
    { rewrite Z.land_spec, Hb, Z.pow2_bits_true by lia. reflexivity. }
    rewrite E, Z.bits_0 in Ht. discriminate.
  - apply Z.eqb_eq. apply Z.bits_inj'. intros m Hm.
    rewrite Z.land_spec, Z.bits_0, Z.pow2_bits_eqb by lia.
    destruct (Z.eqb_spec (Z.of_nat k) m) as [<-|_].
    + now rewrite Hb.
    + apply andb_false_r.
Qed.

Lemma bits_from_S value k n :
  bits_from value k (S n)
  = (if Z.testbit value (Z.of_nat k) then 49 else 48) :: bits_from value (k - 1) n.
Proof.
  unfold bits_from. cbn [seq map]. rewrite Nat.sub_0_r. f_equal.
  rewrite <- seq_shift, map_map. apply map_ext. intros j.
  now replace (k - S j)%nat with (k - 1 - j)%nat by lia.
Qed.

Lemma field_writer_writes value n : forall k b,
  (n <= S k)%nat ->
  writes (field_writer value n (Z.of_nat b) (2 ^ Z.of_nat k))
         (grouped b (bits_from value k n)).
Proof.
  induction n as [|n IH]; intros k b Hn.
  - apply (writes_ext (fun st => Ok st)); [reflexivity | apply writes_nil].
  - rewrite bits_from_S, grouped_cons.
    set (c := if Z.testbit value (Z.of_nat k) then 49 else 48).
    apply (writes_ext
             (fun st => st' ← (fun st => st ← space_every 4 (Z.of_nat b) st;
                                 (fun st => st ← space_every 8 (Z.of_nat b) st;
                                    put c st) st) st;
                        field_writer value n (Z.of_nat (S b)) (2 ^ Z.of_nat (k - 1)) st')).
    { intros st. cbn [field_writer].
      rewrite land_pow2_testbit, negb_involutive. fold c.
      assert (Em : forall st', field_writer value n (Z.of_nat b + 1)
                                 (Z.shiftr (2 ^ Z.of_nat k) 1) st'
                               = field_writer value n (Z.of_nat (S b))
                                   (2 ^ Z.of_nat (k - 1)) st').
      { intros st'. replace (Z.of_nat b + 1) with (Z.of_nat (S b)) by lia.
        destruct n as [|n']; [reflexivity|].
        rewrite Z.shiftr_div_pow2 by lia. change (2 ^ 1) with 2.
        replace (Z.of_nat k) with (Z.succ (Z.of_nat (k - 1))) at 1 by lia.
        rewrite Z.pow_succ_r by lia.
        rewrite Z.mul_comm, Z.div_mul by lia. reflexivity. }
      destruct (space_every 4 (Z.of_nat b) st) as [st1| | |]; [|reflexivity..].
      rewrite !bind_Ok.
      destruct (space_every 8 (Z.of_nat b) st1) as [st2| | |]; [|reflexivity..].
      rewrite !bind_Ok.
      destruct (put c st2) as [st3| | |]; [|reflexivity..].
      rewrite !bind_Ok. symmetry. apply Em. }
    rewrite (cons_middle c), !app_assoc.
    apply writes_seq; [|apply IH; lia].
    rewrite <- app_assoc.
    apply (writes_seq (space_every 4 (Z.of_nat b))).
    { apply (space_every_writes 4 b). lia. }
    apply (writes_seq (space_every 8 (Z.of_nat b)) (put c) _ [c]).
    { apply (space_every_writes 8 b). lia. }
    apply writes_put.
Qed.

(** The field loop threads its counters beside what it writes. *)
Lemma field_loop_split value n : forall i st bit mask,
  for_loop n i
    (fun _ '(st, bit, mask) =>
       st ← space_every 4 bit st;
       st ← space_every 8 bit st;
       let bit := bit + 1 in
       st ← put (if negb (Z.land value mask =? 0) then 49 else 48) st;
       Ok (st, bit, Z.shiftr mask 1))
    (st, bit, mask)
  = (st' ← field_writer value n bit mask st;
     Ok (st', bit + Z.of_nat n, Z.shiftr mask (Z.of_nat n))).
Proof.
  induction n as [|n IH]; intros i st bit mask.
  - cbn [for_loop field_writer]. rewrite bind_Ok.
    now rewrite Z.add_0_r, Z.shiftr_0_r.
  - cbn [for_loop field_writer]. cbv beta iota zeta.
    destruct (space_every 4 bit st) as [st1| | |]; [|reflexivity..].
    rewrite !bind_Ok.
    destruct (space_every 8 bit st1) as [st2| | |]; [|reflexivity..].
    rewrite !bind_Ok.
    destruct (put _ st2) as [st3| | |]; [|reflexivity..].
    rewrite !bind_Ok, IH.
    destruct (field_writer value n (bit + 1) (Z.shiftr mask 1) st3)
      as [st4| | |]; [|reflexivity..].
    rewrite !bind_Ok.
    rewrite Z.shiftr_shiftr by lia.
    do 3 f_equal; [lia | f_equal; lia].
Qed.

Lemma field_bits_chars n value : Forall (fun c => c <> NUL) (field_bits n value).
Proof.
  unfold field_bits. apply Forall_map, Forall_forall. intros j _.
  simpl. destruct (Z.testbit _ _); discriminate.
Qed.

Lemma replicate_chars n c : c <> NUL -> Forall (fun c => c <> NUL) (replicate n c).
Proof. intros Hc. apply Forall_replicate. exact Hc. Qed.

(** The call on any offset and any width of at least one bit. *)
Lemma decode_bits_in_field_ok bit_offset no_of_bits value :
  1 <= no_of_bits ->
  let off := Z.to_nat (Z.land bit_offset 7) in
  let n := Z.to_nat (Z.min 64 no_of_bits) in
  let text := grouped 0 (bit_symbols off n value) in
  decode_bits_in_field bit_offset no_of_bits value
  = Ok (text ++ drop (length text) (wmem_alloc0 (256 + 64)))
  /\ (length text < 256 + 64)%nat.
Proof.
  intros Hn off n text.
  assert (Hoff : 0 <= Z.land bit_offset 7 < 8).
  { change 7 with (Z.ones 3). rewrite Z.land_ones by lia.
    change (2 ^ 3) with 8. lia. }
  assert (Hn64 : (1 <= n <= 64)%nat) by (unfold n; lia).
  assert (Hsyms : (length (bit_symbols off n value) <= 78)%nat).
  { unfold bit_symbols, field_bits.
    rewrite !length_app, !length_replicate, length_map, length_seq.
    unfold off. lia. }
  assert (Hlen : (length text < 256 + 64)%nat).
  { unfold text. pose proof (length_grouped 0 (bit_symbols off n value)). lia. }
  split; [|exact Hlen].
  unfold decode_bits_in_field.
  replace (if 64 <? no_of_bits then 64 else no_of_bits) with (Z.of_nat n).
  2:{ unfold n. destruct (Z.ltb_spec 64 no_of_bits); lia. }
  unfold shl64.
  assert (Eshift : (0 <=? Z.of_nat n - 1) && (Z.of_nat n - 1 <? 64) = true).
  { apply andb_true_intro. split; [apply Z.leb_le|apply Z.ltb_lt]; lia. }
  rewrite Eshift, bind_Ok, Z.shiftl_1_l.
  replace (to_guint64 (2 ^ (Z.of_nat n - 1))) with (2 ^ Z.of_nat (n - 1)).
  2:{ unfold to_guint64. replace (Z.of_nat n - 1) with (Z.of_nat (n - 1)) by lia.
      symmetry. apply Z.mod_small. split; [apply Z.pow_nonneg; lia|].
      change 18446744073709551616 with (2 ^ 64).
      apply Z.pow_lt_mono_r; lia. }
  set (buf := wmem_alloc0 (256 + 64)).
  assert (Hbuf : length buf = (256 + 64)%nat) by apply length_replicate.
  fold off. rewrite Nat2Z.id.
  set (d1 := grouped 0 (replicate off 46)).
  set (d2 := grouped off (bits_from value (n - 1) n)).
  set (d3 := grouped (off + n) (replicate ((8 - (off + n) mod 8) mod 8) 46)).
  assert (Etext : text = ([] ++ d1) ++ d2 ++ d3).
  { unfold text, bit_symbols, d1, d2, d3.
    rewrite !grouped_app, length_replicate.
    unfold field_bits at 2. rewrite length_map, length_seq. reflexivity. }
  assert (Hd : (length d1 + length d2 + length d3 < 256 + 64)%nat).
  { rewrite Etext in Hlen. rewrite !length_app in Hlen. simpl in Hlen. lia. }
  change (buf, 0%nat) with ([] ++ drop (length (@nil Z)) buf, length (@nil Z)).
  rewrite (writes_over _ _ _ buf _ (skipped_loop_writes off 0 ltac:(unfold off; lia)))
    by (fold d1; simpl; lia).
  fold d1.
  replace (Z.land bit_offset 7) with (Z.of_nat off) by (unfold off; lia).
  rewrite field_loop_split, bind_assoc.
  rewrite (writes_over _ _ _ buf _
             (field_writer_writes value n (n - 1) off ltac:(lia)))
    by (fold d2; rewrite length_app; simpl; lia).
  fold d2. rewrite bind_Ok. cbv beta iota.
  rewrite <- Nat2Z.inj_add.
  rewrite (writes_over _ _ _ buf _
             (decode_bits_pad_writes loop_fuel (off + n)
                ltac:(unfold loop_fuel; lia)))
    by (fold d3; rewrite !length_app; simpl; lia).
  fold d3. rewrite Etext, <- !app_assoc. reflexivity.
Qed.

Lemma c_str_over_zeros text n :
  Forall (fun c => c <> NUL) text -> (length text < n)%nat ->
  c_str (text ++ drop (length text) (wmem_alloc0 n)) = Some text.
Proof.
  intros Ht Hn. unfold wmem_alloc0. rewrite drop_replicate.
  destruct (n - length text)%nat as [|k] eqn:E; [lia|].
  cbn [replicate]. now apply c_str_app.
Qed.

Lemma bit_symbols_chars off n value :
  Forall (fun c => c <> NUL) (bit_symbols off n value).
Proof.
  unfold bit_symbols. rewrite !Forall_app.
  split; [|split].
  - apply replicate_chars. discriminate.
  - apply field_bits_chars.
  - apply replicate_chars. discriminate.
Qed.

(** C9: for every bit offset in 0-7, field width of at least 1 and
    64-bit value, [decode_bits_in_field] gives one ['.'] per skipped
    bit, then [min(64, width)] characters ['1']/['0'], most significant
    bit first from bit position [min(64, width) - 1], then ['.']
    placeholders up to a multiple of 8 bits, with a space before every
    fourth bit and one more before every eighth; a width beyond 64
    counts as 64; offset 3, width 5 and value 0b10110 give
    "...1 0110". *)
Theorem decode_bits_in_field_pattern (bit_offset no_of_bits value : Z) :
  0 <= bit_offset <= 7 -> 1 <= no_of_bits ->
  let off := Z.to_nat bit_offset in
  let n := Z.to_nat (Z.min 64 no_of_bits) in
  (exists s, decode_bits_in_field bit_offset no_of_bits value = Ok s
             /\ c_str s = Some (grouped 0 (bit_symbols off n value)))
  /\ (length (bit_symbols off n value) mod 8 = 0)%nat
  /\ (forall j, (j < n)%nat ->
        field_bits n value !! j
        = Some (if Z.testbit value (Z.of_nat (n - 1 - j)) then 49 else 48))
  /\ (exists s, decode_bits_in_field 3 5 22 = Ok s
                /\ c_str s = Some (str "...1 0110")).
Proof.
  intros Hoff Hn off n.
  assert (Eoff : Z.land bit_offset 7 = bit_offset).
  { change 7 with (Z.ones 3). rewrite Z.land_ones by lia.
    change (2 ^ 3) with 8. apply Z.mod_small. lia. }
  split; [|split; [|split]].
  - destruct (decode_bits_in_field_ok bit_offset no_of_bits value Hn) as [E Hlen].
    cbv zeta in E, Hlen. rewrite Eoff in E, Hlen. fold off n in E, Hlen.
    eexists. split; [exact E|].
    apply c_str_over_zeros; [|exact Hlen].
    apply grouped_chars, bit_symbols_chars.
  - unfold bit_symbols, field_bits.
    rewrite !length_app, !length_replicate, length_map, length_seq. lia.
  - intros j Hj. unfold field_bits.
    rewrite list_lookup_fmap, lookup_seq_lt by lia. reflexivity.
  - destruct (decode_bits_in_field_ok 3 5 22 ltac:(lia)) as [E Hlen].
    eexists. split; [exact E|].
    apply (c_str_over_zeros (grouped 0 (bit_symbols 3 5 22))); [|exact Hlen].
    apply grouped_chars, bit_symbols_chars.
Qed.

Lemma decode_bits_in_field_pattern_witness :
  (exists s, decode_bits_in_field 3 5 22 = Ok s
             /\ c_str s = Some (str "...1 0110"))
  /\ (exists s, decode_bits_in_field 7 70 22 = Ok s
                /\ c_str s = Some (grouped 0 (bit_symbols 7 64 22))).
Proof.
  split.
  - destruct (decode_bits_in_field_pattern 3 5 22) as ((s & E & Hs) & _);
      [lia | lia |].
    exists s. split; [exact E | exact Hs].
  - destruct (decode_bits_in_field_pattern 7 70 22) as ((s & E & Hs) & _);
      [lia | lia |].
    exists s. split; [exact E | exact Hs].
Defined.

(** C10: [decode_bits_in_field] has the precondition
    [no_of_bits >= 1]: the amount [min(64, no_of_bits) - 1] by which it
    shifts the 64-bit constant 1 lies in the defined range [0, 63]
    exactly when [no_of_bits >= 1]; under that precondition the call
    returns, and with [no_of_bits <= 0] it is a shift by a negative
    amount, which is undefined. *)
Theorem decode_bits_in_field_width_precondition (bit_offset no_of_bits value : Z) :
  let shift := (if 64 <? no_of_bits then 64 else no_of_bits) - 1 in
  (0 <= shift <= 63 <-> 1 <= no_of_bits)
  /\ (1 <= no_of_bits ->
      shl64 1 shift = Ok (2 ^ shift)
      /\ exists s, decode_bits_in_field bit_offset no_of_bits value = Ok s)
  /\ (no_of_bits <= 0 ->
      shift < 0
      /\ shl64 1 shift = Undefined
      /\ decode_bits_in_field bit_offset no_of_bits value = Undefined).
Proof.
  cbv zeta. split; [|split].
  - destruct (Z.ltb_spec 64 no_of_bits); lia.
  - intros Hn. split.
    + unfold shl64, to_guint64.
      assert (Hs : 0 <= (if 64 <? no_of_bits then 64 else no_of_bits) - 1 < 64)
        by (destruct (Z.ltb_spec 64 no_of_bits); lia).
      destruct Hs as [Hs0 Hs1].
      apply Z.leb_le in Hs0 as E0. apply Z.ltb_lt in Hs1 as E1.
      rewrite E0, E1, Z.shiftl_1_l. cbn [andb]. f_equal.
      apply Z.mod_small. split; [apply Z.pow_nonneg; lia|].
      change 18446744073709551616 with (2 ^ 64).
      apply Z.pow_lt_mono_r; lia.
    + destruct (decode_bits_in_field_ok bit_offset no_of_bits value Hn) as [E _].
      eexists. exact E.
  - intros Hn.
    assert (E : (64 <? no_of_bits) = false) by (apply Z.ltb_ge; lia).
    assert (E0 : (0 <=? no_of_bits - 1) = false) by (apply Z.leb_gt; lia).
    unfold decode_bits_in_field, shl64. rewrite E, E0.
    split; [lia|]. split; reflexivity.
Qed.

Lemma decode_bits_in_field_width_precondition_witness :
  (exists s, decode_bits_in_field 3 1 1 = Ok s)
  /\ decode_bits_in_field 3 0 1 = Undefined
  /\ decode_bits_in_field 3 (-5) 1 = Undefined.
Proof.
  split; [|split].
  - destruct (decode_bits_in_field_width_precondition 3 1 1) as (_ & Hok & _).
    destruct (Hok ltac:(lia)) as [_ Hs]. exact Hs.
  - destruct (decode_bits_in_field_width_precondition 3 0 1) as (_ & _ & Hu).
    destruct (Hu ltac:(lia)) as (_ & _ & E). exact E.
  - destruct (decode_bits_in_field_width_precondition 3 (-5) 1) as (_ & _ & Hu).
    destruct (Hu ltac:(lia)) as (_ & _ & E). exact E.
Defined.

(** ** The duration formatter *)

(** C3 (the code at the minimum 32-bit value): the call does not
    overflow and writes a single leading ['-'], but what follows is the
    decomposition of 4294967295 ([G_MAXUINT32], which the code passes
    as the absolute value), not that of the magnitude 2147483648. *)
Theorem signed_time_secs_min_int32 :
  signed_time_secs_to_str_buf G_MININT32 0 false []
  = str "-49710 days, 6 hours, 28 minutes, 15 seconds"
  /\ signed_time_secs_to_str_buf G_MININT32 0 false []
     = str "-" ++ unsigned_time_secs_to_str_buf 4294967295 0 false []
  /\ str "-" ++ unsigned_time_secs_to_str_buf 2147483648 0 false []
     = str "-24855 days, 3 hours, 14 minutes, 8 seconds"
  /\ signed_time_secs_to_str_buf G_MININT32 0 false []
     <> str "-" ++ unsigned_time_secs_to_str_buf 2147483648 0 false []
  /\ signed_time_secs_to_str_buf (G_MININT32 + 1) 0 false []
     = str "-24855 days, 3 hours, 14 minutes, 7 seconds".
Proof.
  split; [vm_compute; reflexivity|].
  split; [vm_compute; reflexivity|].
  split; [vm_compute; reflexivity|].
  split; [vm_compute; discriminate|].
  vm_compute; reflexivity.
Qed.

(** ** The IPv6 formatter *)

Lemma g_snprintf_fits buf text n :
  Z.of_nat (length text) < n < 18446744073709551616 ->
  n <= Z.of_nat (length buf) ->
  g_snprintf buf (to_gsize n) text
  = Ok (text ++ NUL :: drop (S (length text)) buf, Z.of_nat (length text)).
Proof.
  intros Hn Hb. unfold g_snprintf, to_gsize.
  rewrite Z.mod_small by lia.
  destruct (Z.eqb_spec n 0) as [->|_]; [lia|].
  rewrite Z.min_l, Nat2Z.id, take_ge by lia.
  rewrite write_at_0 by (rewrite length_app; simpl; lia).
  rewrite bind_Ok, length_app, <- app_assoc. simpl.
  now rewrite Nat.add_1_r.
Qed.

Lemma g_strlcpy_fits buf text n :
  Z.of_nat (length text) < n < 18446744073709551616 ->
  n <= Z.of_nat (length buf) ->
  g_strlcpy buf text (to_gsize n)
  = Ok (text ++ NUL :: drop (S (length text)) buf, Z.of_nat (length text)).
Proof. exact (g_snprintf_fits buf text n). Qed.

Section Ip6Properties.
Context `{InetNtop}.

(** C4 (the code when the text fits): [ip6_to_str_buf_with_pfx] stores
    the prefix and the address text and a terminator, and returns one
    less than the number of characters stored, where [ip6_to_str_buf]
    returns that number. *)
Theorem ip6_to_str_buf_with_pfx_returns (addr : list Z) (buf : list gchar)
    (buf_size : Z) (prefix : option (list gchar)) :
  let text := match prefix with None => [] | Some p => p end
              ++ ws_inet_ntop6 addr in
  Z.of_nat (length text) < buf_size < 2147483648 ->
  buf_size <= Z.of_nat (length buf) ->
  ip6_to_str_buf_with_pfx addr buf buf_size prefix
  = Ok (text ++ NUL :: drop (S (length text)) buf, Z.of_nat (length text) - 1)
  /\ (prefix = None ->
      ip6_to_str_buf addr buf buf_size
      = Ok (text ++ NUL :: drop (S (length text)) buf, Z.of_nat (length text))).
Proof.
  intros text Hs Hb. split.
  - unfold ip6_to_str_buf_with_pfx.
    replace (match prefix with None => str "" | Some p => p end)
      with (match prefix with None => [] | Some p => p end)
      by (destruct prefix; reflexivity).
    fold text. rewrite g_snprintf_fits by lia.
    rewrite bind_Ok. cbv beta iota.
    assert (E : (buf_size - 1 <? Z.of_nat (length text) - 1) = false)
      by (apply Z.ltb_ge; lia).
    now rewrite E.
  - intros ->. unfold ip6_to_str_buf. subst text. cbn [app] in *.
    rewrite g_strlcpy_fits by lia.
    rewrite bind_Ok. cbv beta iota.
    assert (E : (buf_size - 1 <? Z.of_nat (length (ws_inet_ntop6 addr))) = false)
      by (apply Z.ltb_ge; lia).
    now rewrite E.
Qed.

End Ip6Properties.

Lemma ip6_to_str_buf_with_pfx_returns_witness :
  @ip6_to_str_buf_with_pfx test_ntop [0;0;0;0;0;0;0;0;0;0;0;0;0;0;0;1]
     (replicate 46 88) 46 None
  = Ok (str "::1" ++ NUL :: replicate 42 88, 2)
  /\ @ip6_to_str_buf test_ntop [0;0;0;0;0;0;0;0;0;0;0;0;0;0;0;1]
       (replicate 46 88) 46
     = Ok (str "::1" ++ NUL :: replicate 42 88, 3).
Proof.
  destruct (@ip6_to_str_buf_with_pfx_returns test_ntop
              [0;0;0;0;0;0;0;0;0;0;0;0;0;0;0;1] (replicate 46 88) 46 None)
    as [Hpfx Hplain]; [vm_compute; intuition discriminate | vm_compute; discriminate |].
  split; [exact Hpfx | exact (Hplain eq_refl)].
Defined.

(** At the boundary, where the text is one character too long for the
    buffer, [ip6_to_str_buf_with_pfx] leaves the cut text and returns
    its length, where [ip6_to_str_buf] leaves the sentinel. *)
Lemma ip6_to_str_buf_with_pfx_boundary :
  @ip6_to_str_buf_with_pfx test_ntop [0;0;0;0;0;0;0;0;0;0;0;0;0;0;0;1]
     (replicate 3 88) 3 None
  = Ok (str "::" ++ [NUL], 2)
  /\ @ip6_to_str_buf test_ntop [0;0;0;0;0;0;0;0;0;0;0;0;0;0;0;1]
       (replicate 3 88) 3
     = Ok (str "[B" ++ [NUL], 18).
Proof. split; reflexivity. Qed.

(** * Further properties of the encoders *)

(** ** The digit table *)

Lemma c_str_Some buf s :
  c_str buf = Some s ->
  exists rest, buf = s ++ NUL :: rest /\ Forall (fun c => c <> NUL) s.
Proof.
  revert s. induction buf as [|c buf IH]; intros s E; [discriminate|].
  simpl in E. destruct (Z.eqb_spec c NUL) as [->|Hc].
  - injection E as <-. exists buf. split; [reflexivity|constructor].
  - destruct (c_str buf) as [s'|]; [|discriminate].
    injection E as <-. destruct (IH s' eq_refl) as (rest & -> & Hs).
    exists rest. split; [reflexivity|]. now constructor.
Qed.

Lemma fast_strings_entry (i : Z) :
  0 <= i < 256 ->
  exists p, fast_strings !! Z.to_nat i = Some p
            /\ length p = 4%nat
            /\ c_str p = Some (decimal_text i).
Proof.
  intros Hi.
  assert (Hall : forallb fast_entry_ok (seq 0 256) = true) by (vm_compute; reflexivity).
  rewrite forallb_forall in Hall.
  specialize (Hall (Z.to_nat i) ltac:(apply in_seq; lia)).
  unfold fast_entry_ok in Hall.
  destruct (fast_strings !! Z.to_nat i) as [p|]; [|discriminate].
  apply andb_prop in Hall as [Hl Hc].
  apply Nat.eqb_eq in Hl. apply bool_decide_eq_true in Hc.
  rewrite Z2Nat.id in Hc by lia.
  exists p. repeat split; assumption.
Qed.

(** X1: every entry [i] of [fast_strings], for a byte value [i], is a
    four-byte array that holds the canonical decimal text of [i] and
    its terminator. *)
Theorem fast_strings_decimal (i : Z) :
  0 <= i < 256 ->
  exists p, fast_strings !! Z.to_nat i = Some p
            /\ length p = 4%nat
            /\ c_str p = Some (decimal_text i).
Proof.
  intros Hi.
  assert (Hall : forallb fast_entry_ok (seq 0 256) = true) by (vm_compute; reflexivity).
  rewrite forallb_forall in Hall.
  specialize (Hall (Z.to_nat i) ltac:(apply in_seq; lia)).
  unfold fast_entry_ok in Hall.
  destruct (fast_strings !! Z.to_nat i) as [p|]; [|discriminate].
  apply andb_prop in Hall as [Hl Hc].
  apply Nat.eqb_eq in Hl. apply bool_decide_eq_true in Hc.
  rewrite Z2Nat.id in Hc by lia.
  exists p. repeat split; assumption.
Qed.

Lemma fast_strings_decimal_witness :
  exists p, fast_strings !! 255%nat = Some p
            /\ length p = 4%nat
            /\ c_str p = Some (str "255").
Proof.
  destruct (fast_strings_decimal 255) as (p & E & Hl & Hc); [lia|].
  exists p. repeat split; assumption.
Defined.

(** ** The IPv4 formatter *)

Lemma copy_fast_string_writes text : forall fuel pre rest,
  text <> [] -> Forall (fun c => c <> NUL) text ->
  (length text <= fuel)%nat ->
  writes (copy_fast_string fuel (pre ++ text ++ NUL :: rest) (length pre)) text.
Proof.
  induction text as [|c t IH]; intros fuel pre rest Hne Hnz Hfuel; [contradiction|].
  destruct fuel as [|fuel]; [simpl in Hfuel; lia|].
  apply Forall_cons in Hnz as [Hc Ht].
  set (p := pre ++ (c :: t) ++ NUL :: rest).
  assert (E0 : load p (length pre) = Ok c)
    by (apply load_Some; unfold p; now apply list_lookup_middle).
  destruct t as [|c2 t'].
  - assert (E1 : load p (S (length pre)) = Ok NUL).
    { apply load_Some. unfold p.
      replace (pre ++ [c] ++ NUL :: rest) with ((pre ++ [c]) ++ NUL :: rest)
        by now rewrite <- app_assoc.
      apply list_lookup_middle. rewrite length_app. simpl. lia. }
    apply (writes_ext (put c)); [|apply writes_put].
    intros st. cbn [copy_fast_string]. rewrite E0, bind_Ok.
    destruct (put c st) as [st'| | |]; [|reflexivity..].
    now rewrite bind_Ok, E1, bind_Ok.
  - apply Forall_cons in Ht as Ht'. destruct Ht' as [Hc2 _].
    assert (E1 : load p (S (length pre)) = Ok c2).
    { apply load_Some. unfold p.
      replace (pre ++ (c :: c2 :: t') ++ NUL :: rest)
        with ((pre ++ [c]) ++ c2 :: (t' ++ NUL :: rest))
        by now rewrite <- app_assoc.
      apply list_lookup_middle. rewrite length_app. simpl. lia. }
    assert (E2 : (c2 =? NUL) = false) by now apply Z.eqb_neq.
    apply (writes_ext (fun st => st' ← put c st;
                         copy_fast_string fuel p (S (length pre)) st')).
    { intros st. cbn [copy_fast_string]. rewrite E0, bind_Ok.
      destruct (put c st) as [st'| | |]; [|reflexivity..].
      now rewrite !bind_Ok, E1, bind_Ok, E2. }
    apply (writes_seq (put c) _ [c]); [apply writes_put|].
    specialize (IH fuel (pre ++ [c]) rest ltac:(discriminate) Ht
                  ltac:(simpl in Hfuel |- *; lia)).
    rewrite length_app, Nat.add_1_r, <- app_assoc in IH. exact IH.
Qed.

Lemma decimal_text_nonempty v : decimal_text v <> [].
Proof.
  unfold decimal_text.
  assert (Hn : forall d, d <> Decimal.Nil ->
                         str (NilZero.string_of_uint d) <> []).
  { intros d Hd. destruct d; try contradiction; discriminate. }
  apply Hn. destruct (Z.to_N v); [discriminate|].
  apply DecimalPos.Unsigned.to_uint_nonnil.
Qed.

(** One octet of the address, copied from the table. *)
Lemma octet_writes a :
  0 <= a < 256 ->
  exists p, load fast_strings (Z.to_nat a) = Ok p
            /\ writes (copy_fast_string loop_fuel p 0) (decimal_text a)
            /\ (1 <= length (decimal_text a) <= 3)%nat.
Proof.
  intros Ha. destruct (fast_strings_entry a Ha) as (p & E & Hl & Hc).
  destruct (c_str_Some _ _ Hc) as (rest & -> & Hnz).
  pose proof (decimal_text_nonempty a) as Hne.
  assert (Hlen : (1 <= length (decimal_text a) <= 3)%nat).
  { rewrite length_app in Hl. simpl in Hl.
    destruct (decimal_text a); [contradiction|]. simpl in *. lia. }
  exists (decimal_text a ++ NUL :: rest).
  split; [now apply load_Some|]. split; [|exact Hlen].
  apply (copy_fast_string_writes (decimal_text a) loop_fuel [] rest Hne Hnz).
  unfold loop_fuel. lia.
Qed.

Lemma ip_to_str_buf_fits a0 a1 a2 a3 buf buf_len :
  0 <= a0 < 256 -> 0 <= a1 < 256 -> 0 <= a2 < 256 -> 0 <= a3 < 256 ->
  WS_INET_ADDRSTRLEN <= buf_len -> (16 <= length buf)%nat ->
  ip_to_str_buf [a0; a1; a2; a3] buf buf_len
  = Ok (ipv4_text a0 a1 a2 a3
          ++ NUL :: drop (S (length (ipv4_text a0 a1 a2 a3))) buf)
  /\ (7 <= length (ipv4_text a0 a1 a2 a3) <= 15)%nat.
Proof.
  intros H0 H1 H2 H3 Hcap Hbuf.
  destruct (octet_writes a0 H0) as (p0 & E0 & W0 & L0).
  destruct (octet_writes a1 H1) as (p1 & E1 & W1 & L1).
  destruct (octet_writes a2 H2) as (p2 & E2 & W2 & L2).
  destruct (octet_writes a3 H3) as (p3 & E3 & W3 & L3).
  assert (Hlen : (7 <= length (ipv4_text a0 a1 a2 a3) <= 15)%nat).
  { unfold ipv4_text. rewrite !length_app. simpl. lia. }
  split; [|exact Hlen].
  unfold ip_to_str_buf.
  assert (E : (buf_len <? WS_INET_ADDRSTRLEN) = false) by (apply Z.ltb_ge; lia).
  rewrite E.
  change (load [a0; a1; a2; a3] 0) with (Ok a0).
  change (load [a0; a1; a2; a3] 1) with (Ok a1).
  change (load [a0; a1; a2; a3] 2) with (Ok a2).
  change (load [a0; a1; a2; a3] 3) with (Ok a3).
  rewrite bind_Ok, E0, bind_Ok.
  change (buf, 0%nat) with ([] ++ drop (length (@nil Z)) buf, length (@nil Z)).
  rewrite (writes_over _ _ _ buf _ W0) by (simpl; lia).
  rewrite (writes_over _ _ _ buf _ (writes_put 46))
    by (rewrite ?length_app; simpl; lia).
  rewrite bind_Ok, E1, bind_Ok.
  rewrite (writes_over _ _ _ buf _ W1) by (rewrite ?length_app; simpl; lia).
  rewrite (writes_over _ _ _ buf _ (writes_put 46))
    by (rewrite ?length_app; simpl; lia).
  rewrite bind_Ok, E2, bind_Ok.
  rewrite (writes_over _ _ _ buf _ W2) by (rewrite ?length_app; simpl; lia).
  rewrite (writes_over _ _ _ buf _ (writes_put 46))
    by (rewrite ?length_app; simpl; lia).
  rewrite bind_Ok, E3, bind_Ok.
  rewrite (writes_over _ _ _ buf _ W3) by (rewrite ?length_app; simpl; lia).
  match goal with
  | |- store (?w ++ _) _ _ = _ =>
      assert (Hw : w = ipv4_text a0 a1 a2 a3)
        by (unfold ipv4_text; simpl; rewrite <- !app_assoc; reflexivity)
  end.
  rewrite Hw, store_over by lia. reflexivity.
Qed.

(** X2: [ip_to_str_buf] on four address bytes and a capacity of at
    least 16 stores the dotted-decimal text, of 7 to 15 characters,
    and its terminator, and touches nothing after it; with a smaller
    capacity it stores the sentinel cut to the capacity. *)
Theorem ip_to_str_buf_dotted (a0 a1 a2 a3 : Z) (buf : list gchar) (buf_len : Z) :
  0 <= a0 < 256 -> 0 <= a1 < 256 -> 0 <= a2 < 256 -> 0 <= a3 < 256 ->
  0 <= buf_len <= Z.of_nat (length buf) ->
  let text := ipv4_text a0 a1 a2 a3 in
  (7 <= length text <= 15)%nat
  /\ (16 <= buf_len ->
      ip_to_str_buf [a0; a1; a2; a3] buf buf_len
      = Ok (text ++ NUL :: drop (S (length text)) buf)
      /\ c_str (text ++ NUL :: drop (S (length text)) buf) = Some text)
  /\ (buf_len < 16 ->
      ip_to_str_buf [a0; a1; a2; a3] buf buf_len
      = Ok (truncated_to (Z.to_nat buf_len) BUF_TOO_SMALL_ERR
              ++ drop (Z.to_nat buf_len) buf)).
Proof.
  intros H0 H1 H2 H3 Hb text.
  assert (Hnz : Forall (fun c => c <> NUL) text).
  { unfold text, ipv4_text. rewrite !Forall_app.
    assert (Hd : forall a, 0 <= a < 256 ->
                           Forall (fun c => c <> NUL) (decimal_text a)).
    { intros a Ha. destruct (fast_strings_entry a Ha) as (p & _ & _ & Hc).
      now destruct (c_str_Some _ _ Hc) as (rest & _ & Hnz). }
    repeat split; try (now apply Hd); apply Forall_singleton; discriminate. }
  destruct (Z_lt_le_dec buf_len 16) as [Hs|Hf].
  - assert (Hlen : (7 <= length text <= 15)%nat).
    { destruct (ip_to_str_buf_fits a0 a1 a2 a3 (replicate 16 0) 16 H0 H1 H2 H3)
        as [_ Hl]; [unfold WS_INET_ADDRSTRLEN; lia
                   | rewrite length_replicate; lia | exact Hl]. }
    split; [exact Hlen|]. split; [lia|]. intros _.
    unfold ip_to_str_buf, WS_INET_ADDRSTRLEN.
    assert (E : (buf_len <? 16) = true) by (apply Z.ltb_lt; lia).
    rewrite E, g_strlcpy_truncates by lia.
    rewrite bind_Ok, length_truncated_to.
    change (length BUF_TOO_SMALL_ERR) with 18%nat.
    now replace (Z.to_nat buf_len `min` 19)%nat with (Z.to_nat buf_len) by lia.
  - destruct (ip_to_str_buf_fits a0 a1 a2 a3 buf buf_len H0 H1 H2 H3)
      as [E Hlen]; [unfold WS_INET_ADDRSTRLEN; lia | lia |].
    split; [exact Hlen|]. split; [|lia]. intros _.
    split; [exact E|]. now apply c_str_app.
Qed.

Lemma ip_to_str_buf_dotted_witness :
  ip_to_str_buf [192; 168; 1; 1] (replicate 16 88) 16
  = Ok (str "192.168.1.1" ++ NUL :: replicate 4 88)
  /\ ip_to_str_buf [255; 255; 255; 255] (replicate 16 88) 15
     = Ok (str "[Buffer too sm" ++ [NUL; 88]).
Proof.
  split.
  - destruct (ip_to_str_buf_dotted 192 168 1 1 (replicate 16 88) 16)
      as (_ & Hfit & _); [lia | lia | lia | lia | vm_compute; intuition discriminate |].
    destruct (Hfit ltac:(lia)) as [E _]. exact E.
  - destruct (ip_to_str_buf_dotted 255 255 255 255 (replicate 16 88) 15)
      as (_ & _ & Hsmall); [lia | lia | lia | lia | vm_compute; intuition discriminate |].
    apply Hsmall. lia.
Defined.

(** ** The 64-bit bounded formatter *)

(** X3: for every unsigned 64-bit [u], the cascade
    [guint64_to_str_buf_len] gives the length of the canonical decimal
    text of [u], between 1 and 20; with a capacity of at least that
    count plus one [guint64_to_str_buf] stores the text and its
    terminator and touches nothing after them, and with a smaller
    capacity it stores the sentinel cut to the capacity instead. *)
Theorem guint64_to_str_buf_bounded (u : Z) (buf : list gchar) (buf_len : Z) :
  0 <= u < 18446744073709551616 ->
  0 <= buf_len <= Z.of_nat (length buf) ->
  let n := guint64_to_str_buf_len u in
  Z.of_nat (length (decimal_text u)) = n
  /\ 1 <= n <= 20
  /\ (n + 1 <= buf_len ->
      guint64_to_str_buf u buf buf_len
      = Ok (decimal_text u ++ [NUL] ++ drop (Z.to_nat (n + 1)) buf))
  /\ (buf_len < n + 1 ->
      guint64_to_str_buf u buf buf_len
      = Ok (truncated_to (Z.to_nat buf_len) BUF_TOO_SMALL_ERR
              ++ drop (length (truncated_to (Z.to_nat buf_len) BUF_TOO_SMALL_ERR)) buf)).
Proof.
  intros Hu Hb n.
  pose proof (guint64_to_str_buf_len_count u Hu) as Hc.
  pose proof (guint64_to_str_buf_len_range u) as Hr.
  split; [|split; [|split]].
  - rewrite (length_decimal_text _ _ Hc). unfold n. lia.
  - exact Hr.
  - intros Hfit. apply guint64_to_str_buf_fits; [exact Hu|]. unfold n in Hfit. lia.
  - intros Hsmall. apply guint64_to_str_buf_small; unfold n in Hsmall; lia.
Qed.

Lemma guint64_to_str_buf_bounded_witness :
  guint64_to_str_buf 18446744073709551615 (replicate 21 88) 21
  = Ok (str "18446744073709551615" ++ [NUL])
  /\ guint64_to_str_buf 18446744073709551615 (replicate 21 88) 20
     = Ok (str "[Buffer too small]" ++ [NUL; 88; 88]).
Proof.
  split.
  - destruct (guint64_to_str_buf_bounded 18446744073709551615 (replicate 21 88) 21)
      as (_ & _ & Hfit & _); [lia | vm_compute; intuition discriminate |].
    apply Hfit. vm_compute. discriminate.
  - destruct (guint64_to_str_buf_bounded 18446744073709551615 (replicate 21 88) 20)
      as (_ & _ & _ & Hsmall); [lia | vm_compute; intuition discriminate |].
    apply Hsmall. reflexivity.
Defined.

(** ** The hex encoder, all widths *)

Lemma digit_value_hex_char d : 0 <= d < 16 -> digit_value (hex_char d) = Some d.
Proof.
  intros Hd. unfold digit_value, hex_char.
  destruct (Z.ltb_spec d 10).
  - assert (E : (48 <=? 48 + d) && (48 + d <=? 57) = true).
    { apply andb_true_intro. split; apply Z.leb_le; lia. }
    rewrite E. f_equal. lia.
  - assert (E : (48 <=? 87 + d) && (87 + d <=? 57) = false).
    { apply andb_false_intro2. apply Z.leb_gt. lia. }
    assert (E' : (97 <=? 87 + d) && (87 + d <=? 102) = true).
    { apply andb_true_intro. split; apply Z.leb_le; lia. }
    rewrite E, E'. f_equal. lia.
Qed.

Lemma parse_radix_app b acc s1 s2 :
  parse_radix b acc (s1 ++ s2)
  = match parse_radix b acc s1 with
    | Some acc' => parse_radix b acc' s2
    | None => None
    end.
Proof.
  revert acc. induction s1 as [|c s1 IH]; intros acc; [reflexivity|].
  simpl. destruct (digit_value c) as [d|]; [|reflexivity].
  destruct (d <? b); [apply IH|reflexivity].
Qed.

Lemma parse_hex_text n : forall v acc,
  parse_radix 16 acc (hex_text n v) = Some (acc * 16 ^ Z.of_nat n + v mod 16 ^ Z.of_nat n).
Proof.
  induction n as [|n IH]; intros v acc.
  - simpl. rewrite Z.mod_1_r. f_equal. lia.
  - cbn [hex_text]. rewrite parse_radix_app, IH. cbn [parse_radix].
    rewrite digit_value_hex_char by lia.
    assert (E : (v mod 16 <? 16) = true) by (apply Z.ltb_lt; lia).
    rewrite E. f_equal.
    rewrite Nat2Z.inj_succ, Z.pow_succ_r by lia.
    pose proof (Z.pow_pos_nonneg 16 (Z.of_nat n) ltac:(lia) ltac:(lia)) as Hpos.
    rewrite (Z.rem_mul_r v 16 (16 ^ Z.of_nat n)) by lia.
    ring.
Qed.

Lemma qword_to_hex_writes q : writes (fun st => qword_to_hex st q) (hex_text 16 q).
Proof.
  unfold qword_to_hex, to_guint32.
  change (hex_text 16 q) with (hex_text (8 + 8) q).
  rewrite (hex_text_add 8 8 q). change (16 ^ Z.of_nat 8) with 4294967296.
  rewrite Z.shiftr_div_pow2 by lia. change (2 ^ 32) with 4294967296.
  change 0xffffffff with (Z.ones 32). rewrite Z.land_ones by lia.
  change (2 ^ 32) with 4294967296.
  rewrite (Z.mod_small (q mod 4294967296)) by lia.
  rewrite <- (hex_text_mod 8 8 (q / 4294967296)), <- (hex_text_mod 8 8 q) by lia.
  change (16 ^ Z.of_nat 8) with 4294967296.
  apply (writes_seq (fun st => dword_to_hex st ((q / 4294967296) mod 4294967296))
                    (fun st => dword_to_hex st (q mod 4294967296)));
    apply dword_to_hex_writes.
Qed.

(** X4: [word_to_hex], [dword_to_hex] and [qword_to_hex] store exactly
    4, 8 and 16 lowercase hex digits at the cursor, most significant
    first, leave the cursor after them, store no terminator and touch
    nothing else; reading the digits back as a hex numeral gives the
    value again. *)
Theorem hex_encoders_fixed_width (w d q : Z) (buf : list gchar) (p : nat) :
  0 <= w < 65536 -> 0 <= d < 4294967296 -> 0 <= q < 18446744073709551616 ->
  (p + 16 <= length buf)%nat ->
  word_to_hex (buf, p) w
  = Ok (take p buf ++ hex_text 4 w ++ drop (p + 4) buf, (p + 4)%nat)
  /\ dword_to_hex (buf, p) d
     = Ok (take p buf ++ hex_text 8 d ++ drop (p + 8) buf, (p + 8)%nat)
  /\ qword_to_hex (buf, p) q
     = Ok (take p buf ++ hex_text 16 q ++ drop (p + 16) buf, (p + 16)%nat)
  /\ parse_hex (hex_text 4 w) = Some w
  /\ parse_hex (hex_text 8 d) = Some d
  /\ parse_hex (hex_text 16 q) = Some q
  /\ Forall hex_digit_char (hex_text 4 w ++ hex_text 8 d ++ hex_text 16 q).
Proof.
  intros Hw Hd Hq Hp.
  split; [|split; [|split; [|split; [|split; [|split]]]]].
  - rewrite (writes_at (fun st => word_to_hex st w) (hex_text 4 w))
      by (try apply word_to_hex_writes; rewrite length_hex_text; lia).
    now rewrite length_hex_text.
  - rewrite (writes_at (fun st => dword_to_hex st d) (hex_text 8 d))
      by (try apply dword_to_hex_writes; rewrite length_hex_text; lia).
    now rewrite length_hex_text.
  - rewrite (writes_at (fun st => qword_to_hex st q) (hex_text 16 q))
      by (try apply qword_to_hex_writes; rewrite length_hex_text; lia).
    now rewrite length_hex_text.
  - unfold parse_hex. rewrite parse_hex_text. f_equal.
    change (16 ^ Z.of_nat 4) with 65536. rewrite Z.mod_small; lia.
  - unfold parse_hex. rewrite parse_hex_text. f_equal.
    change (16 ^ Z.of_nat 8) with 4294967296. rewrite Z.mod_small; lia.
  - unfold parse_hex. rewrite parse_hex_text. f_equal.
    change (16 ^ Z.of_nat 16) with 18446744073709551616. rewrite Z.mod_small; lia.
  - rewrite !Forall_app. repeat split; apply hex_text_chars.
Qed.

Lemma hex_encoders_fixed_width_witness :
  qword_to_hex (replicate 18 88, 1%nat) 0x0123456789abcdef
  = Ok (88 :: str "0123456789abcdef" ++ [88], 17%nat)
  /\ parse_hex (str "0123456789abcdef") = Some 0x0123456789abcdef.
Proof.
  destruct (hex_encoders_fixed_width 0xabcd 0x89abcdef 0x0123456789abcdef
              (replicate 18 88) 1%nat)
    as (_ & _ & Hq & _ & _ & Hp & _); [lia | lia | lia | vm_compute; lia |].
  split; [exact Hq | exact Hp].
Defined.

(** ** Byte sequences as hex text *)

Lemma hex_undump_hex_dump bytes :
  Forall (fun b => 0 <= b < 256) bytes ->
  hex_undump (hex_dump bytes) = Some bytes.
Proof.
  induction 1 as [|b bs Hb _ IH]; [reflexivity|].
  change (hex_dump (b :: bs))
    with (hex_char ((b / 16) mod 16) :: hex_char (b mod 16) :: hex_dump bs).
  cbn [hex_undump]. rewrite IH.
  unfold parse_hex. cbn [parse_radix].
  rewrite !digit_value_hex_char by lia.
  assert (E1 : ((b / 16) mod 16 <? 16) = true) by (apply Z.ltb_lt; lia).
  assert (E2 : (b mod 16 <? 16) = true) by (apply Z.ltb_lt; lia).
  rewrite E1, E2. do 2 f_equal. lia.
Qed.

(** X5: [bytes_to_hexstr] on a non-null sequence stores two lowercase
    hex digits for each of the first [len] bytes, leaves the cursor
    after them, stores no terminator and touches nothing else; the
    digits read back as the same bytes; a null pointer ends in the
    fatal report whatever the length. *)
Theorem bytes_to_hexstr_dump (ad : list Z) (len : nat) (buf : list gchar) (p : nat) :
  (len <= length ad)%nat ->
  (p + 2 * len <= length buf)%nat ->
  Forall (fun b => 0 <= b < 256) ad ->
  bytes_to_hexstr (buf, p) (Some ad) len
  = Ok (take p buf ++ hex_dump (take len ad) ++ drop (p + 2 * len) buf,
        (p + 2 * len)%nat)
  /\ length (hex_dump (take len ad)) = (2 * len)%nat
  /\ hex_undump (hex_dump (take len ad)) = Some (take len ad)
  /\ bytes_to_hexstr (buf, p) None len
     = DissectorBug "Null pointer passed to bytes_to_hexstr()".
Proof.
  intros Hlen Hroom Hbytes.
  assert (Hl : length (hex_dump (take len ad)) = (2 * len)%nat).
  { rewrite length_hex_dump, length_take. lia. }
  split; [|split; [|split]].
  - rewrite (writes_at (fun st => bytes_to_hexstr st (Some ad) len)
               (hex_dump (take len ad)))
      by (try (now apply bytes_to_hexstr_writes); lia).
    now rewrite Hl.
  - exact Hl.
  - apply hex_undump_hex_dump. now apply Forall_take.
  - reflexivity.
Qed.

Lemma bytes_to_hexstr_dump_witness :
  bytes_to_hexstr (replicate 8 88, 1%nat) (Some [0x0a; 0xff; 0x10]) 2
  = Ok (88 :: str "0aff" ++ [88; 88; 88], 5%nat)
  /\ hex_undump (str "0aff") = Some [0x0a; 0xff].
Proof.
  destruct (bytes_to_hexstr_dump [0x0a; 0xff; 0x10] 2 (replicate 8 88) 1)
    as (E & _ & Hu & _).
  - simpl. lia.
  - vm_compute. lia.
  - repeat constructor; lia.
  - split; [exact E | exact Hu].
Defined.

(** The loop of [bytes_to_hexstr_punct] over the bytes [bs] that
    follow the [done] ones. *)
Lemma bytes_punct_loop_writes punct bs : forall done rest,
  writes (for_loop (length bs) (length done)
            (fun i st => st ← put punct st;
                         b ← load (done ++ bs ++ rest) i; byte_to_hex st b))
         (concat (map (fun b => punct :: hex_text 2 b) bs)).
Proof.
  induction bs as [|b bs IH]; intros done rest.
  - apply writes_nil.
  - cbn [map concat].
    set (body := fun (i : nat) st =>
                   st ← put punct st;
                   b0 ← load (done ++ (b :: bs) ++ rest) i; byte_to_hex st b0).
    apply (writes_ext
             (fun st => st' ← (fun st => st ← put punct st; byte_to_hex st b) st;
                        for_loop (length bs) (S (length done)) body st')).
    { intros st. cbn [length for_loop]. unfold body.
      destruct (put punct st) as [st1| | |]; [|reflexivity..].
      rewrite !bind_Ok.
      rewrite (load_Some (done ++ (b :: bs) ++ rest) (length done) b)
        by (now apply list_lookup_middle).
      reflexivity. }
    apply writes_seq.
    + apply (writes_seq (put punct) (fun st => byte_to_hex st b) [punct]);
        [apply writes_put | apply byte_to_hex_writes].
    + specialize (IH (done ++ [b]) rest).
      rewrite length_app, Nat.add_1_r in IH.
      eapply writes_ext; [|exact IH].
      intros st. unfold body. now rewrite <- app_assoc.
Qed.

Lemma bytes_to_hexstr_punct_writes b0 tl len punct :
  (len - 1 <= length tl)%nat ->
  writes (fun st => bytes_to_hexstr_punct st (Some (b0 :: tl)) len punct)
         (hex_text 2 b0
          ++ concat (map (fun b => punct :: hex_text 2 b) (take (len - 1) tl))).
Proof.
  intros Hlen. unfold bytes_to_hexstr_punct.
  change (load (b0 :: tl) 0) with (Ok b0).
  apply (writes_ext
           (fun st => st' ← (fun st => byte_to_hex st b0) st;
              for_loop (len - 1) 1
                (fun i st => st ← put punct st;
                             b ← load (b0 :: tl) i; byte_to_hex st b) st'));
    [reflexivity|].
  apply writes_seq; [apply byte_to_hex_writes|].
  pose proof (bytes_punct_loop_writes punct (take (len - 1) tl) [b0]
                (drop (len - 1) tl)) as Hw.
  rewrite length_take, Nat.min_l in Hw by lia.
  cbn [length app] in Hw. rewrite take_drop in Hw. exact Hw.
Qed.

Lemma hex_dump_punct_take punct b0 tl len :
  (1 <= len)%nat ->
  hex_dump_punct punct (take len (b0 :: tl))
  = hex_text 2 b0
    ++ concat (map (fun b => punct :: hex_text 2 b) (take (len - 1) tl)).
Proof.
  intros Hlen. destruct len as [|m]; [lia|].
  replace (S m - 1)%nat with m by lia. reflexivity.
Qed.

Lemma length_hex_dump_punct punct bytes :
  bytes <> [] ->
  length (hex_dump_punct punct bytes) = (3 * length bytes - 1)%nat.
Proof.
  destruct bytes as [|b0 tl]; [contradiction|]. intros _.
  unfold hex_dump_punct. rewrite length_app, length_hex_text.
  assert (E : length (concat (map (fun b => punct :: hex_text 2 b) tl))
              = (3 * length tl)%nat).
  { induction tl as [|b tl IH]; [reflexivity|].
    cbn [map concat]. rewrite length_app. cbn [length].
    rewrite length_hex_text, IH. simpl. lia. }
  rewrite E. simpl. lia.
Qed.

(** X6: [bytes_to_hexstr_punct] on a non-null sequence and a length of
    at least 1 stores the hex digits of the first [len] bytes with
    [punct] between the bytes, [3 * len - 1] characters, leaves the
    cursor after them and touches nothing else; with a length of 0 it
    still reads the first byte and stores its two digits; a null
    pointer ends in the fatal report. *)
Theorem bytes_to_hexstr_punct_dump (b0 : Z) (tl : list Z) (len : nat)
    (punct : gchar) (buf : list gchar) (p : nat) :
  (len <= S (length tl))%nat ->
  (p + Nat.max 2 (3 * len - 1) <= length buf)%nat ->
  (1 <= len ->
   bytes_to_hexstr_punct (buf, p) (Some (b0 :: tl)) len punct
   = Ok (take p buf ++ hex_dump_punct punct (take len (b0 :: tl))
           ++ drop (p + (3 * len - 1)) buf,
         (p + (3 * len - 1))%nat))%nat
  /\ bytes_to_hexstr_punct (buf, p) (Some (b0 :: tl)) 0 punct
     = Ok (take p buf ++ hex_text 2 b0 ++ drop (p + 2) buf, (p + 2)%nat)
  /\ bytes_to_hexstr_punct (buf, p) None len punct
     = DissectorBug "Null pointer passed to bytes_to_hexstr_punct()".
Proof.
  intros Hlen Hroom. split; [|split].
  - intros H1.
    assert (Hl : length (hex_dump_punct punct (take len (b0 :: tl)))
                 = (3 * len - 1)%nat).
    { rewrite length_hex_dump_punct.
      - rewrite length_take. simpl. lia.
      - destruct len; [lia|discriminate]. }
    rewrite (writes_at (fun st => bytes_to_hexstr_punct st (Some (b0 :: tl)) len punct)
               (hex_dump_punct punct (take len (b0 :: tl)))).
    + now rewrite Hl.
    + rewrite hex_dump_punct_take by lia.
      apply bytes_to_hexstr_punct_writes. lia.
    + lia.
  - rewrite (writes_at (fun st => bytes_to_hexstr_punct st (Some (b0 :: tl)) 0 punct)
               (hex_text 2 b0)).
    + now rewrite length_hex_text.
    + pose proof (bytes_to_hexstr_punct_writes b0 tl 0 punct ltac:(simpl; lia)) as Hw.
      cbn [Nat.sub take map concat] in Hw. now rewrite app_nil_r in Hw.
    + rewrite length_hex_text. lia.
  - reflexivity.
Qed.

Lemma bytes_to_hexstr_punct_dump_witness :
  bytes_to_hexstr_punct (replicate 12 88, 1%nat) (Some [0x0a; 0xff; 0x10]) 2 58
  = Ok (88 :: str "0a:ff" ++ replicate 6 88, 6%nat)
  /\ bytes_to_hexstr_punct (replicate 12 88, 1%nat) (Some [0x0a; 0xff; 0x10]) 0 58
     = Ok (88 :: str "0a" ++ replicate 9 88, 3%nat).
Proof.
  destruct (bytes_to_hexstr_punct_dump 0x0a [0xff; 0x10] 2 58 (replicate 12 88) 1)
    as (E & _ & _); [simpl; lia | vm_compute; lia |].
  destruct (bytes_to_hexstr_punct_dump 0x0a [0xff; 0x10] 0 58 (replicate 12 88) 1)
    as (_ & E0 & _); [simpl; lia | vm_compute; lia |].
  split; [exact (E ltac:(lia)) | exact E0].
Defined.

Lemma hex_dump_punct_chars punct bytes :
  punct <> NUL -> Forall (fun c => c <> NUL) (hex_dump_punct punct bytes).
Proof.
  intros Hp. destruct bytes as [|b0 tl]; [constructor|].
  unfold hex_dump_punct. apply Forall_app. split.
  - apply hex_digit_char_nonzero, hex_text_chars.
  - induction tl as [|b tl IH]; [constructor|].
    cbn [map concat]. apply Forall_app. split; [|exact IH].
    constructor; [exact Hp|]. apply hex_digit_char_nonzero, hex_text_chars.
Qed.

Section PunctuatedDump.
Context `{Wmem}.

Lemma bytestring_to_str_punct_some scope b0 tl punct :
  punct <> NUL ->
  let bytes := b0 :: tl in
  let text := hex_dump_punct punct (take 24 bytes)
              ++ (if (24 <? length bytes)%nat
                  then punct :: UTF8_HORIZONTAL_ELLIPSIS else []) in
  bytestring_to_str scope (Some bytes) (length bytes) punct
  = Ok (text ++ NUL :: drop (S (length text)) (wmem_alloc scope 76)).
Proof.
  intros Hp. cbv zeta. unfold bytestring_to_str.
  change (MAX_BYTE_STR_LEN + 3 + 1)%nat with 76%nat.
  change (MAX_BYTE_STR_LEN / 3)%nat with 24%nat.
  set (cur := wmem_alloc scope 76).
  assert (Hcur : length cur = 76%nat) by apply wmem_alloc_length.
  cbn [length Nat.eqb].
  assert (E : (punct =? NUL) = false) by now apply Z.eqb_neq.
  rewrite E.
  change (cur, 0%nat) with ([] ++ drop (length (@nil Z)) cur, length (@nil Z)).
  destruct (Nat.ltb_spec 24 (S (length tl))) as [Hlt|Hge].
  - pose proof (bytes_to_hexstr_punct_writes b0 tl 24 punct ltac:(simpl; lia)) as Hw.
    rewrite <- (hex_dump_punct_take punct b0 tl 24) in Hw by lia.
    assert (Hl : length (hex_dump_punct punct (take 24 (b0 :: tl))) = 71%nat).
    { rewrite length_hex_dump_punct by discriminate.
      rewrite length_take. cbn [length]. lia. }
    rewrite (writes_over _ _ _ cur _ Hw) by (rewrite Hl; simpl; lia).
    rewrite (writes_over _ _ _ cur _ (writes_put punct))
      by (rewrite length_app, Hl; simpl; lia).
    unfold g_stpcpy.
    rewrite write_at_over
      by (rewrite !length_app, Hl; unfold UTF8_HORIZONTAL_ELLIPSIS; simpl; lia).
    rewrite !bind_Ok.
    set (w := ([] ++ hex_dump_punct punct (take 24 (b0 :: tl))) ++ [punct]).
    replace (w ++ (UTF8_HORIZONTAL_ELLIPSIS ++ [NUL])
               ++ drop (length w + length (UTF8_HORIZONTAL_ELLIPSIS ++ [NUL])) cur)
      with ((w ++ UTF8_HORIZONTAL_ELLIPSIS)
              ++ NUL :: drop (length w + length (UTF8_HORIZONTAL_ELLIPSIS ++ [NUL])) cur)
      by (rewrite <- !app_assoc; reflexivity).
    replace (length w + length UTF8_HORIZONTAL_ELLIPSIS)%nat
      with (length (w ++ UTF8_HORIZONTAL_ELLIPSIS)) by now rewrite length_app.
    rewrite store_middle. unfold w. cbn [app]. rewrite <- !app_assoc. cbn [app].
    do 6 f_equal.
    rewrite !length_app. unfold UTF8_HORIZONTAL_ELLIPSIS. cbn [length]. lia.
  - pose proof (bytes_to_hexstr_punct_writes b0 tl (S (length tl)) punct
                  ltac:(simpl; lia)) as Hw.
    rewrite <- (hex_dump_punct_take punct b0 tl (S (length tl))) in Hw by lia.
    assert (Hl : length (hex_dump_punct punct (take (S (length tl)) (b0 :: tl)))
                 = (3 * S (length tl) - 1)%nat).
    { rewrite length_hex_dump_punct by discriminate.
      rewrite length_take. cbn [length]. lia. }
    rewrite (writes_over _ _ _ cur _ Hw) by (rewrite Hl; simpl; lia).
    rewrite bind_Ok. cbv beta iota.
    rewrite store_over by (rewrite length_app, Hl; simpl; lia).
    rewrite app_nil_r. cbn [app].
    rewrite (take_ge (b0 :: tl) (S (length tl))) by (simpl; lia).
    rewrite (take_ge (b0 :: tl) 24) by (simpl; lia).
    reflexivity.
Qed.

(** X7: with a punctuation character, [bytestring_to_str] renders a
    non-empty sequence of at most [MAX_BYTE_STR_LEN / 3 = 24] bytes in
    full, two hex digits per byte with the character between the
    bytes, and of a longer one only the first 24 bytes, followed by
    the character and a single ellipsis. *)
Theorem bytestring_to_str_punct_ceiling (scope : wmem_allocator_t)
    (b0 : Z) (tl : list Z) (punct : gchar) :
  punct <> NUL ->
  let bytes := b0 :: tl in
  exists buf,
    bytestring_to_str scope (Some bytes) (length bytes) punct = Ok buf
    /\ c_str buf
       = Some (hex_dump_punct punct (take 24 bytes)
               ++ (if (24 <? length bytes)%nat
                   then punct :: UTF8_HORIZONTAL_ELLIPSIS else []))
    /\ length (hex_dump_punct punct (take 24 bytes))
       = (3 * Nat.min 24 (length bytes) - 1)%nat.
Proof.
  intros Hp bytes. eexists. split; [|split].
  - apply (bytestring_to_str_punct_some scope b0 tl punct Hp).
  - apply c_str_app. apply Forall_app. split.
    + now apply hex_dump_punct_chars.
    + destruct (_ <? _)%nat; [|constructor].
      constructor; [exact Hp|]. repeat constructor; discriminate.
  - rewrite length_hex_dump_punct.
    + now rewrite length_take.
    + discriminate.
Qed.

Lemma guid_text_chars guid : Forall hex_digit_char_or_hyphen (guid_text guid).
Proof.
  unfold guid_text. rewrite !Forall_app.
  repeat split;
    try (apply Forall_singleton; now right);
    (eapply Forall_impl; [apply hex_text_chars || apply hex_dump_chars|]);
    intros c Hc; now left.
Qed.

Lemma guid_text_nonzero guid : Forall (fun c => c <> NUL) (guid_text guid).
Proof.
  eapply Forall_impl; [apply guid_text_chars|].
  intros c [Hc| ->]; [unfold hex_digit_char, NUL in *; lia | discriminate].
Qed.

Lemma length_guid_text guid :
  length (data4 guid) = 8%nat -> length (guid_text guid) = 36%nat.
Proof.
  intros H4. unfold guid_text.
  rewrite !length_app, !length_hex_text, !length_hex_dump, length_take, length_drop.
  rewrite H4. reflexivity.
Qed.

(** X8: [guid_to_str] allocates exactly the 37 bytes the text needs, so
    for every GUID it returns the canonical 36-character text and
    never the sentinel. *)
Theorem guid_to_str_canonical (scope : wmem_allocator_t) (guid : e_guid_t) :
  length (data4 guid) = 8%nat ->
  guid_to_str scope guid = Ok (guid_text guid ++ [NUL])
  /\ c_str (guid_text guid ++ [NUL]) = Some (guid_text guid)
  /\ length (guid_text guid) = 36%nat.
Proof.
  intros H4. unfold guid_to_str.
  pose proof (wmem_alloc_length scope (Z.to_nat GUID_STR_LEN)) as Hl.
  change (Z.to_nat GUID_STR_LEN) with 37%nat in *.
  pose proof (guid_to_str_buf_fits guid (wmem_alloc scope 37) 37 H4
                ltac:(unfold GUID_STR_LEN; lia) ltac:(rewrite Hl; lia)) as E.
  rewrite drop_ge in E by lia.
  split; [exact E|]. split; [|now apply length_guid_text].
  rewrite <- (app_nil_r [NUL]).
  apply c_str_app, guid_text_nonzero.
Qed.

End PunctuatedDump.

Lemma bytestring_to_str_punct_ceiling_witness :
  exists buf,
    @bytestring_to_str test_wmem tt (Some (map Z.of_nat (seq 1 25))) 25 58 = Ok buf
    /\ c_str buf
       = Some (str "01:02:03:04:05:06:07:08:09:0a:0b:0c:0d:0e:0f:10:11:12:13:14:15:16:17:18:"
               ++ UTF8_HORIZONTAL_ELLIPSIS).
Proof.
  destruct (@bytestring_to_str_punct_ceiling test_wmem tt 1
              (map Z.of_nat (seq 2 24)) 58)
    as (buf & E & Hs & _); [discriminate|].
  exists buf. split; [exact E | exact Hs].
Defined.

Lemma guid_to_str_canonical_witness :
  @guid_to_str test_wmem tt
     {| data1 := 0x01020304; data2 := 0x0506; data3 := 0x0708;
        data4 := [0x09; 0x0A; 0x0B; 0x0C; 0x0D; 0x0E; 0x0F; 0x10] |}
  = Ok (str "01020304-0506-0708-090a-0b0c0d0e0f10" ++ [NUL]).
Proof.
  destruct (@guid_to_str_canonical test_wmem tt
              {| data1 := 0x01020304; data2 := 0x0506; data3 := 0x0708;
                 data4 := [0x09; 0x0A; 0x0B; 0x0C; 0x0D; 0x0E; 0x0F; 0x10] |})
    as (E & _); [reflexivity|]. exact E.
Defined.

(** ** The punctuated and unpadded hex encoders *)

Lemma be_bytes_add n m v :
  be_bytes (n + m) v = be_bytes n (v / 256 ^ Z.of_nat m) ++ be_bytes m v.
Proof.
  revert v. induction m as [|m IH]; intros v.
  - simpl. now rewrite Nat.add_0_r, Z.div_1_r, app_nil_r.
  - replace (n + S m)%nat with (S (n + m)) by lia.
    cbn [be_bytes]. rewrite IH, <- app_assoc. do 2 f_equal.
    rewrite Z.div_div by (try apply Z.pow_pos_nonneg; lia).
    f_equal. rewrite Nat2Z.inj_succ, Z.pow_succ_r by lia. reflexivity.
Qed.

Lemma be_bytes_mod n m v :
  (n <= m)%nat -> be_bytes n (v mod 256 ^ Z.of_nat m) = be_bytes n v.
Proof.
  revert m v. induction n as [|n IH]; intros m v Hnm; [reflexivity|].
  destruct m as [|m]; [lia|].
  cbn [be_bytes].
  rewrite Nat2Z.inj_succ, Z.pow_succ_r by lia.
  pose proof (Z.pow_pos_nonneg 256 (Z.of_nat m) ltac:(lia) ltac:(lia)) as Hpos.
  rewrite Z.rem_mul_r by lia.
  rewrite <- (IH m (v / 256)) by lia.
  generalize ((v / 256) mod 256 ^ Z.of_nat m). intros q.
  replace ((v mod 256 + 256 * q) / 256) with q by lia.
  replace ((v mod 256 + 256 * q) mod 256) with (v mod 256) by lia.
  reflexivity.
Qed.

Lemma length_be_bytes n v : length (be_bytes n v) = n.
Proof.
  revert v. induction n as [|n IH]; intros v; [reflexivity|].
  cbn [be_bytes]. rewrite length_app, IH. simpl. lia.
Qed.

Lemma be_bytes_range n v : Forall (fun b => 0 <= b < 256) (be_bytes n v).
Proof.
  revert v. induction n as [|n IH]; intros v; [constructor|].
  cbn [be_bytes]. apply Forall_app. split; [apply IH|].
  apply Forall_singleton. lia.
Qed.

Lemma hex_dump_punct_app punct l1 l2 :
  l1 <> [] -> l2 <> [] ->
  hex_dump_punct punct (l1 ++ l2)
  = hex_dump_punct punct l1 ++ [punct] ++ hex_dump_punct punct l2.
Proof.
  intros H1 H2. destruct l1 as [|a l1]; [contradiction|].
  destruct l2 as [|b l2]; [contradiction|].
  cbn [app hex_dump_punct]. rewrite map_app, concat_app, <- !app_assoc.
  reflexivity.
Qed.

Lemma be_bytes_nonempty n v : (1 <= n)%nat -> be_bytes n v <> [].
Proof.
  intros Hn E. pose proof (length_be_bytes n v) as Hl.
  rewrite E in Hl. simpl in Hl. lia.
Qed.

Lemma word_to_hex_punct_writes w punct :
  writes (fun st => word_to_hex_punct st w punct)
         (hex_dump_punct punct (be_bytes 2 w)).
Proof.
  unfold word_to_hex_punct.
  change (be_bytes 2 w) with [(w / 256) mod 256; w mod 256].
  cbn [hex_dump_punct map concat]. rewrite app_nil_r.
  change 256 with (16 ^ Z.of_nat 2) at 2 3.
  rewrite !hex_text_mod by lia.
  rewrite Z.shiftr_div_pow2 by lia. change (2 ^ 8) with 256.
  apply (writes_seq (fun st => byte_to_hex st (w / 256))
           (fun st => st ← put punct st; byte_to_hex st w)).
  - apply byte_to_hex_writes.
  - apply (writes_seq (put punct) (fun st => byte_to_hex st w) [punct]);
      [apply writes_put | apply byte_to_hex_writes].
Qed.

Lemma dword_to_hex_punct_writes d punct :
  writes (fun st => dword_to_hex_punct st d punct)
         (hex_dump_punct punct (be_bytes 4 d)).
Proof.
  unfold dword_to_hex_punct, to_guint16.
  change (be_bytes 4 d) with (be_bytes (2 + 2) d).
  rewrite be_bytes_add, hex_dump_punct_app by (apply be_bytes_nonempty; lia).
  change (256 ^ Z.of_nat 2) with 65536.
  rewrite Z.shiftr_div_pow2 by lia. change (2 ^ 16) with 65536.
  rewrite <- (be_bytes_mod 2 2 (d / 65536)), <- (be_bytes_mod 2 2 d) by lia.
  change (256 ^ Z.of_nat 2) with 65536.
  apply (writes_seq
           (fun st => word_to_hex_punct st ((d / 65536) mod 65536) punct)
           (fun st => st ← put punct st;
                      word_to_hex_punct st (d mod 65536) punct)).
  - apply word_to_hex_punct_writes.
  - apply (writes_seq (put punct)
             (fun st => word_to_hex_punct st (d mod 65536) punct) [punct]);
      [apply writes_put | apply word_to_hex_punct_writes].
Qed.

Lemma qword_to_hex_punct_writes q punct :
  writes (fun st => qword_to_hex_punct st q punct)
         (hex_dump_punct punct (be_bytes 8 q)).
Proof.
  unfold qword_to_hex_punct, to_guint32.
  change (be_bytes 8 q) with (be_bytes (4 + 4) q).
  rewrite be_bytes_add, hex_dump_punct_app by (apply be_bytes_nonempty; lia).
  change (256 ^ Z.of_nat 4) with 4294967296.
  rewrite Z.shiftr_div_pow2 by lia. change (2 ^ 32) with 4294967296.
  change 0xffffffff with (Z.ones 32). rewrite Z.land_ones by lia.
  change (2 ^ 32) with 4294967296.
  rewrite (Z.mod_small (q mod 4294967296)) by lia.
  rewrite <- (be_bytes_mod 4 4 (q / 4294967296)), <- (be_bytes_mod 4 4 q) by lia.
  change (256 ^ Z.of_nat 4) with 4294967296.
  apply (writes_seq
           (fun st => dword_to_hex_punct st ((q / 4294967296) mod 4294967296) punct)
           (fun st => st ← put punct st;
                      dword_to_hex_punct st (q mod 4294967296) punct)).
  - apply dword_to_hex_punct_writes.
  - apply (writes_seq (put punct)
             (fun st => dword_to_hex_punct st (q mod 4294967296) punct) [punct]);
      [apply writes_put | apply dword_to_hex_punct_writes].
Qed.

Lemma bytes_to_hexstr_punct_all bytes punct :
  bytes <> [] ->
  writes (fun st => bytes_to_hexstr_punct st (Some bytes) (length bytes) punct)
         (hex_dump_punct punct bytes).
Proof.
  destruct bytes as [|b0 tl]; [contradiction|]. intros _.
  pose proof (bytes_to_hexstr_punct_writes b0 tl (length (b0 :: tl)) punct
                ltac:(simpl; lia)) as Hw.
  cbn [length] in Hw. replace (S (length tl) - 1)%nat with (length tl) in Hw by lia.
  now rewrite take_ge in Hw by lia.
Qed.

(** X9: [word_to_hex_punct], [dword_to_hex_punct] and
    [qword_to_hex_punct] store the 2, 4 and 8 bytes of the value, most
    significant first, as hex pairs with [punct] between them (5, 11
    and 23 characters); that is what [bytes_to_hexstr_punct] stores
    for those bytes. *)
Theorem hex_encoders_punct (w d q : Z) (punct : gchar) (buf : list gchar) (p : nat) :
  (p + 23 <= length buf)%nat ->
  word_to_hex_punct (buf, p) w punct
  = Ok (take p buf ++ hex_dump_punct punct (be_bytes 2 w) ++ drop (p + 5) buf,
        (p + 5)%nat)
  /\ dword_to_hex_punct (buf, p) d punct
     = Ok (take p buf ++ hex_dump_punct punct (be_bytes 4 d) ++ drop (p + 11) buf,
           (p + 11)%nat)
  /\ qword_to_hex_punct (buf, p) q punct
     = Ok (take p buf ++ hex_dump_punct punct (be_bytes 8 q) ++ drop (p + 23) buf,
           (p + 23)%nat)
  /\ word_to_hex_punct (buf, p) w punct
     = bytes_to_hexstr_punct (buf, p) (Some (be_bytes 2 w)) 2 punct
  /\ dword_to_hex_punct (buf, p) d punct
     = bytes_to_hexstr_punct (buf, p) (Some (be_bytes 4 d)) 4 punct
  /\ qword_to_hex_punct (buf, p) q punct
     = bytes_to_hexstr_punct (buf, p) (Some (be_bytes 8 q)) 8 punct.
Proof.
  intros Hroom.
  assert (L : forall n v, (1 <= n)%nat ->
                length (hex_dump_punct punct (be_bytes n v)) = (3 * n - 1)%nat).
  { intros n v Hn. rewrite length_hex_dump_punct by now apply be_bytes_nonempty.
    now rewrite length_be_bytes. }
  assert (B : forall n v, (1 <= n)%nat -> (p + (3 * n - 1) <= length buf)%nat ->
                bytes_to_hexstr_punct (buf, p) (Some (be_bytes n v)) n punct
                = Ok (take p buf ++ hex_dump_punct punct (be_bytes n v)
                        ++ drop (p + (3 * n - 1)) buf, (p + (3 * n - 1))%nat)).
  { intros n v Hn Hr.
    pose proof (bytes_to_hexstr_punct_all (be_bytes n v) punct
                  (be_bytes_nonempty n v Hn)) as Hw.
    rewrite length_be_bytes in Hw.
    rewrite (writes_at _ _ buf p Hw) by (rewrite L; lia).
    now rewrite L. }
  assert (Ew := writes_at _ _ buf p (word_to_hex_punct_writes w punct)).
  assert (Ed := writes_at _ _ buf p (dword_to_hex_punct_writes d punct)).
  assert (Eq := writes_at _ _ buf p (qword_to_hex_punct_writes q punct)).
  rewrite L in Ew, Ed, Eq by lia. cbv beta in Ew, Ed, Eq.
  specialize (Ew ltac:(simpl; lia)). specialize (Ed ltac:(simpl; lia)).
  specialize (Eq ltac:(simpl; lia)).
  split; [exact Ew|]. split; [exact Ed|]. split; [exact Eq|].
  split; [|split].
  - rewrite Ew, (B 2%nat) by (simpl; lia). reflexivity.
  - rewrite Ed, (B 4%nat) by (simpl; lia). reflexivity.
  - rewrite Eq, (B 8%nat) by (simpl; lia). reflexivity.
Qed.

Lemma hex_encoders_punct_witness :
  qword_to_hex_punct (replicate 24 88, 0%nat) 0x0123456789abcdef 58
  = Ok (str "01:23:45:67:89:ab:cd:ef" ++ [88], 23%nat)
  /\ word_to_hex_punct (replicate 24 88, 0%nat) 0xabcd 45
     = Ok (str "ab-cd" ++ replicate 19 88, 5%nat).
Proof.
  destruct (hex_encoders_punct 0xabcd 0 0x0123456789abcdef 58 (replicate 24 88) 0)
    as (_ & _ & Eq & _); [vm_compute; lia|].
  destruct (hex_encoders_punct 0xabcd 0 0 45 (replicate 24 88) 0)
    as (Ew & _); [vm_compute; lia|].
  split; [exact Eq | exact Ew].
Defined.

(** X10: for every 16-bit [word], [word_to_hex_npad] stores the hex
    digits of [word] without leading zeros, and a single ['0'] for 0:
    [k] digits, where [k] in 1..4 is least with [word < 16 ^ k]; the
    digits read back as [word]. *)
Theorem word_to_hex_npad_minimal (word : Z) (buf : list gchar) (p : nat) :
  0 <= word < 65536 ->
  (p + 4 <= length buf)%nat ->
  exists k : nat,
    (1 <= k <= 4)%nat
    /\ word < 16 ^ Z.of_nat k
    /\ (k = 1%nat \/ 16 ^ (Z.of_nat k - 1) <= word)
    /\ word_to_hex_npad (buf, p) word
       = Ok (take p buf ++ hex_text k word ++ drop (p + k) buf, (p + k)%nat)
    /\ parse_hex (hex_text k word) = Some word.
Proof.
  intros Hw Hroom.
  assert (Hparse : forall k : nat, word < 16 ^ Z.of_nat k ->
                     parse_hex (hex_text k word) = Some word).
  { intros k Hk. unfold parse_hex. rewrite parse_hex_text. f_equal.
    rewrite Z.mod_small; lia. }
  assert (Hput : forall s, writes (put (low_nibble_of_octet_to_hex (Z.shiftr word s)))
                             [hex_char ((word / 2 ^ s) mod 16)] \/ s < 0).
  { intros s. destruct (Z_lt_le_dec s 0); [now right|left].
    rewrite low_nibble_hex, Z.shiftr_div_pow2 by lia. apply writes_put. }
  assert (P0 : writes (put (low_nibble_of_octet_to_hex (Z.shiftr word 0)))
                      [hex_char (word mod 16)]).
  { destruct (Hput 0) as [Hp|]; [|lia]. now rewrite Z.div_1_r in Hp. }
  assert (P4 : writes (put (low_nibble_of_octet_to_hex (Z.shiftr word 4)))
                      [hex_char ((word / 16) mod 16)]).
  { destruct (Hput 4) as [Hp|]; [|lia]. exact Hp. }
  assert (P8 : writes (put (low_nibble_of_octet_to_hex (Z.shiftr word 8)))
                      [hex_char ((word / 16 / 16) mod 16)]).
  { destruct (Hput 8) as [Hp|]; [|lia].
    change (2 ^ 8) with 256 in Hp.
    now replace (word / 256) with (word / 16 / 16) in Hp by lia. }
  assert (P12 : writes (put (low_nibble_of_octet_to_hex (Z.shiftr word 12)))
                       [hex_char ((word / 16 / 16 / 16) mod 16)]).
  { destruct (Hput 12) as [Hp|]; [|lia].
    change (2 ^ 12) with 4096 in Hp.
    now replace (word / 4096) with (word / 16 / 16 / 16) in Hp by lia. }
  unfold word_to_hex_npad.
  destruct (Z.leb_spec 0x1000 word) as [H3|H3];
    [|destruct (Z.leb_spec 0x0100 word) as [H2|H2];
      [|destruct (Z.leb_spec 0x0010 word) as [H1|H1]]].
  - exists 4%nat. split; [lia|]. split; [simpl; lia|]. split; [right; simpl; lia|].
    split; [|apply Hparse; simpl; lia].
    assert (E2 : (0x0100 <=? word) = true) by (apply Z.leb_le; lia).
    assert (E1 : (0x0010 <=? word) = true) by (apply Z.leb_le; lia).
    rewrite E2, E1.
    apply (writes_at
             (fun st => st ← put (low_nibble_of_octet_to_hex (Z.shiftr word 12)) st;
                (fun st => st ← put (low_nibble_of_octet_to_hex (Z.shiftr word 8)) st;
                   (fun st => st ← put (low_nibble_of_octet_to_hex (Z.shiftr word 4)) st;
                      put (low_nibble_of_octet_to_hex (Z.shiftr word 0)) st) st) st)
             (hex_text 4 word)); [|rewrite length_hex_text; lia].
    apply (writes_seq _ _ [_] [_; _; _]); [exact P12|].
    apply (writes_seq _ _ [_] [_; _]); [exact P8|].
    apply (writes_seq _ _ [_] [_]); [exact P4 | exact P0].
  - exists 3%nat. split; [lia|]. split; [simpl; lia|]. split; [right; simpl; lia|].
    split; [|apply Hparse; simpl; lia].
    assert (E1 : (0x0010 <=? word) = true) by (apply Z.leb_le; lia).
    rewrite E1, bind_Ok.
    apply (writes_at
             (fun st => st ← put (low_nibble_of_octet_to_hex (Z.shiftr word 8)) st;
                (fun st => st ← put (low_nibble_of_octet_to_hex (Z.shiftr word 4)) st;
                   put (low_nibble_of_octet_to_hex (Z.shiftr word 0)) st) st)
             (hex_text 3 word)); [|rewrite length_hex_text; lia].
    apply (writes_seq _ _ [_] [_; _]); [exact P8|].
    apply (writes_seq _ _ [_] [_]); [exact P4 | exact P0].
  - exists 2%nat. split; [lia|]. split; [simpl; lia|]. split; [right; simpl; lia|].
    split; [|apply Hparse; simpl; lia].
    rewrite !bind_Ok.
    apply (writes_at
             (fun st => st ← put (low_nibble_of_octet_to_hex (Z.shiftr word 4)) st;
                put (low_nibble_of_octet_to_hex (Z.shiftr word 0)) st)
             (hex_text 2 word)); [|rewrite length_hex_text; lia].
    apply (writes_seq _ _ [_] [_]); [exact P4 | exact P0].
  - exists 1%nat. split; [lia|]. split; [simpl; lia|]. split; [now left|].
    split; [|apply Hparse; simpl; lia].
    rewrite !bind_Ok.
    apply (writes_at _ (hex_text 1 word)); [exact P0 | simpl; lia].
Qed.

Lemma word_to_hex_npad_minimal_witness :
  word_to_hex_npad (replicate 5 88, 0%nat) 0x0bcd = Ok (str "bcd" ++ [88; 88], 3%nat)
  /\ word_to_hex_npad (replicate 5 88, 0%nat) 0 = Ok (str "0" ++ replicate 4 88, 1%nat).
Proof.
  destruct (word_to_hex_npad_minimal 0x0bcd (replicate 5 88) 0)
    as (k & Hk & Hlt & Hge & E & _); [lia | vm_compute; lia |].
  destruct (word_to_hex_npad_minimal 0 (replicate 5 88) 0)
    as (k0 & Hk0 & Hlt0 & Hge0 & E0 & _); [lia | vm_compute; lia |].
  assert (k = 3%nat).
  { destruct Hk as [Hk1 Hk4].
    destruct k as [|[|[|[|[|k]]]]]; try lia; try reflexivity;
      simpl in Hlt, Hge; destruct Hge; lia. }
  assert (k0 = 1%nat).
  { destruct Hk0 as [Hk1 Hk4].
    destruct k0 as [|[|[|[|[|k0]]]]]; try lia; try reflexivity;
      simpl in Hge0; destruct Hge0; lia. }
  subst. split; [exact E | exact E0].
Defined.

(** ** The backward writers with padding and sign *)

Lemma pad_loop_writes n i :
  writes_back (for_loop n i (fun _ st => put_back 48 st)) (replicate n 48).
Proof.
  revert i. induction n as [|n IH]; intros i.
  - exact writes_back_nil.
  - rewrite replicate_S_end.
    apply (writes_back_ext
             (fun st => st' ← put_back 48 st;
                        for_loop n (S i) (fun _ st => put_back 48 st) st'));
      [reflexivity|].
    apply writes_back_seq; [apply writes_back_put | apply IH].
Qed.

Lemma pad_zeros_back_writes len :
  writes_back (fun st => pad_zeros_back st len) (replicate (Z.to_nat len) 48).
Proof. apply pad_loop_writes. Qed.

(** A backward writer that pads what [f] stored with zeros up to [len]
    characters, counting what [f] stored from the cursors. *)
Lemma back_len_writes (f : list gchar * nat -> outcome (list gchar * nat)) data len :
  writes_back f data ->
  G_MININT32 <= len - Z.of_nat (length data) <= 2147483647 ->
  writes_back (fun st => let '(_, ptr) := st in
                 '(buf, new_ptr) ← f st;
                 len ← sub_int len (Z.of_nat ptr - Z.of_nat new_ptr);
                 pad_zeros_back (buf, new_ptr) len)
              (replicate (Z.to_nat len - length data) 48 ++ data).
Proof.
  intros Hf Hint pre junk suf Hlen.
  rewrite length_app, length_replicate in Hlen.
  set (k := (Z.to_nat len - length data)%nat) in *.
  rewrite <- (take_drop k junk).
  pose proof (length_take junk k) as Ht.
  pose proof (length_drop junk k) as Hd.
  set (j1 := take k junk) in *. set (j2 := drop k junk) in *.
  cbv beta iota.
  replace (pre ++ (j1 ++ j2) ++ suf) with ((pre ++ j1) ++ j2 ++ suf)
    by now rewrite <- !app_assoc.
  replace (length pre + length (j1 ++ j2))%nat
    with (length (pre ++ j1) + length j2)%nat by (rewrite !length_app; lia).
  rewrite Hf by lia. rewrite bind_Ok. cbv beta iota.
  rewrite <- !app_assoc, !length_app.
  replace (Z.of_nat (length pre + length j1 + length j2)
           - Z.of_nat (length pre + length j1))
    with (Z.of_nat (length data)) by lia.
  unfold sub_int. cbv zeta.
  assert (E : (G_MININT32 <=? len - Z.of_nat (length data))
              && (len - Z.of_nat (length data) <=? 2147483647) = true).
  { apply andb_true_intro. split; apply Z.leb_le; lia. }
  rewrite E, bind_Ok.
  pose proof (pad_zeros_back_writes (len - Z.of_nat (length data))
                pre j1 (data ++ suf)) as Hp.
  replace (Z.to_nat (len - Z.of_nat (length data))) with k in Hp by lia.
  rewrite length_replicate in Hp.
  apply Hp. lia.
Qed.

(** The same writer when the count left after [f] is below the least
    [int]: the subtraction overflows. *)
Lemma back_len_overflows (f : list gchar * nat -> outcome (list gchar * nat))
    data len buf p :
  writes_back f data ->
  (length data <= p <= length buf)%nat ->
  len - Z.of_nat (length data) < G_MININT32 ->
  ('(buf', new_ptr) ← f (buf, p);
   len ← sub_int len (Z.of_nat p - Z.of_nat new_ptr);
   pad_zeros_back (buf', new_ptr) len) = Undefined.
Proof.
  intros Hf Hp Hlow.
  rewrite (writes_back_at f data buf p Hf) by lia.
  rewrite bind_Ok. cbv beta iota.
  replace (Z.of_nat p - Z.of_nat (p - length data)) with (Z.of_nat (length data))
    by lia.
  unfold sub_int. cbv zeta.
  assert (E : (G_MININT32 <=? len - Z.of_nat (length data)) = false)
    by (apply Z.leb_gt; lia).
  now rewrite E.
Qed.

Lemma length_printf_0u w v :
  length (printf_0u w v) = Nat.max w (length (decimal_text v)).
Proof. unfold printf_0u. rewrite length_app, length_replicate. lia. Qed.

(** X11: for every unsigned value and every [int] [len],
    [uint_to_str_back_len] and [uint64_to_str_back_len] store, just
    before the cursor, the canonical decimal text of the value padded
    on the left with ['0'] to [len] characters, as [%0<len>u] prints
    it; a [len] that the text already reaches, zero or negative, adds
    nothing and cuts nothing.  The one exception is a [len] within the
    number of digits of [G_MININT32]: there the subtraction
    [len -= (int)(ptr - new_ptr)] overflows. *)
Theorem uint_to_str_back_len_padded (v len : Z) (buf : list gchar) (p : nat) :
  0 <= v < 18446744073709551616 ->
  G_MININT32 <= len <= 2147483647 ->
  let digits := decimal_text v in
  let text := printf_0u (Z.to_nat len) v in
  (length text <= p <= length buf)%nat ->
  let p' := (p - length text)%nat in
  let buf' := take p' buf ++ text ++ drop p buf in
  (G_MININT32 + Z.of_nat (length digits) <= len ->
   (v < 4294967296 -> uint_to_str_back_len (buf, p) v len = Ok (buf', p'))
   /\ uint64_to_str_back_len (buf, p) v len = Ok (buf', p'))
  /\ (len < G_MININT32 + Z.of_nat (length digits) ->
      (v < 4294967296 -> uint_to_str_back_len (buf, p) v len = Undefined)
      /\ uint64_to_str_back_len (buf, p) v len = Undefined)
  /\ length text = Nat.max (Z.to_nat len) (length digits)
  /\ (len <= Z.of_nat (length digits) -> text = digits).
Proof.
  intros Hv Hlen digits text Hp. cbv zeta.
  pose proof (guint64_to_str_buf_len_count v Hv) as Hc.
  pose proof (guint64_to_str_buf_len_range v) as Hr.
  pose proof (dec_digits_canonical _ _ Hc) as Hd.
  pose proof (length_decimal_text _ _ Hc) as Hl.
  assert (Htext : text = replicate (Z.to_nat len - length (decimal_text v)) 48
                           ++ decimal_text v) by reflexivity.
  assert (Ltext : length text = Nat.max (Z.to_nat len) (length digits))
    by apply length_printf_0u.
  assert (W32 : writes_back (fun st => uint_to_str_back st v) (decimal_text v)).
  { rewrite <- Hd.
    apply uint_to_str_back_writes; [exact Hc|]. unfold loop_fuel. lia. }
  assert (W64 : writes_back (fun st => uint64_to_str_back st v) (decimal_text v)).
  { rewrite <- Hd.
    apply uint64_to_str_back_writes; [exact Hc|]. unfold loop_fuel. lia. }
  split; [|split; [|split]].
  - intros Hin. split.
    + intros _.
      apply (writes_back_at (fun st => uint_to_str_back_len st v len)); [|lia|lia].
      rewrite Htext.
      apply (back_len_writes (fun st => uint_to_str_back st v));
        [exact W32 | fold digits; lia].
    + apply (writes_back_at (fun st => uint64_to_str_back_len st v len)); [|lia|lia].
      rewrite Htext.
      apply (back_len_writes (fun st => uint64_to_str_back st v));
        [exact W64 | fold digits; lia].
  - intros Hlow. split.
    + intros _.
      apply (back_len_overflows (fun st => uint_to_str_back st v) (decimal_text v));
        [exact W32 | fold digits; lia | fold digits; lia].
    + apply (back_len_overflows (fun st => uint64_to_str_back st v) (decimal_text v));
        [exact W64 | fold digits; lia | fold digits; lia].
  - exact Ltext.
  - intros Hle. rewrite Htext.
    replace (Z.to_nat len - length (decimal_text v))%nat with 0%nat
      by (fold digits; lia).
    reflexivity.
Qed.

Lemma uint_to_str_back_len_padded_witness :
  uint_to_str_back_len (replicate 8 88, 7%nat) 42 5
  = Ok (str "XX00042X", 2%nat)
  /\ uint64_to_str_back_len (replicate 8 88, 7%nat) 42 (-3)
     = Ok (str "XXXXX42X", 5%nat)
  /\ uint_to_str_back_len (replicate 8 88, 7%nat) 42 (G_MININT32 + 1) = Undefined.
Proof.
  destruct (uint_to_str_back_len_padded 42 5 (replicate 8 88) 7%nat)
    as (H5 & _); [lia | unfold G_MININT32; lia | vm_compute; lia |].
  destruct (uint_to_str_back_len_padded 42 (-3) (replicate 8 88) 7%nat)
    as (H3 & _); [lia | unfold G_MININT32; lia | vm_compute; lia |].
  destruct (uint_to_str_back_len_padded 42 (G_MININT32 + 1) (replicate 8 88) 7%nat)
    as (_ & Hmin & _); [lia | unfold G_MININT32; lia | vm_compute; lia |].
  destruct H5 as [H5 _]; [vm_compute; discriminate|].
  destruct H3 as [_ H3]; [vm_compute; discriminate|].
  destruct Hmin as [Hmin _]; [vm_compute; reflexivity|].
  split; [apply H5; lia|]. split; [exact H3 | apply Hmin; lia].
Defined.

Lemma signed_decimal_text_nonneg v : 0 <= v -> signed_decimal_text v = decimal_text v.
Proof. intros Hv. destruct v as [|q|q]; [reflexivity | reflexivity | lia]. Qed.

Lemma signed_decimal_text_neg v :
  v < 0 -> signed_decimal_text v = 45 :: decimal_text (- v).
Proof. intros Hv. destruct v as [|q|q]; [lia | lia | reflexivity]. Qed.

Lemma int_back_writes (f : list gchar * nat -> Z -> outcome (list gchar * nat))
    (conv : Z -> Z) (min v : Z) :
  (forall u, 0 <= u < - min -> conv u = u) ->
  (forall u, 0 <= u < - min ->
     writes_back (fun st => f st u) (decimal_text u)) ->
  min < v < - min ->
  writes_back (fun st => if v <? 0 then
                           magnitude ← negate_signed min v;
                           st ← f st (conv magnitude);
                           put_back 45 st
                         else f st (conv v))
              (signed_decimal_text v).
Proof.
  intros Hconv Hf Hv.
  destruct (Z.ltb_spec v 0) as [Hneg|Hpos].
  - rewrite signed_decimal_text_neg by lia.
    unfold negate_signed.
    destruct (Z.eqb_spec v min) as [->|_]; [lia|].
    apply (writes_back_ext
             (fun st => st' ← f st (conv (- v)); put_back 45 st'));
      [reflexivity|].
    rewrite Hconv by lia.
    apply (writes_back_seq _ _ _ [45]); [apply Hf; lia | apply writes_back_put].
  - rewrite signed_decimal_text_nonneg, Hconv by lia. apply Hf. lia.
Qed.

(** X12: [int_to_str_back] and [int64_to_str_back] store, just before
    the cursor, the canonical signed decimal text of the value, a ['-']
    before the digits of a negative one, for every value above the
    least of its type; at the least value ([G_MININT32], [G_MININT64])
    the negation [-value] overflows. *)
Theorem int_to_str_back_signed (v : Z) (buf : list gchar) (p : nat) :
  G_MININT64 < v < - G_MININT64 ->
  let text := signed_decimal_text v in
  (length text <= p <= length buf)%nat ->
  let p' := (p - length text)%nat in
  let buf' := take p' buf ++ text ++ drop p buf in
  (G_MININT32 < v < - G_MININT32 -> int_to_str_back (buf, p) v = Ok (buf', p'))
  /\ int64_to_str_back (buf, p) v = Ok (buf', p')
  /\ int_to_str_back (buf, p) G_MININT32 = Undefined
  /\ int64_to_str_back (buf, p) G_MININT64 = Undefined.
Proof.
  intros Hv text Hp. cbv zeta. unfold G_MININT64, G_MININT32 in *.
  assert (W32 : forall u, 0 <= u < 2147483648 ->
                  writes_back (fun st => uint_to_str_back st u) (decimal_text u)).
  { intros u Hu.
    pose proof (guint32_to_str_buf_len_count u ltac:(lia)) as Hc.
    pose proof (guint32_to_str_buf_len_range u) as Hr.
    rewrite <- (dec_digits_canonical _ _ Hc).
    apply uint_to_str_back_writes; [exact Hc|]. unfold loop_fuel. lia. }
  assert (W64 : forall u, 0 <= u < 9223372036854775808 ->
                  writes_back (fun st => uint64_to_str_back st u) (decimal_text u)).
  { intros u Hu.
    pose proof (guint64_to_str_buf_len_count u ltac:(lia)) as Hc.
    pose proof (guint64_to_str_buf_len_range u) as Hr.
    rewrite <- (dec_digits_canonical _ _ Hc).
    apply uint64_to_str_back_writes; [exact Hc|]. unfold loop_fuel. lia. }
  split; [|split; [|split]].
  - intros Hv32.
    apply (writes_back_at (fun st => int_to_str_back st v)); [|lia|lia].
    apply (int_back_writes uint_to_str_back to_guint32 (-2147483648)).
    + intros u Hu. unfold to_guint32. apply Z.mod_small. lia.
    + intros u Hu. apply W32. lia.
    + lia.
  - apply (writes_back_at (fun st => int64_to_str_back st v)); [|lia|lia].
    apply (int_back_writes uint64_to_str_back to_guint64 (-9223372036854775808)).
    + intros u Hu. unfold to_guint64. apply Z.mod_small. lia.
    + intros u Hu. apply W64. lia.
    + lia.
  - reflexivity.
  - reflexivity.
Qed.

Lemma int_to_str_back_signed_witness :
  int_to_str_back (replicate 8 88, 7%nat) (-1234) = Ok (str "XX-1234X", 2%nat)
  /\ int64_to_str_back (replicate 8 88, 7%nat) 56 = Ok (str "XXXXX56X", 5%nat).
Proof.
  destruct (int_to_str_back_signed (-1234) (replicate 8 88) 7%nat)
    as (H32 & _); [vm_compute; split; reflexivity | vm_compute; lia |].
  destruct (int_to_str_back_signed 56 (replicate 8 88) 7%nat)
    as (_ & H64 & _); [vm_compute; split; reflexivity | vm_compute; lia |].
  split; [apply H32; vm_compute; split; reflexivity | exact H64].
Defined.

(** ** The backward writers in octal and hex *)

Lemma radix_count_exists b v :
  2 <= b -> 0 <= v -> exists n, radix_count b n v.
Proof.
  intros Hb Hv.
  refine (Z_lt_induction (fun v => 0 <= v -> exists n, radix_count b n v)
            _ v Hv Hv).
  clear v Hv. intros v IH Hv.
  destruct (Z.eq_dec v 0) as [->|Hnz]; [exists 0%nat; now left|].
  assert (Hq : 0 <= v / b < v).
  { split; [apply Z.div_pos; lia | apply Z.div_lt; lia]. }
  pose proof (Z.div_mod v b ltac:(lia)) as Hdm.
  pose proof (Z.mod_pos_bound v b ltac:(lia)) as Hm.
  destruct (IH (v / b) Hq ltac:(lia)) as [n Hn].
  exists (S n). right. split; [|lia].
  replace (Z.of_nat (S n) - 1) with (Z.of_nat n) by lia.
  rewrite Nat2Z.inj_succ, Z.pow_succ_r by lia.
  destruct Hn as [[E0 ->]|[[Hlo Hhi] Hn1]].
  - change (b ^ Z.of_nat 0) with 1. nia.
  - replace (Z.of_nat n) with (Z.succ (Z.of_nat n - 1)) at 1 by lia.
    rewrite Z.pow_succ_r by lia. nia.
Qed.

Lemma radix_count_div b n v :
  2 <= b -> radix_count b (S n) v -> v <> 0 /\ radix_count b n (v / b).
Proof.
  intros Hb [[_ ?]|[[Hlo Hhi] _]]; [discriminate|].
  replace (Z.of_nat (S n) - 1) with (Z.of_nat n) in Hlo by lia.
  rewrite Nat2Z.inj_succ, Z.pow_succ_r in Hhi by lia.
  pose proof (Z.pow_pos_nonneg b (Z.of_nat n) ltac:(lia) ltac:(lia)) as Hpos.
  split; [lia|].
  destruct n as [|n].
  - left. split; [|reflexivity]. change (b ^ Z.of_nat 0) with 1 in *.
    apply Z.div_small. lia.
  - right. split; [|lia].
    replace (Z.of_nat (S n)) with (Z.succ (Z.of_nat (S n) - 1)) in Hlo at 1 by lia.
    rewrite Z.pow_succ_r in Hlo by lia.
    split.
    + apply Z.div_le_lower_bound; lia.
    + apply Z.div_lt_upper_bound; lia.
Qed.

Lemma radix_count_bound b n m v :
  2 <= b -> radix_count b n v -> v < b ^ Z.of_nat m -> (n <= m)%nat.
Proof.
  intros Hb [[_ ->]|[[Hlo _] Hn1]] Hv; [lia|].
  destruct (Nat.le_gt_cases n m) as [|Hgt]; [assumption|exfalso].
  assert (b ^ Z.of_nat m <= b ^ (Z.of_nat n - 1))
    by (apply Z.pow_le_mono_r; lia).
  lia.
Qed.

Lemma oct_to_str_back_loop_writes n : forall v fuel,
  radix_count 8 n v -> (n <= fuel)%nat ->
  writes_back (fun st => oct_to_str_back_loop fuel st v) (oct_text n v).
Proof.
  induction n as [|n IH]; intros v fuel Hn Hfuel.
  - destruct Hn as [[-> _]|[_ ?]]; [|lia].
    apply (writes_back_ext (fun st => Ok st)); [|exact writes_back_nil].
    intros st. destruct fuel; reflexivity.
  - destruct (radix_count_div 8 n v ltac:(lia) Hn) as [Hnz Hdiv].
    destruct fuel as [|fuel]; [lia|].
    cbn [oct_to_str_back_loop oct_text].
    assert (E : (v =? 0) = false) by now apply Z.eqb_neq.
    rewrite E.
    change 7 with (Z.ones 3). rewrite Z.land_ones by lia.
    rewrite Z.shiftr_div_pow2 by lia. change (2 ^ 3) with 8.
    apply (writes_back_seq (put_back (48 + v mod 8))
             (fun st => oct_to_str_back_loop fuel st (v / 8)));
      [apply writes_back_put | apply IH; [exact Hdiv | lia]].
Qed.

Lemma parse_oct_text n : forall v acc,
  parse_radix 8 acc (oct_text n v) = Some (acc * 8 ^ Z.of_nat n + v mod 8 ^ Z.of_nat n).
Proof.
  induction n as [|n IH]; intros v acc.
  - simpl. rewrite Z.mod_1_r. f_equal. lia.
  - cbn [oct_text]. rewrite parse_radix_app, IH. cbn [parse_radix].
    assert (Ed : digit_value (48 + v mod 8) = Some (v mod 8)).
    { unfold digit_value.
      assert (E1 : (48 <=? 48 + v mod 8) = true) by (apply Z.leb_le; lia).
      assert (E2 : (48 + v mod 8 <=? 57) = true) by (apply Z.leb_le; lia).
      rewrite E1, E2. cbn [andb]. f_equal. lia. }
    rewrite Ed.
    assert (E : (v mod 8 <? 8) = true) by (apply Z.ltb_lt; lia).
    rewrite E. f_equal.
    rewrite Nat2Z.inj_succ, Z.pow_succ_r by lia.
    pose proof (Z.pow_pos_nonneg 8 (Z.of_nat n) ltac:(lia) ltac:(lia)) as Hpos.
    rewrite (Z.rem_mul_r v 8 (8 ^ Z.of_nat n)) by lia.
    ring.
Qed.

Lemma length_oct_text n v : length (oct_text n v) = n.
Proof.
  revert v. induction n as [|n IH]; intros v; [reflexivity|].
  cbn [oct_text]. rewrite length_app, IH. simpl. lia.
Qed.

(** X13: for every unsigned value, [oct_to_str_back] and
    [oct64_to_str_back] store, just before the cursor, a ['0'] followed
    by the octal digits of the value without leading zeros, at most 22
    of them and none for 0; the text reads back in base 8 as the
    value. *)
Theorem oct_to_str_back_prefixed (v : Z) :
  0 <= v < 18446744073709551616 ->
  exists n : nat,
    radix_count 8 n v /\ (n <= 22)%nat
    /\ (v < 4294967296 -> (n <= 11)%nat)
    /\ parse_oct (48 :: oct_text n v) = Some v
    /\ forall (buf : list gchar) (p : nat),
         (n + 1 <= p <= length buf)%nat ->
         let p' := (p - (n + 1))%nat in
         let buf' := take p' buf ++ (48 :: oct_text n v) ++ drop p buf in
         (v < 4294967296 -> oct_to_str_back (buf, p) v = Ok (buf', p'))
         /\ oct64_to_str_back (buf, p) v = Ok (buf', p').
Proof.
  intros Hv.
  destruct (radix_count_exists 8 v ltac:(lia) ltac:(lia)) as [n Hn].
  pose proof (radix_count_bound 8 n 22 v ltac:(lia) Hn) as Hb.
  change (8 ^ Z.of_nat 22) with 73786976294838206464 in Hb.
  specialize (Hb ltac:(lia)).
  assert (Hlt : v < 8 ^ Z.of_nat n).
  { destruct Hn as [[-> ->]|[[_ Hhi] _]]; [reflexivity | exact Hhi]. }
  exists n. split; [exact Hn|]. split; [exact Hb|]. split; [|split].
  - intros H32. apply (radix_count_bound 8 n 11 v); [lia | exact Hn |].
    change (8 ^ Z.of_nat 11) with 8589934592. lia.
  - unfold parse_oct. cbn [parse_radix].
    change (digit_value 48) with (Some 0). cbv beta iota.
    change (0 <? 8) with true. cbv iota.
    change (8 * 0 + 0) with 0.
    rewrite parse_oct_text. f_equal. rewrite Z.mod_small; lia.
  - intros buf p Hp. cbv zeta.
    assert (W : writes_back (fun st => st' ← oct_to_str_back_loop loop_fuel st v;
                                       put_back 48 st')
                            ([48] ++ oct_text n v)).
    { apply (writes_back_seq (fun st => oct_to_str_back_loop loop_fuel st v)
               (put_back 48));
        [|apply writes_back_put].
      apply oct_to_str_back_loop_writes; [exact Hn|]. unfold loop_fuel. lia. }
    pose proof (writes_back_at _ _ buf p W) as E.
    cbn [app length] in E. rewrite length_oct_text in E.
    replace (S n) with (n + 1)%nat in E by lia.
    specialize (E ltac:(lia) ltac:(lia)).
    split; [intros _|]; exact E.
Qed.

Lemma oct_to_str_back_prefixed_witness :
  oct_to_str_back (replicate 6 88, 5%nat) 83 = Ok (str "X0123X", 1%nat)
  /\ parse_oct (str "0123") = Some 83.
Proof.
  destruct (oct_to_str_back_prefixed 83) as (n & Hn & _ & _ & Hparse & Hrun);
    [lia|].
  assert (n = 3%nat) as ->.
  { destruct Hn as [[? _]|[[Hlo Hhi] Hn1]]; [discriminate|].
    destruct n as [|[|[|[|n]]]]; try reflexivity; try lia.
    exfalso.
    assert (8 ^ 3 <= 8 ^ (Z.of_nat (S (S (S (S n)))) - 1))
      by (apply Z.pow_le_mono_r; lia).
    change (8 ^ 3) with 512 in *. lia. }
  destruct (Hrun (replicate 6 88) 5%nat) as [E _]; [vm_compute; lia|].
  split; [apply E; lia | exact Hparse].
Defined.







(** ** The IPv6 formatter when the text does not fit *)

Lemma length_truncated_over cap src buf :
  (cap <= length buf)%nat ->
  length (truncated_to cap src ++ drop (length (truncated_to cap src)) buf)
  = length buf.
Proof.
  intros Hc. rewrite length_app, length_drop, length_truncated_to. lia.
Qed.

Section Ip6Sentinel.
Context `{InetNtop}.

(** X15: for a capacity [buf_size] of 0 or more in which the address
    text has no room (its length is [buf_size] or more),
    [ip6_to_str_buf] returns the full
    length of the sentinel, 18, whatever it stored: with a [buf_size]
    of at least 1 it leaves the sentinel cut to [buf_size - 1]
    characters and terminated, and with a [buf_size] of 0 it stores
    nothing, so that no terminator is written. *)
Theorem ip6_to_str_buf_sentinel (addr : list Z) (buf : list gchar) (buf_size : Z) :
  0 <= buf_size <= Z.of_nat (length (ws_inet_ntop6 addr)) ->
  Z.of_nat (length (ws_inet_ntop6 addr)) < 2147483648 ->
  buf_size <= Z.of_nat (length buf) ->
  (1 <= buf_size ->
   exists buf',
     ip6_to_str_buf addr buf buf_size = Ok (buf', 18)
     /\ c_str buf' = Some (take (Z.to_nat (buf_size - 1)) BUF_TOO_SMALL_ERR)
     /\ length buf' = length buf)
  /\ (buf_size = 0 -> ip6_to_str_buf addr buf buf_size = Ok (buf, 18)).
Proof.
  intros Hs Ht Hb. split.
  - intros Hpos. unfold ip6_to_str_buf.
    rewrite g_strlcpy_truncates by lia.
    rewrite bind_Ok. cbv beta iota.
    assert (E : (buf_size - 1 <? Z.of_nat (length (ws_inet_ntop6 addr))) = true)
      by (apply Z.ltb_lt; lia).
    rewrite E.
    set (buf1 := truncated_to (Z.to_nat buf_size) (ws_inet_ntop6 addr) ++ _).
    assert (L1 : length buf1 = length buf)
      by (unfold buf1; apply length_truncated_over; lia).
    rewrite g_strlcpy_truncates by lia.
    eexists. split; [reflexivity|]. split.
    + apply c_str_truncated_to; [lia | apply BUF_TOO_SMALL_ERR_chars].
    + rewrite length_truncated_over by lia. exact L1.
  - intros ->. unfold ip6_to_str_buf, g_strlcpy.
    change (to_gsize 0 =? 0) with true. cbv iota.
    rewrite bind_Ok. cbv beta iota.
    assert (E : (0 - 1 <? Z.of_nat (length (ws_inet_ntop6 addr))) = true)
      by (apply Z.ltb_lt; lia).
    rewrite E. reflexivity.
Qed.

End Ip6Sentinel.

Lemma ip6_to_str_buf_sentinel_witness :
  (exists buf',
     @ip6_to_str_buf test_ntop [0;0;0;0;0;0;0;0;0;0;0;0;0;0;0;1] (replicate 3 88) 3
     = Ok (buf', 18)
     /\ c_str buf' = Some (str "[B"))
  /\ @ip6_to_str_buf test_ntop [0;0;0;0;0;0;0;0;0;0;0;0;0;0;0;1] (replicate 3 88) 0
     = Ok (replicate 3 88, 18).
Proof.
  destruct (@ip6_to_str_buf_sentinel test_ntop
              [0;0;0;0;0;0;0;0;0;0;0;0;0;0;0;1] (replicate 3 88) 3)
    as [H3 _];
    [vm_compute; intuition discriminate | reflexivity
     | vm_compute; discriminate |].
  destruct (@ip6_to_str_buf_sentinel test_ntop
              [0;0;0;0;0;0;0;0;0;0;0;0;0;0;0;1] (replicate 3 88) 0)
    as [_ H0];
    [vm_compute; intuition discriminate | reflexivity
     | vm_compute; discriminate |].
  destruct (H3 ltac:(lia)) as (buf' & E & Hs & _).
  split; [exists buf'; split; [exact E | exact Hs] | exact (H0 eq_refl)].
Defined.

(** ** The duration formatter: what is appended, and how much *)

(** The lengths of the string literals in a hypothesis or the goal. *)
Ltac str_lengths :=
  repeat match goal with
         | |- context [length (str ?s)] =>
             let n := eval vm_compute in (length (str s)) in
             change (length (str s)) with n
         | H : context [length (str ?s)] |- _ =>
             let n := eval vm_compute in (length (str s)) in
             change (length (str s)) with n in H
         end.

Lemma unsigned_time_secs_to_str_buf_app time_val frac is_nsecs buf :
  unsigned_time_secs_to_str_buf time_val frac is_nsecs buf
  = buf ++ unsigned_time_secs_to_str_buf time_val frac is_nsecs [].
Proof.
  unfold unsigned_time_secs_to_str_buf. cbv zeta.
  repeat match goal with
         | |- context [negb (?a =? ?b)] => destruct (a =? b)
         end;
    destruct is_nsecs; cbn [negb orb andb];
    rewrite ?app_nil_r, <- ?app_assoc; reflexivity.
Qed.

(** X16: [unsigned_time_secs_to_str_buf] only appends to the buffer, and
    what it appends is empty exactly when the seconds and the fraction
    are both 0, the case each caller handles by itself with
    ["0 seconds"]. *)
Theorem unsigned_time_secs_to_str_buf_appends (time_val frac : Z) (is_nsecs : bool)
    (buf : list gchar) :
  0 <= time_val < 4294967296 ->
  unsigned_time_secs_to_str_buf time_val frac is_nsecs buf
  = buf ++ unsigned_time_secs_to_str_buf time_val frac is_nsecs []
  /\ (unsigned_time_secs_to_str_buf time_val frac is_nsecs [] = []
      <-> time_val = 0 /\ frac = 0).
Proof.
  intros Hv. split; [apply unsigned_time_secs_to_str_buf_app|].
  split.
  - unfold unsigned_time_secs_to_str_buf. cbv zeta.
    rewrite !Z.rem_mod_nonneg, !Z.quot_div_nonneg
      by (try apply Z.div_pos; try apply Z.div_pos; lia).
    destruct (Z.eqb_spec (time_val / 60 / 60 / 24) 0) as [Ed|Ed];
      destruct (Z.eqb_spec ((time_val / 60 / 60) mod 24) 0) as [Eh|Eh];
      destruct (Z.eqb_spec ((time_val / 60) mod 60) 0) as [Em|Em];
      destruct (Z.eqb_spec (time_val mod 60) 0) as [Es|Es];
      destruct (Z.eqb_spec frac 0) as [Ef|Ef];
      destruct is_nsecs; cbn [negb orb andb];
      intros E;
      try (split; lia);
      apply (f_equal length) in E;
      rewrite ?length_app in E; str_lengths; cbn [length] in E; lia.
  - intros [-> ->]. destruct is_nsecs; reflexivity.
Qed.

Lemma unsigned_time_secs_to_str_buf_appends_witness :
  unsigned_time_secs_to_str_buf 90061 0 false (str "up ")
  = str "up 1 day, 1 hour, 1 minute, 1 second"
  /\ unsigned_time_secs_to_str_buf 0 0 false (str "up ") = str "up ".
Proof.
  destruct (unsigned_time_secs_to_str_buf_appends 90061 0 false (str "up "))
    as [E _]; [lia|].
  destruct (unsigned_time_secs_to_str_buf_appends 0 0 false (str "up "))
    as [E0 [_ Hz]]; [lia|].
  split.
  - rewrite E. reflexivity.
  - rewrite E0, (Hz (conj eq_refl eq_refl)). reflexivity.
Defined.

Lemma length_decimal_text_32 x :
  0 <= x < 4294967296 ->
  Z.of_nat (length (decimal_text x)) = guint32_to_str_buf_len x.
Proof.
  intros Hx.
  rewrite (length_decimal_text _ _ (guint32_to_str_buf_len_count x Hx)).
  pose proof (guint32_to_str_buf_len_range x). lia.
Qed.

Lemma length_decimal_text_le x :
  0 <= x < 4294967296 ->
  (x < 100 -> (length (decimal_text x) <= 2)%nat)
  /\ (x < 1000 -> (length (decimal_text x) <= 3)%nat)
  /\ (x < 100000 -> (length (decimal_text x) <= 5)%nat)
  /\ (x < 1000000000 -> (length (decimal_text x) <= 9)%nat).
Proof.
  intros Hx. pose proof (length_decimal_text_32 x Hx) as E.
  unfold guint32_to_str_buf_len in E.
  repeat match type of E with
         | context [?a <=? ?b] => destruct (Z.leb_spec a b)
         end; lia.
Qed.

Lemma unsigned_time_secs_length (u frac : Z) (is_nsecs : bool) :
  0 <= u < 4294967296 ->
  frac = 0 \/ (is_nsecs = false /\ 0 < frac < 1000)
  \/ (is_nsecs = true /\ 0 < frac < 1000000000) ->
  (length (unsigned_time_secs_to_str_buf u frac is_nsecs [])
   <= 44 + (if (frac =? 0)%Z then 0 else if is_nsecs then 10 else 4))%nat.
Proof.
  intros Hu Hf.
  unfold unsigned_time_secs_to_str_buf. cbv zeta.
  rewrite !Z.rem_mod_nonneg, !Z.quot_div_nonneg
    by (try apply Z.div_pos; try apply Z.div_pos; lia).
  set (d := u / 60 / 60 / 24). set (h := (u / 60 / 60) mod 24).
  set (m := (u / 60) mod 60). set (s := u mod 60).
  assert (Hd : 0 <= d < 100000) by (unfold d; lia).
  assert (Hh : 0 <= h < 24) by (unfold h; lia).
  assert (Hm : 0 <= m < 60) by (unfold m; lia).
  assert (Hs : 0 <= s < 60) by (unfold s; lia).
  destruct (length_decimal_text_le d ltac:(lia)) as (_ & _ & Ld & _).
  destruct (length_decimal_text_le h ltac:(lia)) as (Lh & _).
  destruct (length_decimal_text_le m ltac:(lia)) as (Lm & _).
  destruct (length_decimal_text_le s ltac:(lia)) as (Ls & _).
  specialize (Ld ltac:(lia)). specialize (Lh ltac:(lia)).
  specialize (Lm ltac:(lia)). specialize (Ls ltac:(lia)).
  assert (Lf3 : 0 < frac < 1000 -> length (printf_0u 3 frac) = 3%nat).
  { intros Hr. rewrite length_printf_0u.
    destruct (length_decimal_text_le frac ltac:(lia)) as (_ & L & _).
    specialize (L ltac:(lia)). lia. }
  assert (Lf9 : 0 < frac < 1000000000 -> length (printf_0u 9 frac) = 9%nat).
  { intros Hr. rewrite length_printf_0u.
    destruct (length_decimal_text_le frac ltac:(lia)) as (_ & _ & _ & L).
    specialize (L ltac:(lia)). lia. }
  assert (LP : forall x, (length (PLURALIZE x) <= 1)%nat).
  { intros x. unfold PLURALIZE. destruct (1 <? x); simpl; lia. }
  pose proof (LP d). pose proof (LP h). pose proof (LP m). pose proof (LP s).
  clearbody d h m s. clear Hu LP.
  unfold printf_u, COMMA.
  destruct (Z.eqb_spec d 0); destruct (Z.eqb_spec h 0);
    destruct (Z.eqb_spec m 0); destruct (Z.eqb_spec s 0);
    destruct (Z.eqb_spec frac 0); destruct is_nsecs;
    cbn [negb orb andb];
    rewrite ?length_app, ?Lf3, ?Lf9
      by (destruct Hf as [?|[[? ?]|[? ?]]]; (lia || discriminate));
    str_lengths; cbn [length];
    try lia;
    destruct Hf as [?|[[? ?]|[? ?]]]; (lia || discriminate).
Qed.

(** X17: what the duration formatter appends fits the size its callers
    reserve: for every signed 32-bit number of seconds, the text has at
    most [TIME_SECS_LEN] characters with no fraction or a fraction in
    milliseconds below 1000, and at most [TIME_SECS_LEN + 6] with a
    fraction in nanoseconds below 1000000000. *)
Theorem signed_time_secs_to_str_buf_length (time_val frac : Z) (is_nsecs : bool) :
  G_MININT32 <= time_val <= 2147483647 ->
  frac = 0 \/ (is_nsecs = false /\ 0 < frac < 1000)
  \/ (is_nsecs = true /\ 0 < frac < 1000000000) ->
  Z.of_nat (length (signed_time_secs_to_str_buf time_val frac is_nsecs []))
  <= TIME_SECS_LEN + (if is_nsecs then 6 else 0).
Proof.
  intros Hv Hf. unfold G_MININT32 in Hv.
  assert (B : forall u, 0 <= u < 4294967296 ->
                Z.of_nat (length (unsigned_time_secs_to_str_buf u frac is_nsecs []))
                <= TIME_SECS_LEN - 1 + (if is_nsecs then 6 else 0)).
  { intros u Hu. pose proof (unsigned_time_secs_length u frac is_nsecs Hu Hf) as L.
    unfold TIME_SECS_LEN.
    destruct (Z.eqb_spec frac 0); destruct is_nsecs; lia. }
  unfold signed_time_secs_to_str_buf, G_MAXUINT32, G_MININT32, to_guint32.
  destruct (Z.ltb_spec time_val 0) as [Hneg|Hpos].
  - cbv zeta.
    destruct (Z.eqb_spec time_val (-2147483648)) as [->|Hne];
      rewrite unsigned_time_secs_to_str_buf_app, length_app;
      change (length ([] ++ str "-")) with 1%nat.
    + specialize (B 4294967295 ltac:(lia)). lia.
    + rewrite Z.mod_small by lia. specialize (B (- time_val) ltac:(lia)). lia.
  - rewrite Z.mod_small by lia. specialize (B time_val ltac:(lia)). lia.
Qed.

Lemma signed_time_secs_to_str_buf_length_witness :
  Z.of_nat (length (signed_time_secs_to_str_buf (-2147483647) 999 false [])) <= 50
  /\ signed_time_secs_to_str_buf (-2147483647) 999 false []
     = str "-24855 days, 3 hours, 14 minutes, 7.999 seconds".
Proof.
  split; [|reflexivity].
  apply (signed_time_secs_to_str_buf_length (-2147483647) 999 false).
  - unfold G_MININT32. lia.
  - right. left. split; [reflexivity | lia].
Defined.

(** ** Relative time in seconds *)

Lemma decimal_text_digits v :
  0 <= v < 18446744073709551616 ->
  Forall (fun c => 48 <= c <= 57) (decimal_text v).
Proof.
  intros Hv.
  rewrite <- (dec_digits_canonical _ _ (guint64_to_str_buf_len_count v Hv)).
  unfold dec_digits. apply Forall_map.
  eapply Forall_impl; [apply dec_digit_list_range|].
  intros d Hd. cbv beta in Hd. cbn [compose]. lia.
Qed.

Lemma length_decimal_text_64_le v :
  0 <= v < 18446744073709551616 ->
  (1 <= length (decimal_text v) <= 20)%nat
  /\ (v < 10000000000000000000 -> (length (decimal_text v) <= 19)%nat)
  /\ (v < 4294967296 -> (length (decimal_text v) <= 10)%nat).
Proof.
  intros Hv.
  pose proof (length_decimal_text _ _ (guint64_to_str_buf_len_count v Hv)) as E.
  pose proof (guint64_to_str_buf_len_range v) as Hr.
  split; [lia|].
  unfold guint64_to_str_buf_len in E.
  repeat match type of E with
         | context [?a <=? ?b] => destruct (Z.leb_spec a b)
         end; lia.
Qed.

Lemma uint64_to_str_back_canonical u :
  0 <= u < 18446744073709551616 ->
  writes_back (fun st => uint64_to_str_back st u) (decimal_text u).
Proof.
  intros Hu.
  pose proof (guint64_to_str_buf_len_count u Hu) as Hc.
  pose proof (guint64_to_str_buf_len_range u) as Hr.
  rewrite <- (dec_digits_canonical _ _ Hc).
  apply uint64_to_str_back_writes; [exact Hc|]. unfold loop_fuel. lia.
Qed.

Lemma uint_to_str_back_canonical u :
  0 <= u < 4294967296 ->
  writes_back (fun st => uint_to_str_back st u) (decimal_text u).
Proof.
  intros Hu.
  pose proof (guint32_to_str_buf_len_count u Hu) as Hc.
  pose proof (guint32_to_str_buf_len_range u) as Hr.
  rewrite <- (dec_digits_canonical _ _ Hc).
  apply uint_to_str_back_writes; [exact Hc|]. unfold loop_fuel. lia.
Qed.

Lemma int64_to_str_back_writes v :
  G_MININT64 < v < - G_MININT64 ->
  writes_back (fun st => int64_to_str_back st v) (signed_decimal_text v).
Proof.
  unfold G_MININT64. intros Hv.
  apply (int_back_writes uint64_to_str_back to_guint64 (-9223372036854775808)).
  - intros u Hu. unfold to_guint64. apply Z.mod_small. lia.
  - intros u Hu. apply uint64_to_str_back_canonical. lia.
  - lia.
Qed.

Lemma uint_to_str_back_len_writes v len :
  0 <= v < 4294967296 ->
  G_MININT32 + 10 <= len <= 2147483647 ->
  writes_back (fun st => uint_to_str_back_len st v len) (printf_0u (Z.to_nat len) v).
Proof.
  intros Hv Hlen.
  apply (back_len_writes (fun st => uint_to_str_back st v)).
  - now apply uint_to_str_back_canonical.
  - destruct (length_decimal_text_64_le v ltac:(lia)) as (L1 & _ & L2).
    specialize (L2 ltac:(lia)). unfold G_MININT32 in *. lia.
Qed.

Lemma length_signed_decimal_text v :
  G_MININT64 < v < - G_MININT64 ->
  (1 <= length (signed_decimal_text v) <= 20)%nat.
Proof.
  unfold G_MININT64. intros Hv.
  destruct (Z_lt_le_dec v 0) as [Hneg|Hpos].
  - rewrite signed_decimal_text_neg by lia. cbn [length].
    destruct (length_decimal_text_64_le (- v) ltac:(lia)) as (_ & L & _).
    specialize (L ltac:(lia)). lia.
  - rewrite signed_decimal_text_nonneg by lia.
    destruct (length_decimal_text_64_le v ltac:(lia)) as (L & _). lia.
Qed.

Lemma signed_decimal_text_nonzero v :
  G_MININT64 < v < - G_MININT64 ->
  Forall (fun c => c <> NUL) (signed_decimal_text v).
Proof.
  unfold G_MININT64. intros Hv.
  assert (D : forall u, 0 <= u < 18446744073709551616 ->
                Forall (fun c => c <> NUL) (decimal_text u)).
  { intros u Hu. eapply Forall_impl; [now apply decimal_text_digits|].
    unfold NUL. intros c Hc. lia. }
  destruct (Z_lt_le_dec v 0) as [Hneg|Hpos].
  - rewrite signed_decimal_text_neg by lia.
    constructor; [discriminate | apply D; lia].
  - rewrite signed_decimal_text_nonneg by lia. apply D. lia.
Qed.

Lemma printf_0u_nonzero w v :
  0 <= v < 18446744073709551616 -> Forall (fun c => c <> NUL) (printf_0u w v).
Proof.
  intros Hv. unfold printf_0u. apply Forall_app. split.
  - apply Forall_replicate. discriminate.
  - eapply Forall_impl; [now apply decimal_text_digits|].
    unfold NUL. intros c Hc. lia.
Qed.

Lemma take_min_length {A} (l : list A) k : take (Nat.min (length l) k) l = take k l.
Proof.
  destruct (Nat.le_gt_cases (length l) k).
  - rewrite Nat.min_l by lia. now rewrite !take_ge by lia.
  - now rewrite Nat.min_r by lia.
Qed.

(** One bounded copy of [display_signed_time]: the destination holds
    the text [a] so far, cut to [cap], and receives what still fits of
    the text [T] that the scratch array holds at [ptr]. *)
Lemma display_copy_step (cap : nat) buf a T nbpre nbsuf ptr buflen :
  (cap <= length buf)%nat ->
  ptr = length nbpre ->
  buflen = Z.of_nat cap - Z.of_nat (length (take cap a)) ->
  let n := Z.to_nat (Z.min (Z.of_nat (length T)) buflen) in
  memcpy (take cap a ++ drop (length (take cap a)) buf) (length (take cap a))
         (nbpre ++ T ++ nbsuf) ptr n
  = Ok (take cap (a ++ T) ++ drop (length (take cap (a ++ T))) buf)
  /\ (length (take cap a) + n)%nat = length (take cap (a ++ T))
  /\ buflen - Z.min (Z.of_nat (length T)) buflen
     = Z.of_nat cap - Z.of_nat (length (take cap (a ++ T))).
Proof.
  intros Hcap -> -> n.
  pose proof (length_take a cap) as La.
  assert (Hn : n = Nat.min (length T) (cap - length (take cap a))) by lia.
  assert (Et : take cap (a ++ T) = take cap a ++ take n T).
  { rewrite take_app. f_equal. rewrite Hn, take_min_length. f_equal. lia. }
  assert (Ln : length (take n T) = n) by (rewrite length_take; lia).
  split; [|split].
  - unfold memcpy.
    assert (E : (length nbpre + n <=? length (nbpre ++ T ++ nbsuf))%nat = true).
    { apply Nat.leb_le. rewrite !length_app. lia. }
    rewrite E, drop_app_length, take_app_le by lia.
    rewrite write_at_over by lia.
    rewrite Et, app_assoc, length_app. reflexivity.
  - rewrite Et, length_app. lia.
  - rewrite Et, length_app. lia.
Qed.

Lemma put_back_over nb k data c :
  (1 + length data <= k <= length nb)%nat ->
  put_back c (take (k - length data) nb ++ data ++ drop k nb, (k - length data)%nat)
  = Ok (take (k - (length data + 1)) nb ++ (c :: data) ++ drop k nb,
        (k - (length data + 1))%nat).
Proof.
  intros Hk.
  set (q := (k - (length data + 1))%nat).
  replace (k - length data)%nat with (S q) by lia.
  destruct (lookup_lt_is_Some_2 nb q ltac:(lia)) as [x Hx].
  rewrite (take_S_r nb q x Hx), <- app_assoc.
  pose proof (writes_back_put c (take q nb) [x] (data ++ drop k nb) eq_refl) as E.
  rewrite length_take in E.
  replace (q `min` length nb + length [x])%nat with (S q) in E by (simpl; lia).
  replace (q `min` length nb)%nat with q in E by lia.
  exact E.
Qed.

Lemma store_last_over buf w c :
  (1 <= length w <= length buf)%nat ->
  store (w ++ drop (length w) buf) (length w - 1) c
  = Ok (take (length w - 1) w ++ c :: drop (length w) buf).
Proof.
  intros Hw.
  destruct (lookup_lt_is_Some_2 w (length w - 1) ltac:(lia)) as [x Hx].
  rewrite <- (take_drop (length w - 1) w) at 1.
  rewrite (drop_S w x (length w - 1) Hx).
  replace (S (length w - 1)) with (length w) by lia.
  rewrite drop_all, <- app_assoc.
  pose proof (store_middle (take (length w - 1) w) x (drop (length w) buf) c) as E.
  rewrite length_take in E.
  replace (((length w - 1) `min` length w))%nat with (length w - 1)%nat in E by lia.
  exact E.
Qed.

(** The fraction of [display_signed_time]: the padded digits written
    backward into the scratch array, the point before them, and the
    bounded copy of both. *)
Lemma display_frac_step (cap : nat) buf a nb frac len buflen :
  length nb = 20%nat -> 0 <= frac < 2147483648 -> 0 <= len <= 9 ->
  (cap <= length buf)%nat ->
  buflen = Z.of_nat cap - Z.of_nat (length (take cap a)) ->
  let F := 46 :: printf_0u (Z.to_nat len) frac in
  exists st nbF ptrF,
    uint_to_str_back_len (nb, 20%nat) (to_guint32 frac) len = Ok st
    /\ put_back 46 st = Ok (nbF, ptrF)
    /\ memcpy (take cap a ++ drop (length (take cap a)) buf) (length (take cap a))
              nbF ptrF (Z.to_nat (Z.min (Z.of_nat (20 - ptrF)) buflen))
       = Ok (take cap (a ++ F) ++ drop (length (take cap (a ++ F))) buf)
    /\ (length (take cap a) + Z.to_nat (Z.min (Z.of_nat (20 - ptrF)) buflen))%nat
       = length (take cap (a ++ F))
    /\ buflen - Z.min (Z.of_nat (20 - ptrF)) buflen
       = Z.of_nat cap - Z.of_nat (length (take cap (a ++ F))).
Proof.
  intros Hnb Hfrac Hlen Hcap Hbl F.
  set (D := printf_0u (Z.to_nat len) frac).
  assert (LD : (1 <= length D <= 10)%nat).
  { unfold D. rewrite length_printf_0u.
    destruct (length_decimal_text_64_le frac ltac:(lia)) as (L1 & _ & L2).
    specialize (L2 ltac:(lia)). lia. }
  unfold to_guint32. rewrite Z.mod_small by lia.
  pose proof (writes_back_at _ _ nb 20
                (uint_to_str_back_len_writes frac len ltac:(lia)
                   ltac:(unfold G_MININT32; lia))
                ltac:(fold D; lia) ltac:(lia)) as EU.
  cbv beta in EU. fold D in EU.
  pose proof (put_back_over nb 20 D 46 ltac:(lia)) as EP.
  do 3 eexists. split; [exact EU|]. split; [exact EP|].
  replace (20 - (20 - (length D + 1)))%nat with (length F)
    by (unfold F; fold D; cbn [length]; lia).
  apply (display_copy_step cap buf a F (take (20 - (length D + 1)) nb) (drop 20 nb)).
  - exact Hcap.
  - rewrite length_take. lia.
  - exact Hbl.
Qed.

(** The end of [display_signed_time]: the terminator goes after the
    text stored, or over its last character when the room is used up. *)
Lemma display_finish (cap : nat) buf text :
  (1 <= cap <= length buf)%nat ->
  (b ← (if Z.of_nat cap - Z.of_nat (length (take cap text)) =? 0
         then match length (take cap text) with
              | O => Undefined
              | S b' => Ok b'
              end
         else Ok (length (take cap text)));
   store (take cap text ++ drop (length (take cap text)) buf) b NUL)
  = Ok (take (cap - 1) text ++ NUL :: drop (S (length (take (cap - 1) text))) buf).
Proof.
  intros Hcap.
  pose proof (length_take text cap) as Lw.
  pose proof (length_take text (cap - 1)) as Lt.
  destruct (Z.eqb_spec (Z.of_nat cap - Z.of_nat (length (take cap text))) 0)
    as [E|E].
  - assert (Em : match length (take cap text) with
                 | O => Undefined
                 | S b' => Ok b'
                 end = Ok (length (take cap text) - 1)%nat).
    { destruct (length (take cap text)) as [|b']; [lia|]. f_equal. lia. }
    rewrite Em, bind_Ok, store_last_over by lia.
    rewrite take_take.
    replace ((length (take cap text) - 1) `min` cap)%nat with (cap - 1)%nat by lia.
    do 4 f_equal. lia.
  - rewrite bind_Ok.
    assert (Hshort : (length text < cap)%nat) by lia.
    rewrite (take_ge text cap), (take_ge text (cap - 1)) by lia.
    apply store_over. lia.
Qed.

Lemma signed_time_text_nonzero sec frac units :
  G_MININT64 < sec < - G_MININT64 -> G_MININT32 < frac < - G_MININT32 ->
  Forall (fun c => c <> NUL) (signed_time_text sec frac units).
Proof.
  unfold G_MININT32. intros Hsec Hfrac. unfold signed_time_text.
  rewrite !Forall_app. split; [|split].
  - destruct (_ && _); [apply Forall_singleton; discriminate | constructor].
  - now apply signed_decimal_text_nonzero.
  - destruct (frac_digits units); [|constructor].
    constructor; [discriminate|]. apply printf_0u_nonzero. lia.
Qed.

(** The run of [display_signed_time] when it has room for the
    terminator at least. *)
Lemma display_signed_time_runs (num_buf buf : list gchar) (buflen sec frac : Z)
    (units : to_str_time_res_t) :
  length num_buf = CHARS_64_BIT_SIGNED ->
  G_MININT64 < sec < - G_MININT64 ->
  G_MININT32 < frac < - G_MININT32 ->
  1 <= buflen <= Z.of_nat (length buf) ->
  let t := take (Z.to_nat (buflen - 1)) (signed_time_text sec frac units) in
  display_signed_time num_buf buf buflen sec frac units
  = Ok (t ++ NUL :: drop (S (length t)) buf).
Proof.
  intros Hnb Hsec Hfrac [Hpos Hlen] t. unfold CHARS_64_BIT_SIGNED in Hnb.
  set (cap := Z.to_nat buflen).
  assert (Hcap : Z.of_nat cap = buflen) by (unfold cap; lia).
  assert (Et : t = take (cap - 1) (signed_time_text sec frac units))
    by (unfold t; f_equal; lia).
  set (S0 := if (frac <? 0) && (0 <=? sec) then str "-" else []).
  assert (LS0 : (length S0 <= 1)%nat)
    by (unfold S0; destruct (_ && _); simpl; lia).
  assert (ES0 : take cap S0 = S0) by (apply take_ge; lia).
  unfold display_signed_time, CHARS_64_BIT_SIGNED. cbv zeta.
  assert (E1 : (buflen <? 1) = false) by (apply Z.ltb_ge; lia).
  rewrite E1.
  (* the sign *)
  match goal with
  | |- mbind ?k ?m = _ =>
      assert (HA : m = Ok (Z.abs frac,
                           take cap S0 ++ drop (length (take cap S0)) buf,
                           length (take cap S0),
                           buflen - Z.of_nat (length (take cap S0))))
  end.
  { rewrite ES0. unfold S0, negate_signed, G_MININT32 in *.
    destruct (Z.ltb_spec frac 0) as [Hneg|Hnn].
    - destruct (Z.eqb_spec frac (-2147483648)) as [?|_]; [lia|].
      rewrite bind_Ok.
      destruct (Z.leb_spec 0 sec) as [Hs|Hs]; cbn [andb].
      + pose proof (store_over buf [] 45 ltac:(simpl; lia)) as ES.
        cbn [app length] in ES. rewrite drop_0 in ES.
        rewrite ES, bind_Ok.
        replace (- frac) with (Z.abs frac) by lia. reflexivity.
      + cbn [app length]. rewrite ?drop_0.
        replace (buflen - Z.of_nat 0) with buflen by lia.
        replace (- frac) with (Z.abs frac) by lia. reflexivity.
    - cbn [andb app length]. rewrite ?drop_0.
      replace (buflen - Z.of_nat 0) with buflen by lia.
      replace (Z.abs frac) with frac by lia. reflexivity. }
  rewrite HA, bind_Ok. cbv beta iota.
  (* the seconds *)
  pose proof (length_signed_decimal_text sec Hsec) as LT1.
  pose proof (writes_back_at _ _ num_buf 20 (int64_to_str_back_writes sec Hsec)
                ltac:(lia) ltac:(lia)) as EB.
  cbv beta in EB. rewrite EB, bind_Ok. cbv beta iota.
  replace (20 - (20 - length (signed_decimal_text sec)))%nat
    with (length (signed_decimal_text sec)) by lia.
  destruct (display_copy_step cap buf S0 (signed_decimal_text sec)
              (take (20 - length (signed_decimal_text sec)) num_buf)
              (drop 20 num_buf) (20 - length (signed_decimal_text sec))
              (buflen - Z.of_nat (length (take cap S0))))
    as (EM & EL & EBL); [lia | rewrite length_take; lia | lia |].
  cbv zeta in EM, EL. rewrite EM, bind_Ok, EL, EBL.
  set (nb1 := take (20 - length (signed_decimal_text sec)) num_buf
              ++ signed_decimal_text sec ++ drop 20 num_buf).
  assert (Lnb1 : length nb1 = 20%nat).
  { unfold nb1. rewrite !length_app, length_take, length_drop. lia. }
  assert (Habs : 0 <= Z.abs frac < 2147483648) by (unfold G_MININT32 in Hfrac; lia).
  (* the fraction *)
  assert (Hfin : forall F,
            signed_time_text sec frac units = (S0 ++ signed_decimal_text sec) ++ F ->
            (b ← (if Z.of_nat cap
                     - Z.of_nat (length (take cap ((S0 ++ signed_decimal_text sec) ++ F)))
                     =? 0
                  then match length (take cap ((S0 ++ signed_decimal_text sec) ++ F)) with
                       | O => Undefined
                       | S b' => Ok b'
                       end
                  else Ok (length (take cap ((S0 ++ signed_decimal_text sec) ++ F))));
             store (take cap ((S0 ++ signed_decimal_text sec) ++ F)
                      ++ drop (length (take cap ((S0 ++ signed_decimal_text sec) ++ F))) buf)
                   b NUL)
            = Ok (t ++ NUL :: drop (S (length t)) buf)).
  { intros F EF. rewrite display_finish by lia. now rewrite Et, EF. }
  assert (Hsome : forall len : Z, 0 <= len <= 9 ->
            frac_digits units = Some (Z.to_nat len) ->
            (st ← uint_to_str_back_len (nb1, 20%nat) (to_guint32 (Z.abs frac)) len;
             Ok (Some st)) ≫=
            (fun num =>
               match num with
               | None =>
                   Ok (take cap (S0 ++ signed_decimal_text sec)
                         ++ drop (length (take cap (S0 ++ signed_decimal_text sec))) buf,
                       length (take cap (S0 ++ signed_decimal_text sec)),
                       Z.of_nat cap
                       - Z.of_nat (length (take cap (S0 ++ signed_decimal_text sec))))
               | Some st =>
                   '(num_buf, num_ptr) ← put_back 46 st;
                   buf0 ← memcpy
                            (take cap (S0 ++ signed_decimal_text sec)
                               ++ drop (length (take cap (S0 ++ signed_decimal_text sec))) buf)
                            (length (take cap (S0 ++ signed_decimal_text sec)))
                            num_buf num_ptr
                            (Z.to_nat
                               (Z.min (Z.of_nat (20 - num_ptr))
                                  (Z.of_nat cap
                                   - Z.of_nat
                                       (length (take cap (S0 ++ signed_decimal_text sec))))));
                   Ok (buf0,
                       (length (take cap (S0 ++ signed_decimal_text sec))
                        + Z.to_nat
                            (Z.min (Z.of_nat (20 - num_ptr))
                               (Z.of_nat cap
                                - Z.of_nat
                                    (length (take cap (S0 ++ signed_decimal_text sec))))))%nat,
                       Z.of_nat cap
                       - Z.of_nat (length (take cap (S0 ++ signed_decimal_text sec)))
                       - Z.min (Z.of_nat (20 - num_ptr))
                           (Z.of_nat cap
                            - Z.of_nat
                                (length (take cap (S0 ++ signed_decimal_text sec)))))
               end ≫=
               (fun '(buf0, b, buflen0) =>
                  b ← (if buflen0 =? 0
                       then match b with O => Undefined | S b' => Ok b' end
                       else Ok b);
                  store buf0 b NUL))
            = Ok (t ++ NUL :: drop (S (length t)) buf)).
  { intros len Hl Hu.
    destruct (display_frac_step cap buf (S0 ++ signed_decimal_text sec) nb1
                (Z.abs frac) len
                (Z.of_nat cap
                 - Z.of_nat (length (take cap (S0 ++ signed_decimal_text sec))))
                Lnb1 Habs Hl ltac:(lia) eq_refl)
      as (st & nbF & ptrF & EU & EP & EM2 & EL2 & EBL2).
    rewrite EU, !bind_Ok, EP, bind_Ok. cbv beta iota.
    rewrite EM2, bind_Ok, EL2, EBL2, bind_Ok. cbv beta iota.
    apply Hfin. unfold signed_time_text. fold S0. rewrite Hu.
    now rewrite <- app_assoc. }
  destruct units.
  - rewrite !bind_Ok. cbv beta iota.
    rewrite <- (app_nil_r (S0 ++ signed_decimal_text sec)).
    apply Hfin. unfold signed_time_text. fold S0. cbn [frac_digits].
    now rewrite <- app_assoc.
  - apply (Hsome 1); [lia | reflexivity].
  - apply (Hsome 2); [lia | reflexivity].
  - apply (Hsome 3); [lia | reflexivity].
  - apply (Hsome 6); [lia | reflexivity].
  - apply (Hsome 9); [lia | reflexivity].
Qed.

(** The negations of [display_signed_time]: [-frac] at the least
    [gint32], and [-value] in [int64_to_str_back] at the least
    [gint64], overflow. *)
Lemma display_signed_time_overflows (num_buf buf : list gchar) (buflen sec frac : Z)
    (units : to_str_time_res_t) :
  1 <= buflen ->
  sec = G_MININT64 \/ frac = G_MININT32 ->
  display_signed_time num_buf buf buflen sec frac units = Undefined.
Proof.
  intros Hpos Hmin. unfold display_signed_time. cbv zeta.
  assert (E1 : (buflen <? 1) = false) by (apply Z.ltb_ge; lia).
  rewrite E1.
  destruct (Z.eq_dec frac G_MININT32) as [->|Hf]; [reflexivity|].
  destruct Hmin as [->|?]; [|contradiction].
  assert (Eint : forall st, int64_to_str_back st G_MININT64 = Undefined)
    by reflexivity.
  change (0 <=? G_MININT64) with false. cbv iota.
  destruct (Z.ltb_spec frac 0) as [Hneg|Hnn].
  - unfold negate_signed.
    destruct (Z.eqb_spec frac G_MININT32) as [?|_]; [contradiction|].
    rewrite !bind_Ok, Eint. reflexivity.
  - rewrite !bind_Ok, Eint. reflexivity.
Qed.

(** X18: for every seconds value above [G_MININT64] and every fraction
    above [G_MININT32], [display_signed_time] with a [buflen] of at
    least 1 leaves a terminated string in the [buflen] bytes it is
    given: the text of the time (a ['-'] for a negative fraction under
    non-negative seconds, the signed seconds, and, except at the
    resolution of seconds, a point and the magnitude of the fraction at
    the width of the resolution) cut to [buflen - 1] characters; it
    touches nothing after the terminator and does not depend on what
    the scratch array held.  At seconds of [G_MININT64] or a fraction
    of [G_MININT32] the negation of that value overflows.  With
    [buflen < 1] it leaves the buffer as it is. *)
Theorem display_signed_time_truncates (num_buf buf : list gchar) (buflen sec frac : Z)
    (units : to_str_time_res_t) :
  length num_buf = CHARS_64_BIT_SIGNED ->
  G_MININT64 <= sec < - G_MININT64 ->
  G_MININT32 <= frac < - G_MININT32 ->
  buflen <= Z.of_nat (length buf) ->
  let t := take (Z.to_nat (buflen - 1)) (signed_time_text sec frac units) in
  (1 <= buflen -> G_MININT64 < sec -> G_MININT32 < frac ->
   display_signed_time num_buf buf buflen sec frac units
   = Ok (t ++ NUL :: drop (S (length t)) buf)
   /\ c_str (t ++ NUL :: drop (S (length t)) buf) = Some t)
  /\ (1 <= buflen -> sec = G_MININT64 \/ frac = G_MININT32 ->
      display_signed_time num_buf buf buflen sec frac units = Undefined)
  /\ (buflen < 1 ->
      display_signed_time num_buf buf buflen sec frac units = Ok buf).
Proof.
  intros Hnb Hsec Hfrac Hlen t. split; [|split].
  - intros Hpos Hs Hf. split.
    + apply display_signed_time_runs; try assumption; lia.
    + apply c_str_app. apply Forall_take.
      apply signed_time_text_nonzero; lia.
  - intros Hpos Hmin. now apply display_signed_time_overflows.
  - intros Hsmall. unfold display_signed_time.
    assert (E : (buflen <? 1) = true) by (apply Z.ltb_lt; lia).
    now rewrite E.
Qed.

Lemma display_signed_time_truncates_witness :
  display_signed_time (replicate 20 7) (replicate 6 88) 5 1234 (-5)
    TO_STR_TIME_RES_T_NSECS
  = Ok (str "-123" ++ [NUL; 88])
  /\ display_signed_time (replicate 20 7) (replicate 16 88) 16 (-12) 5
       TO_STR_TIME_RES_T_MSECS
     = Ok (str "-12.005" ++ NUL :: replicate 8 88)
  /\ display_signed_time (replicate 20 7) (replicate 16 88) 16 G_MININT64 5
       TO_STR_TIME_RES_T_MSECS
     = Undefined.
Proof.
  destruct (display_signed_time_truncates (replicate 20 7) (replicate 6 88) 5
              1234 (-5) TO_STR_TIME_RES_T_NSECS)
    as [H1 _]; [reflexivity | vm_compute; split; [discriminate | reflexivity]
                | vm_compute; split; [discriminate | reflexivity]
                | vm_compute; discriminate |].
  destruct (display_signed_time_truncates (replicate 20 7) (replicate 16 88) 16
              (-12) 5 TO_STR_TIME_RES_T_MSECS)
    as [H2 _]; [reflexivity | vm_compute; split; [discriminate | reflexivity]
                | vm_compute; split; [discriminate | reflexivity]
                | vm_compute; discriminate |].
  destruct (display_signed_time_truncates (replicate 20 7) (replicate 16 88) 16
              G_MININT64 5 TO_STR_TIME_RES_T_MSECS)
    as (_ & H3 & _); [reflexivity | vm_compute; split; [discriminate | reflexivity]
                      | vm_compute; split; [discriminate | reflexivity]
                      | vm_compute; discriminate |].
  destruct (H1 ltac:(lia) ltac:(reflexivity) ltac:(reflexivity)) as [E1 _].
  destruct (H2 ltac:(lia) ltac:(reflexivity) ltac:(reflexivity)) as [E2 _].
  split; [exact E1|]. split; [exact E2|].
  apply H3; [lia | now left].
Defined.

Lemma length_signed_time_text_nsecs sec frac :
  G_MININT64 < sec < - G_MININT64 -> -1000000000 < frac < 1000000000 ->
  (length (signed_time_text sec frac TO_STR_TIME_RES_T_NSECS) <= 30)%nat.
Proof.
  unfold G_MININT64. intros Hsec Hfrac.
  unfold signed_time_text. cbn [frac_digits].
  rewrite !length_app, length_printf_0u. str_lengths.
  destruct (length_decimal_text_le (Z.abs frac) ltac:(lia)) as (_ & _ & _ & Lf).
  specialize (Lf ltac:(lia)).
  destruct (Z.leb_spec 0 sec) as [Hs|Hs].
  - rewrite signed_decimal_text_nonneg by lia.
    destruct (length_decimal_text_64_le sec ltac:(lia)) as (_ & L & _).
    specialize (L ltac:(lia)).
    destruct (frac <? 0); cbn [andb]; str_lengths; cbn [length]; lia.
  - rewrite andb_false_r. cbn [length].
    pose proof (length_signed_decimal_text sec ltac:(unfold G_MININT64; lia)). lia.
Qed.

Section RelTime.
Context `{Wmem}.

(** X19: [rel_time_to_secs_str] reserves [REL_TIME_SECS_LEN] bytes, which
    is enough: for every relative time whose seconds are above
    [G_MININT64] and whose nanoseconds are below 1000000000 in
    magnitude it returns the whole text, seconds, point and nine
    digits, at most 30 characters, and never cuts it.  At seconds of
    [G_MININT64] the negation in [int64_to_str_back] overflows. *)
Theorem rel_time_to_secs_str_whole (num_buf : list gchar) (scope : wmem_allocator_t)
    (rel_time : nstime_t) :
  length num_buf = CHARS_64_BIT_SIGNED ->
  G_MININT64 <= secs rel_time < - G_MININT64 ->
  -1000000000 < nsecs rel_time < 1000000000 ->
  let text := signed_time_text (secs rel_time) (nsecs rel_time)
                TO_STR_TIME_RES_T_NSECS in
  (G_MININT64 < secs rel_time ->
   exists rest,
     rel_time_to_secs_str num_buf scope rel_time = Ok (text ++ NUL :: rest)
     /\ c_str (text ++ NUL :: rest) = Some text
     /\ (length text <= 30)%nat)
  /\ (secs rel_time = G_MININT64 ->
      rel_time_to_secs_str num_buf scope rel_time = Undefined).
Proof.
  intros Hnb Hsec0 Hfrac text. split.
  - intros Hmin.
    assert (Hsec : G_MININT64 < secs rel_time < - G_MININT64) by lia.
    pose proof (length_signed_time_text_nsecs _ _ Hsec Hfrac) as L. fold text in L.
    pose proof (wmem_alloc_length scope REL_TIME_SECS_LEN) as Hl.
    unfold rel_time_to_secs_str.
    change REL_TIME_SECS_LEN with 31%nat in *.
    pose proof (display_signed_time_runs num_buf (wmem_alloc scope 31) (Z.of_nat 31)
                  (secs rel_time) (nsecs rel_time) TO_STR_TIME_RES_T_NSECS
                  Hnb Hsec ltac:(unfold G_MININT32; lia) ltac:(lia)) as E.
    cbv zeta in E.
    change (Z.to_nat (Z.of_nat 31 - 1)) with 30%nat in E.
    fold text in E. rewrite (take_ge text 30) in E by lia.
    eexists. split; [exact E|]. split; [|exact L].
    apply c_str_app. apply signed_time_text_nonzero; [exact Hsec|].
    unfold G_MININT32. lia.
  - intros Hmin. unfold rel_time_to_secs_str.
    apply display_signed_time_overflows; [|now left].
    change REL_TIME_SECS_LEN with 31%nat. lia.
Qed.

End RelTime.

Lemma rel_time_to_secs_str_whole_witness :
  (exists rest,
     @rel_time_to_secs_str test_wmem (replicate 20 7) tt {| secs := 0; nsecs := -5 |}
     = Ok (str "-0.000000005" ++ NUL :: rest)
     /\ c_str (str "-0.000000005" ++ NUL :: rest) = Some (str "-0.000000005"))
  /\ @rel_time_to_secs_str test_wmem (replicate 20 7) tt
       {| secs := G_MININT64; nsecs := 0 |}
     = Undefined.
Proof.
  destruct (@rel_time_to_secs_str_whole test_wmem (replicate 20 7) tt
              {| secs := 0; nsecs := -5 |})
    as [Hrun _];
    [reflexivity | vm_compute; split; [discriminate | reflexivity]
     | cbn [nsecs]; lia |].
  destruct (@rel_time_to_secs_str_whole test_wmem (replicate 20 7) tt
              {| secs := G_MININT64; nsecs := 0 |})
    as [_ Hmin];
    [reflexivity | vm_compute; split; [discriminate | reflexivity]
     | cbn [nsecs]; lia |].
  destruct (Hrun ltac:(reflexivity)) as (rest & E & Hs & _).
  split; [exists rest; split; [exact E | exact Hs] | exact (Hmin eq_refl)].
Defined.

(** ** EUI-64 *)

Lemma rev_le_bytes n v : rev (le_bytes n v) = be_bytes n v.
Proof.
  revert v. induction n as [|n IH]; intros v; [reflexivity|].
  cbn [le_bytes be_bytes rev]. now rewrite IH.
Qed.

Lemma network_order_snoc l b :
  fold_left (fun acc b => acc * 256 + b) (l ++ [b]) 0
  = fold_left (fun acc b => acc * 256 + b) l 0 * 256 + b.
Proof. now rewrite fold_left_app. Qed.

(** Bytes read in network order and laid out again: most significant
    first they are the bytes read, least significant first their
    reverse. *)
Lemma bytes_of_network_order l :
  Forall (fun b => 0 <= b < 256) l ->
  be_bytes (length l) (fold_left (fun acc b => acc * 256 + b) l 0) = l
  /\ le_bytes (length l) (fold_left (fun acc b => acc * 256 + b) l 0) = rev l.
Proof.
  induction l as [|b l IH] using rev_ind; intros Hl; [split; reflexivity|].
  apply Forall_app in Hl as [Hl Hb]. apply Forall_inv in Hb.
  destruct (IH Hl) as [IHb IHl].
  rewrite network_order_snoc, length_app, rev_app_distr.
  replace (length l + length [b])%nat with (S (length l)) by (simpl; lia).
  set (x := fold_left (fun acc b => acc * 256 + b) l 0) in *.
  cbn [be_bytes le_bytes rev app].
  replace ((x * 256 + b) / 256) with x by lia.
  replace ((x * 256 + b) mod 256) with b by lia.
  now rewrite IHb, IHl.
Qed.

Lemma eui64_block host ad :
  guint64_object host (pntoh64 (guint64_object host ad)) = be_bytes 8 ad.
Proof.
  pose proof (be_bytes_range 8 ad) as Hr.
  pose proof (length_be_bytes 8 ad) as Hl.
  unfold pntoh64. destruct host; unfold guint64_object.
  - assert (Hrev : Forall (fun b => 0 <= b < 256) (le_bytes 8 ad)).
    { rewrite <- (rev_involutive (le_bytes 8 ad)), rev_le_bytes.
      now apply Forall_rev. }
    assert (Hl' : length (le_bytes 8 ad) = 8%nat).
    { rewrite <- length_rev, rev_le_bytes. exact Hl. }
    rewrite take_ge by lia.
    destruct (bytes_of_network_order _ Hrev) as [_ E].
    rewrite Hl' in E. rewrite E. apply rev_le_bytes.
  - rewrite !rev_le_bytes, take_ge by lia.
    destruct (bytes_of_network_order _ Hr) as [E _].
    rewrite Hl in E. exact E.
Qed.

Section Eui64.
Context `{Wmem}.

(** X20: [eui64_to_str] returns, whatever the byte order of the host,
    the 8 bytes of the address, most significant first, as hex pairs
    with colons between them: 23 characters and a terminator, which
    fill the block it allocates. *)
Theorem eui64_to_str_network_order (host : byte_order) (scope : wmem_allocator_t)
    (ad : Z) :
  eui64_to_str host scope ad = Ok (hex_dump_punct 58 (be_bytes 8 ad) ++ [NUL])
  /\ c_str (hex_dump_punct 58 (be_bytes 8 ad) ++ [NUL])
     = Some (hex_dump_punct 58 (be_bytes 8 ad))
  /\ length (hex_dump_punct 58 (be_bytes 8 ad)) = 23%nat
  /\ eui64_to_str LittleEndian scope ad = eui64_to_str BigEndian scope ad.
Proof.
  assert (L : length (hex_dump_punct 58 (be_bytes 8 ad)) = 23%nat).
  { rewrite length_hex_dump_punct by (apply be_bytes_nonempty; lia).
    now rewrite length_be_bytes. }
  assert (E : forall h,
            eui64_to_str h scope ad = Ok (hex_dump_punct 58 (be_bytes 8 ad) ++ [NUL])).
  { intros h. unfold eui64_to_str. cbv zeta. rewrite eui64_block.
    pose proof (wmem_alloc_length scope EUI64_STR_LEN) as Hl.
    change EUI64_STR_LEN with 24%nat in *.
    pose proof (bytes_to_hexstr_punct_all (be_bytes 8 ad) 58
                  (be_bytes_nonempty 8 ad ltac:(lia))) as Hw.
    rewrite length_be_bytes in Hw.
    pose proof (writes_at _ _ (wmem_alloc scope 24) 0 Hw ltac:(lia)) as Ew.
    cbv beta in Ew. rewrite Ew, bind_Ok. cbv beta iota.
    rewrite take_0, L. cbn [app Nat.add].
    pose proof (store_over (wmem_alloc scope 24)
                  (hex_dump_punct 58 (be_bytes 8 ad)) NUL ltac:(lia)) as Es.
    rewrite L in Es. rewrite Es.
    rewrite drop_ge by lia. reflexivity. }
  split; [apply E|]. split; [|split; [exact L|]].
  - rewrite <- (app_nil_r [NUL]). apply c_str_app.
    apply hex_dump_punct_chars. discriminate.
  - now rewrite !E.
Qed.

End Eui64.
